(** * SmartMusicManager: filename parsing, title cleaning and metadata resolution

    A shallow embedding of [src/main.py].  Python [str] values are lists of
    Unicode code points, Python [int] values are [Z], the [Counter] of artist
    candidates is a finite map, and the dictionaries that travel between
    [extract_metadata] and [process_directory] are finite maps from keys to
    dynamically typed values. *)

From Stdlib Require Import NArith ZArith Ascii String List Bool Lia.
From Stdlib Require Import DecimalString DecimalNat.
From stdpp Require Import gmap strings list fin_maps.

Local Open Scope N_scope.

(** ** Python strings *)

(** A Python [str] is a sequence of code points. *)
Abbreviation pystr := (list N).

Module Utf8.

(** Source literals are UTF-8 text; [decode] turns the bytes of a literal
    into its code points. *)
Definition cont (b : N) : N := N.land b 63.

Fixpoint decode_bytes (fuel : nat) (bs : list N) : list N :=
  match fuel with
  | O => []
  | S fuel' =>
    match bs with
    | [] => []
    | b0 :: t0 =>
      if b0 <? 128 then b0 :: decode_bytes fuel' t0
      else if b0 <? 224 then
        match t0 with
        | b1 :: t1 =>
          (N.shiftl (N.land b0 31) 6 + cont b1) :: decode_bytes fuel' t1
        | _ => []
        end
      else if b0 <? 240 then
        match t0 with
        | b1 :: b2 :: t2 =>
          (N.shiftl (N.land b0 15) 12 + N.shiftl (cont b1) 6 + cont b2)
            :: decode_bytes fuel' t2
        | _ => []
        end
      else
        match t0 with
        | b1 :: b2 :: b3 :: t3 =>
          (N.shiftl (N.land b0 7) 18 + N.shiftl (cont b1) 12
           + N.shiftl (cont b2) 6 + cont b3) :: decode_bytes fuel' t3
        | _ => []
        end
    end
  end.

Definition decode (s : string) : list N :=
  let bs := List.map N_of_ascii (list_ascii_of_string s) in
  decode_bytes (List.length bs) bs.

End Utf8.

(** [u "..."] is the Python literal with that text. *)
Definition u (s : string) : list N := Utf8.decode s.

(** The character tables of the Python runtime: [str.isspace] (also the
    regular-expression class [\s] and the characters removed by
    [str.strip()]), [str.isdigit] and [str.isalnum] (which, with the
    underscore, makes the class [\w] that decides [\b]).  They belong to the
    interpreter, not to the program, so the program is embedded over any
    such tables. *)
Class CharTables := {
  isspace : N -> bool;
  isdigit : N -> bool;
  isalnum : N -> bool
}.

(** The tables of CPython on the Basic Latin block and on the CJK Unified
    Ideographs block, and its complete white-space table.  The closed
    evaluations below only use characters of these two blocks. *)
Definition latin_cjk_isspace (c : N) : bool :=
  ((9 <=? c) && (c <=? 13)) || ((28 <=? c) && (c <=? 32))
  || (c =? 133) || (c =? 160) || (c =? 5760)
  || ((8192 <=? c) && (c <=? 8202))
  || (c =? 8232) || (c =? 8233) || (c =? 8239) || (c =? 8287) || (c =? 12288).

Definition latin_cjk_isdigit (c : N) : bool := (48 <=? c) && (c <=? 57).

Definition latin_cjk_isalnum (c : N) : bool :=
  ((48 <=? c) && (c <=? 57)) || ((65 <=? c) && (c <=? 90))
  || ((97 <=? c) && (c <=? 122)) || ((19968 <=? c) && (c <=? 40959)).

Definition latin_cjk : CharTables :=
  {| isspace := latin_cjk_isspace;
     isdigit := latin_cjk_isdigit;
     isalnum := latin_cjk_isalnum |}.

Section Strings.
Context {tables : CharTables}.

(** [str.strip()]: white space removed at both ends. *)
Fixpoint lstrip (s : list N) : list N :=
  match s with
  | [] => []
  | c :: s' => if isspace c then lstrip s' else s
  end.

Definition rstrip (s : list N) : list N := rev (lstrip (rev s)).

Definition strip (s : list N) : list N := rstrip (lstrip s).

(** [sep.join(parts)] *)
Fixpoint join (sep : list N) (parts : list (list N)) : list N :=
  match parts with
  | [] => []
  | [p] => p
  | p :: ps => p ++ sep ++ join sep ps
  end.

Fixpoint starts_with (p s : list N) : bool :=
  match p, s with
  | [], _ => true
  | _ :: _, [] => false
  | a :: p', b :: s' => (a =? b) && starts_with p' s'
  end.

(** [sub in s] on strings. *)
Fixpoint contains (sub s : list N) : bool :=
  starts_with sub s ||
  match s with
  | [] => false
  | _ :: s' => contains sub s'
  end.

Definition pystr_eqb (a b : list N) : bool := bool_decide (a = b).

(** [a < b] on strings: lexicographic on code points. *)
Fixpoint pystr_ltb (a b : list N) : bool :=
  match a, b with
  | [], [] => false
  | [], _ :: _ => true
  | _ :: _, [] => false
  | x :: a', y :: b' => (x <? y) || ((x =? y) && pystr_ltb a' b')
  end.

(** Truthiness of a string. *)
Definition truthy (s : list N) : bool :=
  match s with [] => false | _ => true end.

End Strings.

(** ** The regular expressions of the [re] module that the program uses *)

Module Re.

(** One character: a literal (what [re.escape] produces for each character
    of its argument) or a class [[...]] given by its listed characters and
    whether it contains [\s]. *)
Inductive atom :=
| Lit (c : N)
| Cls (chars : list N) (space : bool).

Inductive item :=
| One (a : atom)
| Star (a : atom)      (* a*, greedy *)
| Plus (a : atom)      (* a+, greedy *)
| WordB                (* \b *)
| Bol                  (* ^ *)
| Eol.                 (* $ *)

Definition regex := list item.

(** [re.escape(s)] as a pattern: it matches [s] literally. *)
Definition escape (s : list N) : regex := List.map (fun c => One (Lit c)) s.

Section Matching.
Context {tables : CharTables}.

Definition atom_matches (a : atom) (c : N) : bool :=
  match a with
  | Lit d => c =? d
  | Cls chars space => existsb (N.eqb c) chars || (space && isspace c)
  end.

(** [\w] *)
Definition is_word (c : N) : bool := isalnum c || (c =? 95).

Definition word_before (prev : option N) : bool :=
  match prev with Some c => is_word c | None => false end.

Definition word_here (rest : list N) : bool :=
  match rest with c :: _ => is_word c | [] => false end.

(** Length of the longest prefix of [rest] made of characters of [a]. *)
Fixpoint run (a : atom) (rest : list N) : nat :=
  match rest with
  | c :: rest' => if atom_matches a c then S (run a rest') else O
  | [] => O
  end.

(** The character before the position reached after [j] more
    characters. *)
Definition prev_after (j : nat) (prev : option N) (rest : list N)
  : option N :=
  match j with
  | O => prev
  | S j' => match nth_error rest j' with Some c => Some c | None => prev end
  end.

(** Greedy repetition backtracks from the longest run down to [lo]. *)
Fixpoint backtrack (f : nat -> option nat) (lo extra : nat) : option nat :=
  match extra with
  | O => f lo
  | S e =>
    match f (lo + S e)%nat with
    | Some n => Some n
    | None => backtrack f lo e
    end
  end.

(** [$] holds at the end of the text and before a newline that ends
    the text. *)
Definition at_end (rest : list N) : bool :=
  match rest with
  | [] => true
  | [c] => c =? 10
  | _ => false
  end.

(** [match_here r must_advance prev rest n]: the pattern [r] is tried at
    a position whose preceding character is [prev] ([None] at the start
    of the string) and whose remaining text is [rest], [n] characters
    after the start of the match; the result is the length of the match
    the backtracking matcher finds first.  With [must_advance] an empty
    match is refused. *)
Fixpoint match_here (r : regex) (must_advance : bool)
         (prev : option N) (rest : list N) (n : nat) : option nat :=
  match r with
  | [] =>
    if must_advance && Nat.eqb n 0 then None else Some n
  | One a :: r' =>
    match rest with
    | c :: rest' =>
      if atom_matches a c
      then match_here r' must_advance (Some c) rest' (S n)
      else None
    | [] => None
    end
  | Star a :: r' =>
    backtrack
      (fun j => match_here r' must_advance (prev_after j prev rest)
                           (skipn j rest) (n + j))
      0 (run a rest)
  | Plus a :: r' =>
    match run a rest with
    | O => None
    | S k =>
      backtrack
        (fun j => match_here r' must_advance (prev_after j prev rest)
                             (skipn j rest) (n + j))
        1 k
    end
  | WordB :: r' =>
    if xorb (word_before prev) (word_here rest)
    then match_here r' must_advance prev rest n
    else None
  | Bol :: r' =>
    match prev with
    | None => match_here r' must_advance prev rest n
    | Some _ => None
    end
  | Eol :: r' =>
    if at_end rest
    then match_here r' must_advance prev rest n
    else None
  end.

(** The scan shared by [re.split] and [re.sub]: the text is cut at the
    successive leftmost matches; a match found empty is followed by a
    search that must advance.  [skip] counts the characters of the
    current match still to pass, [cur] holds the current piece
    (reversed). *)
Fixpoint pieces (r : regex) (prev : option N) (rest : list N)
         (skip : nat) (must_advance : bool) (cur : list N)
  : list (list N) :=
  match rest with
  | [] =>
    match skip with
    | S _ => [rev cur]
    | O =>
      match match_here r must_advance prev [] 0 with
      | Some _ => [rev cur; []]
      | None => [rev cur]
      end
    end
  | c :: rest' =>
    match skip with
    | S k => pieces r (Some c) rest' k false cur
    | O =>
      match match_here r must_advance prev rest 0 with
      | Some (S len) => rev cur :: pieces r (Some c) rest' len false []
      | Some O =>
        rev cur ::
          match match_here r true prev rest 0 with
          | Some (S len) => [] :: pieces r (Some c) rest' len false []
          | _ => pieces r (Some c) rest' 0 false [c]
          end
      | None => pieces r (Some c) rest' 0 false (c :: cur)
      end
    end
  end.

(** [re.split(r, s)] for a pattern without groups. *)
Definition split (r : regex) (s : list N) : list (list N) :=
  pieces r None s 0 false [].

(** [re.sub(r, repl, s)] for a replacement without group references. *)
Definition sub (r : regex) (repl : list N) (s : list N) : list N :=
  join repl (split r s).

End Matching.
End Re.

(** ** SmartMusicManager *)


(** [self.common_artists] *)
Definition common_artists : gset (list N) :=
  list_to_set
    [ u "周杰伦"; u "林俊杰"; u "孙燕姿"; u "陈奕迅"; u "王菲"; u "梁静茹";
      u "Taylor Swift"; u "Ed Sheeran"; u "Adele"; u "Bruno Mars";
      u "邓紫棋"; u "李荣浩"; u "薛之谦"; u "毛不易"; u "华晨宇" ].

(** [Counter.get(key, 0)] *)
Definition counter_get (counter : gmap (list N) Z) (key : list N) : Z :=
  default 0%Z (counter !! key).

(** The class [[~\-_\s\.—–]] of separators. *)
Definition separator_class : Re.atom :=
  Re.Cls [126; 45; 95; 46; 8212; 8211]%N true.

(** [r'[~\-_\s\.—–]+'] *)
Definition separators : Re.regex := [Re.Plus separator_class].

Section Manager.
Context {tables : CharTables}.

(** [_split_filename] *)
Definition _split_filename (filename : list N) : list (list N) :=
  let parts := Re.split separators filename in
  List.map strip (List.filter (fun p => truthy (strip p)) parts).

(** [_collect_artist_candidates], on the stems of the scanned files. *)
Definition count_parts (counter : gmap (list N) Z) (parts : list (list N))
  : gmap (list N) Z :=
  fold_left
    (fun acc part =>
       if (1 <? length part)%nat
       then <[part := (counter_get acc part + 1)%Z]> acc
       else acc)
    parts counter.

Definition _collect_artist_candidates (stems : list (list N))
  : gmap (list N) Z :=
  fold_left (fun acc filename => count_parts acc (_split_filename filename))
            stems ∅.

(** The state of a manager after [__init__] that the parser reads. *)
Variable artist_candidates : gmap (list N) Z.

Definition artist_keywords : list (list N) :=
  [ u "乐队"; u "组合"; u "乐团"; u "合唱团"; u "&"; u "and"; u "feat";
    u "ft"; u "featuring" ].

(** [_is_likely_artist] *)
Definition _is_likely_artist (text : list N) : bool :=
  if bool_decide (text ∈ common_artists) then true
  else if existsb (fun keyword => contains keyword text) artist_keywords
  then true
  else if (2 <? counter_get artist_candidates text)%Z then true
  else if (2 <=? length text)%nat && (length text <=? 4)%nat
          && negb (existsb isdigit text)
  then true
  else false.

Definition special_chars : list (list N) :=
  [ u "("; u ")"; u "["; u "]"; u "《"; u "》"; u "！"; u "？" ].

(** [_is_likely_song_title] *)
Definition _is_likely_song_title (text : list N) : bool :=
  if (3 <=? length text)%nat && negb (_is_likely_artist text) then true
  else if existsb (fun char => contains char text) special_chars then true
  else false.

(** Comparison of the tuples [(score, i, part)]. *)
Definition tuple_ltb (x y : Z * nat * list N) : bool :=
  let '(s1, i1, p1) := x in
  let '(s2, i2, p2) := y in
  (s1 <? s2)%Z
  || ((s1 =? s2)%Z && ((i1 <? i2)%nat
                       || ((i1 =? i2)%nat && pystr_ltb p1 p2))).

(** [list.sort(reverse=True)]: a stable sort into descending order. *)
Fixpoint insert_desc (x : Z * nat * list N) (l : list (Z * nat * list N))
  : list (Z * nat * list N) :=
  match l with
  | [] => [x]
  | y :: l' => if tuple_ltb x y then y :: insert_desc x l' else x :: l
  end.

Definition sort_reverse (l : list (Z * nat * list N))
  : list (Z * nat * list N) :=
  fold_right insert_desc [] l.

(** The loop that fills [artist_scores], from index [i] on. *)
Fixpoint artist_scores_from (i : nat) (parts : list (list N))
  : list (Z * nat * list N) :=
  match parts with
  | [] => []
  | part :: parts' =>
    let score := 0%Z in
    let score := if _is_likely_artist part then (score + 3)%Z else score in
    let score :=
      if (1 <? counter_get artist_candidates part)%Z
      then (score + 2)%Z else score in
    let score := if (i =? 0)%nat then (score + 1)%Z else score in
    (score, i, part) :: artist_scores_from (S i) parts'
  end.

(** The loop that fills [title_parts], from index [i] on. *)
Fixpoint title_parts_from (i best_artist_idx : nat) (parts : list (list N))
  : list (list N) :=
  match parts with
  | [] => []
  | part :: parts' =>
    if negb (i =? best_artist_idx)%nat
    then part :: title_parts_from (S i) best_artist_idx parts'
    else title_parts_from (S i) best_artist_idx parts'
  end.

(** [r'\b' + re.escape(artist) + r'\b'] *)
Definition word_pattern (artist : list N) : Re.regex :=
  [Re.WordB] ++ Re.escape artist ++ [Re.WordB].

(** [_parse_filename_intelligently] *)
Definition _parse_filename_intelligently (filename : list N)
  : option (list N) * list N :=
  let parts := _split_filename filename in
  match parts with
  | [part] => (None, part)
  | [part1; part2] =>
    let score_artist_first := 0%Z in
    let score_title_first := 0%Z in
    let score_artist_first :=
      if _is_likely_artist part1
      then (score_artist_first + 2)%Z else score_artist_first in
    let score_artist_first :=
      if _is_likely_song_title part2
      then (score_artist_first + 1)%Z else score_artist_first in
    let score_title_first :=
      if _is_likely_artist part2
      then (score_title_first + 2)%Z else score_title_first in
    let score_title_first :=
      if _is_likely_song_title part1
      then (score_title_first + 1)%Z else score_title_first in
    if (score_title_first <? score_artist_first)%Z then (Some part1, part2)
    else if (score_artist_first <? score_title_first)%Z
    then (Some part2, part1)
    else (Some part1, part2)
  | _ :: _ :: _ :: _ =>
    let artist_scores := sort_reverse (artist_scores_from 0 parts) in
    let best_artist_idx :=
      match artist_scores with
      | (_, i, _) :: _ => i
      | [] => O
      end in
    let artist := nth best_artist_idx parts [] in
    let title_parts := title_parts_from 0 best_artist_idx parts in
    let title := join (u " ") title_parts in
    let title := strip (Re.sub (word_pattern artist) [] title) in
    let title := strip (Re.sub separators (u " ") title) in
    let title :=
      match title, title_parts with
      | [], first :: _ => first
      | _, _ => title
      end in
    (Some artist, title)
  | [] => (None, filename)
  end.

(** [r'[-~\s]*' + re.escape(artist) + r'[-~\s]*'] *)
Definition padded_pattern (artist : list N) : Re.regex :=
  [Re.Star (Re.Cls [45; 126]%N true)] ++ Re.escape artist
    ++ [Re.Star (Re.Cls [45; 126]%N true)].

(** [_clean_title]; the artist is [None] or a string. *)
Definition _clean_title (title : list N) (artist : option (list N))
  : list N :=
  match artist with
  | None => title
  | Some artist =>
    if negb (truthy artist) || pystr_eqb artist (u "Various Artists")
    then title
    else
      let patterns := [word_pattern artist; padded_pattern artist] in
      let cleaned_title :=
        fold_left (fun cleaned pattern => strip (Re.sub pattern [] cleaned))
                  patterns title in
      let cleaned_title :=
        strip (Re.sub [Re.Plus separator_class; Re.Eol] [] cleaned_title) in
      let cleaned_title :=
        strip (Re.sub [Re.Bol; Re.Plus separator_class] [] cleaned_title) in
      if truthy cleaned_title then cleaned_title else title
  end.

End Manager.

(** ** Dictionaries, exceptions and the outside world *)

(** The values stored in the metadata and playlist dictionaries. *)
Inductive pyval :=
| PyNone
| PyStr (s : list N)
| PyInt (z : Z).

Definition py_truthy (v : pyval) : bool :=
  match v with
  | PyNone => false
  | PyStr s => truthy s
  | PyInt z => negb (z =? 0)%Z
  end.

(** [v or default] where a string is expected. *)
Definition or_str (v : pyval) (default : list N) : list N :=
  match v with
  | PyStr (c :: s) => c :: s
  | _ => default
  end.

Definition as_artist (v : pyval) : option (list N) :=
  match v with
  | PyStr s => Some s
  | _ => None
  end.

Definition as_str (v : pyval) : list N :=
  match v with
  | PyStr s => s
  | _ => []
  end.

#[export] Instance pyval_eq_dec : EqDecision pyval.
Proof. solve_decision. Defined.

Inductive exn :=
| KeyError (key : string)
| IndexError
| LibraryError.

Inductive result (A : Type) :=
| Ok (a : A)
| Raise (e : exn).
Arguments Ok {A} a.
Arguments Raise {A} e.

Definition bind {A B : Type} (m : result A) (k : A -> result B) : result B :=
  match m with
  | Ok a => k a
  | Raise e => Raise e
  end.

#[export] Instance result_bind : MBind result :=
  fun A B k m => bind m k.

(** [d[key]] *)
Definition getitem (d : gmap string pyval) (key : string) : result pyval :=
  match d !! key with
  | Some v => Ok v
  | None => Raise (KeyError key)
  end.

(** [d.get(key, default)] *)
Definition dict_get (d : gmap string pyval) (key : string) (default : pyval)
  : pyval :=
  match d !! key with
  | Some v => v
  | None => default
  end.

(** What the tag library hands over for one file: [tags !! frame = Some s]
    when [tags.get(frame)] is true and [str(tags[frame])] is [s];
    [info_length] is [int(audio.info.length)] when the attribute exists. *)
Record Audio := {
  tags : option (gmap string (list N));
  info_length : option Z
}.

(** [File(file_path)]: it raises, or returns a false value ([None]), or a
    true one. *)
Inductive FileResult :=
| FileRaises
| FileReturns (audio : option Audio).

(** The reply of the cover search, down to [data["data"]["song"]["list"]]. *)
Record Singer := { singer_name : option (list N) }.

Record Song := {
  songname : option (list N);
  singer : option (list Singer);
  albummid : option (list N)
}.

Inductive CoverJson :=
| NoData                       (* data.get("data") is false *)
| NoSong                       (* data["data"].get("song") is false *)
| NoList                       (* no key "list" *)
| SongList (songs : list Song).

Inductive Response :=
| RequestFails                                  (* requests.get raises *)
| Reply (status_code : Z) (json : option CoverJson).
                                 (* json = None: response.json() raises *)

(** One scanned file with what the outside world answers about it. *)
Record MusicFile := {
  stem : list N;                       (* file_path.stem *)
  suffix_lower : list N;               (* file_path.suffix.lower() *)
  name : list N;                       (* file_path.name *)
  content : list N;                    (* file_path.read_bytes() *)
  tag_read : FileResult;               (* File(file_path) *)
  lrc_sidecar : option (list N);       (* the .lrc file beside it, if any *)
  lyrics_found : option (list N);      (* what search_lyrics returns *)
  cover_response : Response            (* what the cover search answers *)
}.

Section Metadata.
Context {tables : CharTables}.
Variable artist_candidates : gmap (list N) Z.

(** [s.split(sep)[0]] *)
Fixpoint before_first (sep : N) (s : list N) : list N :=
  match s with
  | [] => []
  | c :: s' => if c =? sep then [] else c :: before_first sep s'
  end.

(** The tag frames of an MP3 file are copied into [info]. *)
Definition read_mp3_tags (tags : gmap string (list N))
           (info : gmap string pyval) : gmap string pyval :=
  let info :=
    match tags !! "TIT2"%string, tags !! "TIT1"%string,
          tags !! "TIT3"%string with
    | Some t, _, _ => <["title"%string := PyStr (strip t)]> info
    | None, Some t, _ => <["title"%string := PyStr (strip t)]> info
    | None, None, Some t => <["title"%string := PyStr (strip t)]> info
    | None, None, None => info
    end in
  let info :=
    match tags !! "TPE1"%string, tags !! "TPE2"%string with
    | Some a, _ =>
      let artist := strip a in
      let artist :=
        if existsb (N.eqb 47) artist
        then strip (before_first 47 artist)
        else if existsb (N.eqb 59) artist
        then strip (before_first 59 artist)
        else artist in
      <["artist_source"%string := PyStr (u "TPE1_tag")]>
        (<["artist"%string := PyStr artist]> info)
    | None, Some a =>
      <["artist_source"%string := PyStr (u "TPE2_tag")]>
        (<["artist"%string := PyStr (strip a)]> info)
    | None, None => info
    end in
  match tags !! "TALB"%string with
  | Some a => <["album"%string := PyStr (strip a)]> info
  | None => info
  end.

(** The dictionary [info] after the [if audio:] block. *)
Definition read_audio (file_path : MusicFile) (audio : option Audio)
  : gmap string pyval :=
  let info : gmap string pyval :=
    <["title"%string := PyNone]>
    (<["artist"%string := PyNone]>
    (<["album"%string := PyNone]>
    (<["duration"%string := PyInt 0]>
    (<["artist_source"%string := PyNone]> ∅)))) in
  match audio with
  | Some audio =>
    let info :=
      match tags audio with
      | Some tags =>
        if pystr_eqb (suffix_lower file_path) (u ".mp3")
        then read_mp3_tags tags info else info
      | None => info
      end in
    match info_length audio with
    | Some len => <["duration"%string := PyInt len]> info
    | None => info
    end
  | None => info
  end.

(** The rest of the [try]: what the file name gives is merged in, the
    title is cleaned and the defaults are set. *)
Definition merge_filename (file_path : MusicFile) (info : gmap string pyval)
  : result (gmap string pyval) :=
  let '(filename_artist, filename_title) :=
    _parse_filename_intelligently artist_candidates (stem file_path) in
  title ← getitem info "title";
  let info :=
    if negb (py_truthy title) && truthy filename_title
    then <["artist_source"%string := PyStr (u "filename_parse_title")]>
           (<["title"%string := PyStr filename_title]> info)
    else info in
  artist ← getitem info "artist";
  info ←
    (match filename_artist with
     | Some (c :: fa) =>
       if negb (py_truthy artist)
          || bool_decide (artist = PyStr (u "未知艺术家"))
       then
         let info := <["artist"%string := PyStr (c :: fa)]> info in
         source ← getitem info "artist_source";
         Ok (if negb (py_truthy source)
             then <["artist_source"%string :=
                      PyStr (u "filename_parse_artist")]> info
             else info)
       else Ok info
     | _ => Ok info
     end);
  title ← getitem info "title";
  let info :=
    if negb (py_truthy title)
    then <["title"%string := PyStr (stem file_path)]> info else info in
  artist ← getitem info "artist";
  title ← getitem info "title";
  let info :=
    if py_truthy artist && py_truthy title
    then <["title"%string :=
             PyStr (_clean_title (as_str title) (as_artist artist))]> info
    else info in
  artist ← getitem info "artist";
  if negb (py_truthy artist)
  then
    let info := <["artist"%string := PyStr (u "Various Artists")]> info in
    source ← getitem info "artist_source";
    Ok (if negb (py_truthy source)
        then <["artist_source"%string := PyStr (u "default")]> info
        else info)
  else Ok info.

(** The body of the [try] of [extract_metadata]. *)
Definition extract_metadata_try (file_path : MusicFile)
  : result (gmap string pyval) :=
  audio ← match tag_read file_path with
           | FileRaises => Raise LibraryError
           | FileReturns audio => Ok audio
           end;
  merge_filename file_path (read_audio file_path audio).

(** [extract_metadata] *)
Definition extract_metadata (file_path : MusicFile) : gmap string pyval :=
  match extract_metadata_try file_path with
  | Ok info => info
  | Raise _ =>
    let '(filename_artist, filename_title) :=
      _parse_filename_intelligently artist_candidates (stem file_path) in
    <["title"%string :=
        PyStr (match filename_title with
               | [] => stem file_path
               | _ => filename_title
               end)]>
    (<["artist"%string :=
        PyStr (match filename_artist with
               | Some (c :: fa) => c :: fa
               | _ => u "Various Artists"
               end)]>
    (<["artist_source"%string := PyStr (u "error_fallback")]> ∅))
  end.

End Metadata.

(** ** Cover search *)

Definition cover_prefix : list N :=
  u "https://y.qq.com/music/photo_new/T002R300x300M000".

(** [f"https://y.qq.com/music/photo_new/T002R300x300M000{album_id}.jpg"] *)
Definition cover_link (album_id : list N) : list N :=
  cover_prefix ++ album_id ++ u ".jpg".

(** The name of the first singer of a song, where a missing key gives the
    default of its [get]: a list holding one empty dictionary for the
    singers, the empty string for the name. *)
Definition first_singer_name (song : Song) : result (list N) :=
  match singer song with
  | None => Ok []
  | Some [] => Raise IndexError
  | Some (s :: _) => Ok (default [] (singer_name s))
  end.

(** The test of the loop of [search_cover]. *)
Definition substring_match (title artist song_title song_artist : list N)
  : bool :=
  (contains title song_title || contains song_title title)
  && (contains artist song_artist || contains song_artist artist).

(** The [for song in songs] loop; [Ok None] when it runs to its end. *)
Fixpoint scan_songs (title artist : list N) (songs : list Song)
  : result (option (list N)) :=
  match songs with
  | [] => Ok None
  | song :: songs' =>
    let song_title := default [] (songname song) in
    song_artist ← first_singer_name song;
    if substring_match title artist song_title song_artist
    then
      match albummid song with
      | Some (c :: album_id) => Ok (Some (cover_link (c :: album_id)))
      | _ => scan_songs title artist songs'
      end
    else scan_songs title artist songs'
  end.

(** The body of the [try] of [search_cover], after the request. *)
Definition search_cover_try (response : Response) (title artist : list N)
  : result (option (list N)) :=
  match response with
  | RequestFails => Raise LibraryError
  | Reply status_code json =>
    if (status_code =? 200)%Z then
      data ← match json with
             | Some data => Ok data
             | None => Raise LibraryError
             end;
      match data with
      | NoData => Ok None
      | NoSong => Ok None
      | NoList => Raise (KeyError "list")
      | SongList songs =>
        found ← scan_songs title artist songs;
        match found with
        | Some link => Ok (Some link)
        | None =>
          match songs with
          | song :: _ =>
            match albummid song with
            | Some (c :: album_id) => Ok (Some (cover_link (c :: album_id)))
            | _ => Ok None
            end
          | [] => Ok None
          end
        end
      end
    else Ok None
  end.

(** [search_cover]: every exception is swallowed. *)
Definition search_cover (response : Response) (title artist : list N)
  : option (list N) :=
  match search_cover_try response title artist with
  | Ok found => found
  | Raise _ => None
  end.

Definition default_cover : list N := u "/music/default_cover.jpg".

(** Lines 415-417 of [process_directory]. *)
Definition cover_url (response : Response) (title artist : list N) : list N :=
  match search_cover response title artist with
  | Some (c :: link) => c :: link
  | _ => default_cover
  end.

(** ** Processing the directory *)

(** The output directory and the list being built. *)
Record World := {
  audio_dir : gmap (list N) (list N);      (* output_dir/audio *)
  lyrics_dir : gmap (list N) (list N);     (* output_dir/lyrics *)
  music_list : list (gmap string pyval)
}.

(** Statements of the loop body change the world and may raise. *)
Definition M (A : Type) : Type := World -> World * result A.

#[export] Instance M_ret : MRet M := fun A a w => (w, Ok a).
#[export] Instance M_bind : MBind M :=
  fun A B k m w =>
    match m w with
    | (w', Ok a) => k a w'
    | (w', Raise e) => (w', Raise e)
    end.

Definition lift {A : Type} (r : result A) : M A := fun w => (w, r).

(** The calls of the file system: [exists] on the audio directory, the
    copy of the audio file, the write of the lyrics file.  They are taken
    to succeed.  In the program each of them can raise [OSError] (a name
    that the file system refuses, a disk that is full); the [except] of the
    loop swallows it and the file gets no entry.  That path is outside
    this model, and what is proved of [process_file] and
    [process_directory] holds of the runs in which no call of the file
    system raises. *)
Definition audio_names : M (gmap (list N) (list N)) :=
  fun w => (w, Ok (audio_dir w)).

Definition write_audio (dest bytes : list N) : M unit :=
  fun w => ({| audio_dir := <[dest := bytes]> (audio_dir w);
               lyrics_dir := lyrics_dir w;
               music_list := music_list w |}, Ok tt).

Definition write_lyrics (dest text : list N) : M unit :=
  fun w => ({| audio_dir := audio_dir w;
               lyrics_dir := <[dest := text]> (lyrics_dir w);
               music_list := music_list w |}, Ok tt).

Definition append_entry (entry : gmap string pyval) : M unit :=
  fun w => ({| audio_dir := audio_dir w;
               lyrics_dir := lyrics_dir w;
               music_list := music_list w ++ [entry] |}, Ok tt).

(** [str(counter)] *)
Definition decimal (n : nat) : list N :=
  u (NilEmpty.string_of_uint (Nat.to_uint n)).

(** The [while audio_dest.exists()] loop.  The candidates are pairwise
    different, so at most as many of them as the directory has entries can
    exist: the fuel is never used up. *)
Fixpoint next_free (taken : gmap (list N) (list N)) (base ext : list N)
         (counter fuel : nat) : list N :=
  let final_filename := base ++ u "_" ++ decimal counter ++ ext in
  match fuel with
  | O => final_filename
  | S fuel' =>
    if bool_decide (is_Some (taken !! final_filename))
    then next_free taken base ext (S counter) fuel'
    else final_filename
  end.

Definition free_filename (taken : gmap (list N) (list N))
           (base ext : list N) : list N :=
  let final_filename := base ++ ext in
  if bool_decide (is_Some (taken !! final_filename))
  then next_free taken base ext 1 (size taken)
  else final_filename.

(** [Path(name).stem] for a name without directory part. *)
Definition path_stem (name : list N) : list N :=
  if existsb (N.eqb 46) name then
    let i := (length name - length (before_first 46 (rev name)) - 1)%nat in
    if (0 <? i)%nat && (i <? length name - 1)%nat
    then firstn i name else name
  else name.

Section Processing.
Context {tables : CharTables}.
Variable artist_candidates : gmap (list N) Z.

(** The class [illegal_chars] of [sanitize_filename]: the nine characters
    that file systems refuse and the control characters 0 to 31. *)
Definition illegal_chars : Re.regex :=
  [Re.One (Re.Cls ([60; 62; 58; 34; 47; 92; 124; 63; 42]
                     ++ List.map N.of_nat (seq 0 32))%N false)].

(** [sanitize_filename] *)
Definition sanitize_filename (name : list N) : list N :=
  let name := Re.sub illegal_chars [] name in
  strip (firstn 100 name).

(** The body of the [try] inside the loop of [process_directory]. *)
Definition process_file_try (file_path : MusicFile) : M unit :=
  let metadata := extract_metadata artist_candidates file_path in
  title ← lift (getitem metadata "title");
  let title := or_str title (stem file_path) in
  artist ← lift (getitem metadata "artist");
  let artist := or_str artist (u "Various Artists") in
  let safe_title := sanitize_filename title in
  let safe_artist := sanitize_filename artist in
  let base_filename :=
    if negb (pystr_eqb artist (u "Various Artists"))
    then safe_artist ++ u " - " ++ safe_title
    else safe_title in
  let audio_ext := suffix_lower file_path in
  taken ← audio_names;
  let final_filename := free_filename taken base_filename audio_ext in
  write_audio final_filename (content file_path);;
  let lrc_content :=
    match lrc_sidecar file_path with
    | Some text => Some text
    | None => lyrics_found file_path
    end in
  lrc_url ←
    match lrc_content with
    | Some (c :: text) =>
      let lrc_filename := path_stem final_filename ++ u ".lrc" in
      write_lyrics lrc_filename (c :: text);;
      mret (PyStr (u "lyrics/" ++ lrc_filename))
    | _ => mret PyNone
    end;
  let cover := cover_url (cover_response file_path) title artist in
  duration ← lift (getitem metadata "duration");
  append_entry
    (<["name"%string := PyStr title]>
    (<["artist"%string := PyStr artist]>
    (<["url"%string := PyStr (u "audio/" ++ final_filename)]>
    (<["cover"%string := PyStr cover]>
    (<["lrc"%string := lrc_url]>
    (<["duration"%string := duration]>
    (<["artist_source"%string :=
         dict_get metadata "artist_source" (PyStr (u "unknown"))]>
    (<["original_filename"%string := PyStr (name file_path)]> ∅)))))))).

(** One turn of the loop: [except Exception: continue]. *)
Definition process_file (w : World) (file_path : MusicFile) : World :=
  fst (process_file_try file_path w).

(** [process_directory] on the scanned files, given what the output
    directory holds already. *)
Definition process_directory (audio lyrics : gmap (list N) (list N))
           (music_files : list MusicFile) : list (gmap string pyval) :=
  let w := {| audio_dir := audio; lyrics_dir := lyrics; music_list := [] |} in
  music_list (fold_left process_file music_files w).

End Processing.

(** ** The playlist file *)

#[export] Instance pyval_countable : Countable pyval.
Proof.
  refine (inj_countable'
            (fun v => match v with
                      | PyNone => inl tt
                      | PyStr s => inr (inl s)
                      | PyInt z => inr (inr z)
                      end)
            (fun x => match x with
                      | inl _ => PyNone
                      | inr (inl s) => PyStr s
                      | inr (inr z) => PyInt z
                      end) _).
  now intros [].
Defined.

(** The dictionary [clean_song] that [generate_json] builds for one song
    of the list. *)
Definition clean_song (song : gmap string pyval)
  : result (gmap string pyval) :=
  name ← getitem song "name";
  artist ← getitem song "artist";
  url ← getitem song "url";
  cover ← getitem song "cover";
  lrc ← getitem song "lrc";
  duration ← getitem song "duration";
  Ok (<["name"%string := name]>
      (<["artist"%string := artist]>
      (<["url"%string := url]>
      (<["cover"%string := cover]>
      (<["lrc"%string := lrc]>
      (<["duration"%string := duration]> ∅)))))).

(** The loop that fills [clean_list], the list written to the playlist
    file. *)
Fixpoint clean_list (music_list : list (gmap string pyval))
  : result (list (gmap string pyval)) :=
  match music_list with
  | [] => Ok []
  | song :: music_list' =>
    clean ← clean_song song;
    rest ← clean_list music_list';
    Ok (clean :: rest)
  end.

(** The loop that fills [artist_sources]: the songs counted by their
    provenance. *)
Definition artist_sources (music_list : list (gmap string pyval))
  : gmap pyval Z :=
  fold_left
    (fun acc song =>
       let source := dict_get song "artist_source" (PyStr (u "unknown")) in
       <[source := (default 0%Z (acc !! source) + 1)%Z]> acc)
    music_list ∅.

(** [with_lyrics]: the songs with lyrics. *)
Definition with_lyrics (music_list : list (gmap string pyval)) : nat :=
  length (List.filter (fun song => py_truthy (dict_get song "lrc" PyNone))
                      music_list).

(** * The vocabulary of the specification *)

(** The scores of section 4.4 of the specification count a predicate that
    holds as 1. *)
Definition b2z (b : bool) : Z := if b then 1%Z else 0%Z.

(** The longest prefix of characters that satisfy [p] is dropped. *)
Fixpoint drop_while (p : N -> bool) (s : list N) : list N :=
  match s with
  | [] => []
  | c :: s' => if p c then drop_while p s' else s
  end.

(** A text is trimmed of [p] when neither end satisfies [p]. *)
Definition trimmed (p : N -> bool) (s : list N) : Prop :=
  drop_while p s = s /\ drop_while p (rev s) = rev s.

(** The order the sort of the parser goes by, on the first two components
    of the tuples. *)
Definition key_le (x y : Z * nat * list N) : Prop :=
  (x.1.1 < y.1.1)%Z \/ (x.1.1 = y.1.1 /\ (x.1.2 <= y.1.2)%nat).

Section Vocabulary.
Context {tables : CharTables}.
Variable artist_candidates : gmap (list N) Z.

(** The two scores of a pair of tokens, in the words of section 4.4. *)
Definition score_ab (a b : list N) : Z :=
  (2 * b2z (_is_likely_artist artist_candidates a)
   + 1 * b2z (_is_likely_song_title artist_candidates b))%Z.

Definition score_ba (a b : list N) : Z :=
  (2 * b2z (_is_likely_artist artist_candidates b)
   + 1 * b2z (_is_likely_song_title artist_candidates a))%Z.

(** The score of the token [part] at index [i], in the words of section
    4.4. *)
Definition artist_score (i : nat) (part : list N) : Z :=
  (3 * b2z (_is_likely_artist artist_candidates part)
   + 2 * b2z (1 <? counter_get artist_candidates part)%Z
   + 1 * b2z (i =? 0)%nat)%Z.

(** The index the parser keeps: that of the first tuple after the sort. *)
Definition best_index (parts : list (list N)) : nat :=
  match sort_reverse (artist_scores_from artist_candidates 0 parts) with
  | (_, i, _) :: _ => i
  | [] => O
  end.

(** The title the parser builds from the artist and the other tokens. *)
Definition title_of (artist : list N) (title_parts : list (list N))
  : list N :=
  let title := join (u " ") title_parts in
  let title := strip (Re.sub (word_pattern artist) [] title) in
  let title := strip (Re.sub separators (u " ") title) in
  match title, title_parts with
  | [], first :: _ => first
  | _, _ => title
  end.

(** Membership in the separator class. *)
Definition is_separator : N -> bool := Re.atom_matches separator_class.

(** The text without its trailing run of separators. *)
Definition rtrim (s : list N) : list N :=
  rev (drop_while is_separator (rev s)).

(** The steps of the Title Cleaner, named as section 4.5 names them. *)
Definition remove_whole_word (artist title : list N) : list N :=
  strip (Re.sub (word_pattern artist) [] title).

Definition remove_padded (artist title : list N) : list N :=
  strip (Re.sub (padded_pattern artist) [] title).

Definition strip_trailing_separators (title : list N) : list N :=
  strip (Re.sub [Re.Plus separator_class; Re.Eol] [] title).

Definition strip_leading_separators (title : list N) : list N :=
  strip (Re.sub [Re.Bol; Re.Plus separator_class] [] title).

Definition cleaned (artist title : list N) : list N :=
  strip_leading_separators
    (strip_trailing_separators
       (remove_padded artist (remove_whole_word artist title))).

(** What is stored for a lead-artist frame. *)
Definition lead_artist (a : list N) : list N :=
  let artist := strip a in
  if existsb (N.eqb 47) artist then strip (before_first 47 artist)
  else if existsb (N.eqb 59) artist then strip (before_first 59 artist)
  else artist.

End Vocabulary.

(** The cover that [process_directory] records when the listed songs are
    scanned without a hit: that of the first listed song, when it has an
    album identifier. *)
Definition first_result_cover (songs : list Song) : list N :=
  match songs with
  | song :: _ =>
    match albummid song with
    | Some (c :: album_id) => cover_link (c :: album_id)
    | _ => default_cover
    end
  | [] => default_cover
  end.

(** No listed song matches the query (and every song lists a singer, or
    has no singer entry at all). *)
Definition no_song_matches (title artist : list N) (songs : list Song) : Prop :=
  forall song, In song songs ->
    exists song_artist,
      first_singer_name song = Ok song_artist
      /\ substring_match title artist (default [] (songname song)) song_artist
         = false.

(** ** Files and replies of the examples *)

(** An MP3 file [晴天.mp3] tagged with the title 晴天 and the band
    [周杰伦/方文山], without lead-artist frame. *)
Definition band_tag_file : MusicFile :=
  {| stem := u "晴天"; suffix_lower := u ".mp3"; name := u "晴天.mp3";
     content := [73; 68; 51]%N;
     tag_read :=
       FileReturns
         (Some {| tags := Some (<["TIT2"%string := u "晴天"]>
                                 {["TPE2"%string := u "周杰伦/方文山"]});
                  info_length := Some 269%Z |});
     lrc_sidecar := None; lyrics_found := None;
     cover_response := RequestFails |}.

(** The same file with the two names in a lead-artist frame. *)
Definition lead_tag_file : MusicFile :=
  {| stem := u "晴天"; suffix_lower := u ".mp3"; name := u "晴天.mp3";
     content := [73; 68; 51]%N;
     tag_read :=
       FileReturns
         (Some {| tags := Some (<["TIT2"%string := u "晴天"]>
                                 {["TPE1"%string := u "周杰伦/方文山"]});
                  info_length := Some 269%Z |});
     lrc_sidecar := None; lyrics_found := None;
     cover_response := RequestFails |}.

(** The same file with three names in a lead-artist frame, the first two
    parted by [;] and the last two by [/]. *)
Definition two_delimiter_file : MusicFile :=
  {| stem := u "晴天"; suffix_lower := u ".mp3"; name := u "晴天.mp3";
     content := [73; 68; 51]%N;
     tag_read :=
       FileReturns
         (Some {| tags := Some (<["TIT2"%string := u "晴天"]>
                                 {["TPE1"%string :=
                                     u "周杰伦;方文山/林俊杰"]});
                  info_length := Some 269%Z |});
     lrc_sidecar := None; lyrics_found := None;
     cover_response := RequestFails |}.

(** The one song 稻香 of 周杰伦, and the reply to the query [晴天 林俊杰] that
    lists it. *)
Definition other_songs : list Song :=
  [ {| songname := Some (u "稻香");
       singer := Some [ {| singer_name := Some (u "周杰伦") |} ];
       albummid := Some (u "002Neh8l0uciQZ") |} ].

Definition other_song_reply : Response :=
  Reply 200 (Some (SongList other_songs)).

(** The file [周杰伦 - 晴天.mp3] on which the tag library raises. *)
Definition unreadable_file : MusicFile :=
  {| stem := u "周杰伦 - 晴天"; suffix_lower := u ".mp3";
     name := u "周杰伦 - 晴天.mp3";
     content := [73; 68; 51]%N;
     tag_read := FileRaises;
     lrc_sidecar := None; lyrics_found := None;
     cover_response := RequestFails |}.

Definition empty_output : World :=
  {| audio_dir := ∅; lyrics_dir := ∅; music_list := [] |}.

(** ** The tokens of a text *)

(** The pieces of a text between its runs of characters that satisfy [sep]:
    [cur] holds the piece being read (reversed), [in_sep] tells that the
    last character read was a separator. *)
Fixpoint chunks (sep : N -> bool) (s cur : list N) (in_sep : bool)
  : list (list N) :=
  match s with
  | [] => [rev cur]
  | c :: s' =>
    if sep c
    then (if in_sep then chunks sep s' [] true
          else rev cur :: chunks sep s' [] true)
    else chunks sep s' (c :: cur) false
  end.

(** A text without any character that satisfies [sep]. *)
Definition free_of (sep : N -> bool) (s : list N) : Prop :=
  forall c, In c s -> sep c = false.

(** ** Counting *)

(** The number of times [t] stands in the list [parts]. *)
Definition occurrences (t : list N) (parts : list (list N)) : Z :=
  Z.of_nat (length (List.filter (fun p => bool_decide (p = t)) parts)).

(** ** File names *)

(** The characters that [sanitize_filename] removes. *)
Definition is_illegal (c : N) : bool :=
  existsb (N.eqb c)
          ([60; 62; 58; 34; 47; 92; 124; 63; 42]
             ++ List.map N.of_nat (seq 0 32))%N.

(** The name tried at the turn [counter] of the collision loop. *)
Definition candidate (base ext : list N) (counter : nat) : list N :=
  base ++ u "_" ++ decimal counter ++ ext.

(** The decimal digits of a number, as code points. *)
Fixpoint digits_of (d : Decimal.uint) : list N :=
  match d with
  | Decimal.Nil => []
  | Decimal.D0 d' => 48 :: digits_of d'
  | Decimal.D1 d' => 49 :: digits_of d'
  | Decimal.D2 d' => 50 :: digits_of d'
  | Decimal.D3 d' => 51 :: digits_of d'
  | Decimal.D4 d' => 52 :: digits_of d'
  | Decimal.D5 d' => 53 :: digits_of d'
  | Decimal.D6 d' => 54 :: digits_of d'
  | Decimal.D7 d' => 55 :: digits_of d'
  | Decimal.D8 d' => 56 :: digits_of d'
  | Decimal.D9 d' => 57 :: digits_of d'
  end.

(** A song that the loop of [search_cover] passes over: its singer is
    read without error, and it does not match the query or has no album
    identifier. *)
Definition passed_over (title artist : list N) (song : Song) : Prop :=
  exists song_artist,
    first_singer_name song = Ok song_artist
    /\ (substring_match title artist (default [] (songname song)) song_artist
        = false
        \/ albummid song = None \/ albummid song = Some []).

(** ** The fields of the metadata *)

(** The four fields of [info] that the resolution and its caller read. *)
Definition has_fields (info : gmap string pyval) (t a s d : pyval) : Prop :=
  info !! "title"%string = Some t
  /\ info !! "artist"%string = Some a
  /\ info !! "artist_source"%string = Some s
  /\ info !! "duration"%string = Some d.

(** [None] or a string. *)
Definition str_or_none (v : pyval) : Prop :=
  v = PyNone \/ exists s, v = PyStr s.

(** A string that is not empty. *)
Definition nonempty_str (v : pyval) : Prop :=
  exists c s, v = PyStr (c :: s).

(** The provenance tags that the resolver can end with. *)
Definition provenance_tags : list (list N) :=
  [ u "TPE1_tag"; u "TPE2_tag"; u "filename_parse_title";
    u "filename_parse_artist"; u "default"; u "error_fallback" ].

Section Fields.
Context {tables : CharTables}.

(** The title, artist and provenance at the end of the [try] of
    [extract_metadata], from those read from the tags ([t], [a], [s]), the
    stem and its parse. *)
Definition resolve_fields (stem : list N) (parsed : option (list N) * list N)
           (t a s : pyval) : pyval * pyval * pyval :=
  let '(fa, ft) := parsed in
  let use_ft := negb (py_truthy t) && truthy ft in
  let t1 := if use_ft then PyStr ft else t in
  let s1 := if use_ft then PyStr (u "filename_parse_title") else s in
  let use_fa :=
    match fa with
    | Some (_ :: _) =>
      negb (py_truthy a) || bool_decide (a = PyStr (u "未知艺术家"))
    | _ => false
    end in
  let a2 := if use_fa then PyStr (default [] fa) else a in
  let s2 :=
    if use_fa && negb (py_truthy s1)
    then PyStr (u "filename_parse_artist") else s1 in
  let t3 := if negb (py_truthy t1) then PyStr stem else t1 in
  let t4 :=
    if py_truthy a2 && py_truthy t3
    then PyStr (_clean_title (as_str t3) (as_artist a2)) else t3 in
  let a5 := if negb (py_truthy a2) then PyStr (u "Various Artists") else a2 in
  let s5 :=
    if negb (py_truthy a2) && negb (py_truthy s2)
    then PyStr (u "default") else s2 in
  (t4, a5, s5).

End Fields.

(** [int(audio.info.length)] where there is a length, 0 otherwise. *)
Definition duration_of (audio : option Audio) : Z :=
  match audio with
  | Some audio => default 0%Z (info_length audio)
  | None => 0%Z
  end.

(** A provenance tag of the [try] of [extract_metadata]. *)
Definition good_tag (tag : list N) : Prop :=
  truthy tag = true /\ In tag provenance_tags /\ tag <> u "error_fallback".

Definition none_or_tag (v : pyval) : Prop :=
  v = PyNone \/ exists tag, v = PyStr tag /\ good_tag tag.

(** ** The entries of the playlist *)

(** The dictionary that [process_directory] appends for one file. *)
Definition playlist_entry (title artist url cover : list N)
           (lrc duration source : pyval) (original : list N)
  : gmap string pyval :=
  <["name"%string := PyStr title]>
  (<["artist"%string := PyStr artist]>
  (<["url"%string := PyStr url]>
  (<["cover"%string := PyStr cover]>
  (<["lrc"%string := lrc]>
  (<["duration"%string := duration]>
  (<["artist_source"%string := source]>
  (<["original_filename"%string := PyStr original]> ∅))))))).

Definition entry_keys : list string :=
  [ "name"; "artist"; "url"; "cover"; "lrc"; "duration"; "artist_source";
    "original_filename" ]%string.

(** The tag library returned, with or without audio object. *)
Definition tags_read (file_path : MusicFile) : bool :=
  match tag_read file_path with
  | FileRaises => false
  | FileReturns _ => true
  end.

(** The keys of a song of the playlist file. *)
Definition clean_keys : list string :=
  [ "name"; "artist"; "url"; "cover"; "lrc"; "duration" ]%string.

(** The sum of the counts of a statistic. *)
Definition total (counts : gmap pyval Z) : Z :=
  map_fold (fun _ n acc => (n + acc)%Z) 0%Z counts.

(** What the tags can leave in the fields. *)
Definition tag_fields (t a s : pyval) : Prop :=
  str_or_none t /\ str_or_none a
  /\ (s = PyNone \/ s = PyStr (u "TPE1_tag") \/ s = PyStr (u "TPE2_tag"))
  /\ (py_truthy a = true -> s <> PyNone).

(** The text of the lyrics of a file: the lyrics file beside it where
    there is one, what the search returns otherwise. *)
Definition lrc_content (file_path : MusicFile) : option (list N) :=
  match lrc_sidecar file_path with
  | Some text => Some text
  | None => lyrics_found file_path
  end.

(** The files that get an entry with lyrics. *)
Definition has_lyrics (file_path : MusicFile) : bool :=
  tags_read file_path
  && match lrc_content file_path with
     | Some (_ :: _) => true
     | _ => false
     end.

(** A tagged file with a lyrics file beside it, for which the search would
    find other lyrics. *)
Definition sidecar_file : MusicFile :=
  {| stem := u "晴天"; suffix_lower := u ".mp3"; name := u "晴天.mp3";
     content := [73; 68; 51]%N;
     tag_read :=
       FileReturns
         (Some {| tags := Some {["TIT2"%string := u "晴天"]};
                  info_length := Some 269%Z |});
     lrc_sidecar := Some (u "[00:01.00]晴天");
     lyrics_found := Some (u "[00:02.00]故事的小黄花");
     cover_response := RequestFails |}.

(** ** The ends of a text *)

(** The text without its longest suffix of characters that satisfy
    [p]. *)
Definition rdrop (p : N -> bool) (s : list N) : list N :=
  rev (drop_while p (rev s)).



Section CleanerVocabulary.
Context {tables : CharTables}.





End CleanerVocabulary.

(** * Properties *)

(** ** Strings and patterns *)

Section StringFacts.
Context {tables : CharTables}.

Lemma lstrip_incl (s : list N) (c : N) : In c (lstrip s) -> In c s.
Proof.
  induction s as [|a s IH]; simpl; [tauto|].
  destruct (isspace a); simpl; tauto.
Qed.

Lemma strip_incl (s : list N) (c : N) : In c (strip s) -> In c s.
Proof.
  unfold strip, rstrip. intros H.
  apply in_rev, lstrip_incl, in_rev in H. now apply lstrip_incl.
Qed.

Lemma join_incl (sep : list N) (parts : list (list N)) (c : N) :
  In c (join sep parts) -> In c sep \/ exists p, In p parts /\ In c p.
Proof.
  induction parts as [|p ps IH]; simpl; [tauto|].
  destruct ps as [|q ps].
  - intros H. right. exists p. auto.
  - rewrite !in_app_iff. intros [H|[H|H]].
    + right. exists p. auto.
    + auto.
    + destruct (IH H) as [?|[t [Ht Hc]]]; [auto|].
      right. exists t. split; [right; exact Ht|exact Hc].
Qed.

Lemma pieces_incl (r : Re.regex) (rest : list N) :
  forall prev skip ma cur p c,
    In p (Re.pieces r prev rest skip ma cur) -> In c p ->
    In c cur \/ In c rest.
Proof.
  induction rest as [|a rest IH]; intros prev skip ma cur p c Hp Hc.
  - simpl in Hp. left.
    destruct skip.
    + destruct (Re.match_here r ma prev [] 0); simpl in Hp;
        destruct Hp as [<-|Hp]; try (now apply in_rev);
        try (destruct Hp as [<-|[]]; now destruct Hc); now destruct Hp.
    + destruct Hp as [<-|[]]. now apply in_rev.
  - simpl in Hp. destruct skip as [|k].
    + destruct (Re.match_here r ma prev (a :: rest) 0) as [[|len]|].
      * destruct Hp as [<-|Hp]; [left; now apply in_rev|].
        destruct (Re.match_here r true prev (a :: rest) 0) as [[|len]|].
        -- destruct (IH _ _ _ _ _ _ Hp Hc) as [[<-|[]]|H]; right;
             [now left|now right].
        -- destruct Hp as [<-|Hp]; [now destruct Hc|].
           destruct (IH _ _ _ _ _ _ Hp Hc) as [[]|H]. right. now right.
        -- destruct (IH _ _ _ _ _ _ Hp Hc) as [[<-|[]]|H]; right;
             [now left|now right].
      * destruct Hp as [<-|Hp]; [left; now apply in_rev|].
        destruct (IH _ _ _ _ _ _ Hp Hc) as [[]|H]. right. now right.
      * destruct (IH _ _ _ _ _ _ Hp Hc) as [[<-|H]|H];
          [right; now left|now left|right; now right].
    + destruct (IH _ _ _ _ _ _ Hp Hc) as [H|H]; [now left|right; now right].
Qed.

(** A substitution only keeps characters of its input and brings
    characters of the replacement. *)
Lemma sub_incl (r : Re.regex) (repl s : list N) (c : N) :
  In c (Re.sub r repl s) -> In c repl \/ In c s.
Proof.
  unfold Re.sub, Re.split. intros H.
  destruct (join_incl _ _ _ H) as [?|[p [Hp Hc]]]; [auto|].
  destruct (pieces_incl _ _ _ _ _ _ _ _ Hp Hc) as [[]|?]. auto.
Qed.

End StringFacts.

(** ** The Filename Parser on zero, one and two tokens *)

Section ParserFacts.
Context {tables : CharTables}.
Variable artist_candidates : gmap (list N) Z.

Abbreviation parse := (_parse_filename_intelligently artist_candidates).
Abbreviation is_likely_artist := (_is_likely_artist artist_candidates).
Abbreviation is_likely_title :=
  (_is_likely_song_title artist_candidates).

Lemma parse_two (filename a b : list N) :
  _split_filename filename = [a; b] ->
  parse filename =
    if (score_ba artist_candidates a b <? score_ab artist_candidates a b)%Z then (Some a, b)
    else if (score_ab artist_candidates a b <? score_ba artist_candidates a b)%Z then (Some b, a)
    else (Some a, b).
Proof.
  intros Hs. unfold _parse_filename_intelligently, score_ab, score_ba.
  rewrite Hs.
  destruct (is_likely_artist a), (is_likely_title b),
    (is_likely_artist b), (is_likely_title a); reflexivity.
Qed.

(** C6: a stem with at most one token has no artist; the title is the
    token when there is one, and the stem itself when there is none. *)
Theorem parse_at_most_one_token (filename : list N) :
  (length (_split_filename filename) <= 1)%nat ->
  fst (parse filename) = None
  /\ (forall token, _split_filename filename = [token] ->
                    snd (parse filename) = token)
  /\ (_split_filename filename = [] -> snd (parse filename) = filename).
Proof.
  intros Hlen. unfold _parse_filename_intelligently.
  destruct (_split_filename filename) as [|t [|t' l]] eqn:E.
  - repeat split; [discriminate].
  - repeat split; [|discriminate]. intros token [= ->]. reflexivity.
  - simpl in Hlen. lia.
Qed.

(** C5: on two tokens [a], [b] the parser compares
    [score_ab = 2*is_likely_artist(a) + is_likely_title(b)] with
    [score_ba = 2*is_likely_artist(b) + is_likely_title(a)]: the higher
    score decides, and a tie gives artist [a], title [b]. *)
Theorem parse_two_tokens (filename a b : list N) :
  _split_filename filename = [a; b] ->
  ((score_ab artist_candidates a b > score_ba artist_candidates a b)%Z -> parse filename = (Some a, b))
  /\ ((score_ba artist_candidates a b > score_ab artist_candidates a b)%Z -> parse filename = (Some b, a))
  /\ ((score_ab artist_candidates a b = score_ba artist_candidates a b)%Z -> parse filename = (Some a, b)).
Proof.
  intros Hs. rewrite (parse_two _ _ _ Hs).
  repeat split; intros H.
  - destruct (Z.ltb_spec (score_ba artist_candidates a b) (score_ab artist_candidates a b)); [reflexivity|lia].
  - destruct (Z.ltb_spec (score_ba artist_candidates a b) (score_ab artist_candidates a b)); [lia|].
    destruct (Z.ltb_spec (score_ab artist_candidates a b) (score_ba artist_candidates a b)); [reflexivity|lia].
  - rewrite H, Z.ltb_irrefl. reflexivity.
Qed.

(** The fourth strategy of [_is_likely_artist] alone is enough. *)
Lemma short_text_is_likely_artist (text : list N) :
  (2 <=? length text)%nat && (length text <=? 4)%nat
    && negb (existsb isdigit text) = true ->
  is_likely_artist text = true.
Proof.
  intros H. unfold _is_likely_artist. rewrite H.
  repeat match goal with |- context [if ?b then _ else _] =>
                           destruct b end; reflexivity.
Qed.

(** A text that is likely an artist and has no special character is not
    likely a title. *)
Lemma artist_like_is_not_title (text : list N) :
  is_likely_artist text = true ->
  existsb (fun char => contains char text) special_chars = false ->
  is_likely_title text = false.
Proof.
  intros Ha Hs. unfold _is_likely_song_title.
  rewrite Ha, Hs, andb_false_r. reflexivity.
Qed.

End ParserFacts.

(** C6 at the stem [晴天] and at a stem of separators only. *)
Lemma parse_at_most_one_token_witness :
  fst (@_parse_filename_intelligently latin_cjk ∅ (u "晴天")) = None
  /\ snd (@_parse_filename_intelligently latin_cjk ∅ (u " - ")) = u " - ".
Proof.
  split.
  - apply (@parse_at_most_one_token latin_cjk ∅ (u "晴天")).
    vm_compute. lia.
  - apply (@parse_at_most_one_token latin_cjk ∅ (u " - "));
      vm_compute; [lia|reflexivity].
Defined.

(** C5 at the stem [周杰伦 - 晴天]: both tokens look like artists, the scores
    tie and the first token is the artist. *)
Lemma parse_two_tokens_witness :
  @_parse_filename_intelligently latin_cjk ∅ (u "周杰伦 - 晴天")
  = (Some (u "周杰伦"), u "晴天").
Proof.
  apply (@parse_two_tokens latin_cjk ∅ (u "周杰伦 - 晴天")
                           (u "周杰伦") (u "晴天")); reflexivity.
Defined.

(** C1, as the specification states it, fails: with the index built from
    the one file [告白气球 - 周杰伦] the parser does not answer
    (artist 周杰伦, title 告白气球). *)
Lemma title_first_stem_counterexample :
  @_parse_filename_intelligently latin_cjk
    (@_collect_artist_candidates latin_cjk [u "告白气球 - 周杰伦"])
    (u "告白气球 - 周杰伦")
  <> (Some (u "周杰伦"), u "告白气球").
Proof. vm_compute. discriminate. Qed.

(** C1, amended: whatever the frequency index holds, the stem
    [告白气球 - 周杰伦] parses to artist 告白气球 and title 周杰伦.  Both tokens
    pass the artist heuristics (2 to 4 characters, no digit), neither is
    title-like, the scores tie at 2 and the tie goes to the first token. *)
Theorem title_first_stem_parse (artist_candidates : gmap (list N) Z) :
  @_parse_filename_intelligently latin_cjk artist_candidates
    (u "告白气球 - 周杰伦")
  = (Some (u "告白气球"), u "周杰伦")
  /\ @score_ab latin_cjk artist_candidates (u "告白气球") (u "周杰伦") = 2%Z
  /\ @score_ba latin_cjk artist_candidates (u "告白气球") (u "周杰伦") = 2%Z.
Proof.
  assert (Ha1 : @_is_likely_artist latin_cjk artist_candidates (u "告白气球")
                = true)
    by (apply short_text_is_likely_artist; reflexivity).
  assert (Ha2 : @_is_likely_artist latin_cjk artist_candidates (u "周杰伦")
                = true)
    by (apply short_text_is_likely_artist; reflexivity).
  assert (Ht1 : @_is_likely_song_title latin_cjk artist_candidates
                  (u "告白气球") = false)
    by (apply artist_like_is_not_title; [exact Ha1|reflexivity]).
  assert (Ht2 : @_is_likely_song_title latin_cjk artist_candidates
                  (u "周杰伦") = false)
    by (apply artist_like_is_not_title; [exact Ha2|reflexivity]).
  assert (Hab : @score_ab latin_cjk artist_candidates
                  (u "告白气球") (u "周杰伦") = 2%Z)
    by (unfold score_ab; rewrite Ha1, Ht2; reflexivity).
  assert (Hba : @score_ba latin_cjk artist_candidates
                  (u "告白气球") (u "周杰伦") = 2%Z)
    by (unfold score_ba; rewrite Ha2, Ht1; reflexivity).
  split; [|split; assumption].
  rewrite (@parse_two latin_cjk artist_candidates (u "告白气球 - 周杰伦")
             (u "告白气球") (u "周杰伦")) by reflexivity.
  rewrite Hab, Hba. reflexivity.
Qed.

(** ** The Filename Parser on three tokens and more *)

Section ManyTokens.
Context {tables : CharTables}.
Variable artist_candidates : gmap (list N) Z.

Abbreviation parse := (_parse_filename_intelligently artist_candidates).

Lemma parse_many (filename : list N) :
  (3 <= length (_split_filename filename))%nat ->
  parse filename =
    let parts := _split_filename filename in
    let artist := nth (best_index artist_candidates parts) parts [] in
    (Some artist,
     title_of artist (title_parts_from 0 (best_index artist_candidates parts) parts)).
Proof.
  intros Hlen. unfold _parse_filename_intelligently.
  destruct (_split_filename filename) as [|a [|b [|c l]]] eqn:E;
    simpl in Hlen; try lia.
  reflexivity.
Qed.

Lemma scores_from_In (parts : list (list N)) :
  forall i s j p,
    In (s, j, p) (artist_scores_from artist_candidates i parts) ->
    (i <= j)%nat /\ nth_error parts (j - i) = Some p
    /\ s = artist_score artist_candidates j p.
Proof.
  induction parts as [|part parts IH]; intros i s j p H; [destruct H|].
  simpl in H. destruct H as [H|H].
  - injection H as Hs <- <-. rewrite Nat.sub_diag. repeat split; [lia|].
    subst s. unfold artist_score, b2z.
    destruct (_is_likely_artist _ _), (1 <? _)%Z, (i =? 0)%nat; reflexivity.
  - destruct (IH _ _ _ _ H) as (Hle & Hn & Hs).
    repeat split; [lia| |exact Hs].
    replace (j - i)%nat with (S (j - S i)) by lia. exact Hn.
Qed.

Lemma scores_from_complete (parts : list (list N)) :
  forall i k p,
    nth_error parts k = Some p ->
    In (artist_score artist_candidates (i + k) p, (i + k)%nat, p)
       (artist_scores_from artist_candidates i parts).
Proof.
  induction parts as [|part parts IH]; intros i k p H;
    [destruct k; discriminate|].
  destruct k as [|k]; simpl in H.
  - injection H as ->. left. rewrite Nat.add_0_r.
    unfold artist_score, b2z.
    destruct (_is_likely_artist _ _), (1 <? _)%Z, (i =? 0)%nat; reflexivity.
  - right. replace (i + S k)%nat with (S i + k)%nat by lia. now apply IH.
Qed.

Lemma insert_desc_In (x y : Z * nat * list N) (l : list (Z * nat * list N)) :
  In y (insert_desc x l) <-> y = x \/ In y l.
Proof.
  induction l as [|z l IH]; simpl; [intuition congruence|].
  destruct (tuple_ltb x z); simpl; [rewrite IH|]; intuition congruence.
Qed.

Lemma sort_reverse_In (y : Z * nat * list N) (l : list (Z * nat * list N)) :
  In y (sort_reverse l) <-> In y l.
Proof.
  induction l as [|x l IH]; simpl; [tauto|].
  rewrite insert_desc_In, IH. intuition congruence.
Qed.

Lemma tuple_ltb_true (x y : Z * nat * list N) :
  tuple_ltb x y = true -> key_le x y.
Proof.
  destruct x as [[s1 i1] p1], y as [[s2 i2] p2]. unfold tuple_ltb, key_le.
  simpl. destruct (Z.ltb_spec s1 s2); [auto|].
  destruct (Z.eqb_spec s1 s2); simpl; [|discriminate].
  destruct (Nat.ltb_spec i1 i2); simpl; [intros _; right; lia|].
  destruct (Nat.eqb_spec i1 i2); simpl; [|discriminate].
  intros _. right. lia.
Qed.

Lemma tuple_ltb_false (x y : Z * nat * list N) :
  tuple_ltb x y = false -> key_le y x.
Proof.
  destruct x as [[s1 i1] p1], y as [[s2 i2] p2]. unfold tuple_ltb, key_le.
  simpl. destruct (Z.ltb_spec s1 s2); [discriminate|].
  destruct (Z.eqb_spec s1 s2); simpl; [|intros _; left; lia].
  destruct (Nat.ltb_spec i1 i2); simpl; [discriminate|].
  intros _. right. lia.
Qed.

Lemma key_le_trans (x y z : Z * nat * list N) :
  key_le x y -> key_le y z -> key_le x z.
Proof. unfold key_le. lia. Qed.

Lemma sort_reverse_head (l : list (Z * nat * list N)) :
  forall h t, sort_reverse l = h :: t -> forall y, In y l -> key_le y h.
Proof.
  induction l as [|x l IH]; intros h t Hs y Hy; [destruct Hy|].
  simpl in Hs. destruct (sort_reverse l) as [|h' t'] eqn:E.
  - destruct l as [|x' l'].
    + simpl in Hs. injection Hs as <- <-. destruct Hy as [<-|[]].
      right. lia.
    + assert (In x' (sort_reverse (x' :: l')))
        by (apply sort_reverse_In; now left).
      rewrite E in H. destruct H.
  - simpl in Hs. destruct (tuple_ltb x h') eqn:Hlt.
    + injection Hs as <- <-. destruct Hy as [<-|Hy].
      * now apply tuple_ltb_true.
      * now apply (IH _ _ eq_refl).
    + injection Hs as <- <-. destruct Hy as [<-|Hy].
      * right. lia.
      * apply key_le_trans with h'; [now apply (IH _ _ eq_refl)|].
        now apply tuple_ltb_false.
Qed.

(** What the sort of the source selects: a token of maximal score and,
    among the tokens of that score, the one of greatest index. *)
Theorem best_index_is_last_maximum (parts : list (list N)) :
  parts <> [] ->
  exists p,
    nth_error parts (best_index artist_candidates parts) = Some p
    /\ forall j q, nth_error parts j = Some q ->
         (artist_score artist_candidates j q <= artist_score artist_candidates (best_index artist_candidates parts) p)%Z
         /\ (artist_score artist_candidates j q = artist_score artist_candidates (best_index artist_candidates parts) p ->
             (j <= best_index artist_candidates parts)%nat).
Proof.
  intros Hne. unfold best_index.
  destruct (sort_reverse (artist_scores_from artist_candidates 0 parts))
    as [|[[s i] p] t] eqn:E.
  - destruct parts as [|a parts]; [congruence|].
    assert (H : In (artist_score artist_candidates 0 a, O, a)
                   (sort_reverse
                      (artist_scores_from artist_candidates 0 (a :: parts))))
      by (apply sort_reverse_In; now apply (scores_from_complete _ 0 0)).
    rewrite E in H. destruct H.
  - assert (Hin : In (s, i, p)
                     (artist_scores_from artist_candidates 0 parts))
      by (apply sort_reverse_In; rewrite E; now left).
    destruct (scores_from_In _ _ _ _ _ Hin) as (_ & Hn & Hs).
    rewrite Nat.sub_0_r in Hn. exists p. split; [exact Hn|].
    intros j q Hq.
    pose proof (sort_reverse_head _ _ _ E _
                  (scores_from_complete _ 0 j q Hq)) as Hle.
    unfold key_le in Hle. simpl in Hle. subst s. lia.
Qed.

Lemma best_index_token (parts : list (list N)) :
  parts <> [] ->
  nth_error parts (best_index artist_candidates parts)
  = Some (nth (best_index artist_candidates parts) parts []).
Proof.
  intros Hne. destruct (best_index_is_last_maximum parts Hne) as (p & Hp & _).
  rewrite Hp. f_equal. symmetry. now apply nth_error_nth.
Qed.

Lemma title_parts_from_past (parts : list (list N)) :
  forall i k, (k < i)%nat -> title_parts_from i k parts = parts.
Proof.
  induction parts as [|part parts IH]; intros i k Hk; [reflexivity|].
  simpl. destruct (Nat.eqb_spec i k); [lia|]. simpl.
  rewrite IH by lia. reflexivity.
Qed.

(** The loop that fills [title_parts] drops the token at the chosen
    index and nothing else. *)
Lemma title_parts_from_delete (parts : list (list N)) :
  forall i k, title_parts_from i (i + k) parts = delete k parts.
Proof.
  induction parts as [|part parts IH]; intros i k; [now destruct k|].
  simpl. destruct k as [|k].
  - rewrite Nat.add_0_r, Nat.eqb_refl. simpl.
    apply title_parts_from_past. lia.
  - destruct (Nat.eqb_spec i (i + S k)); [lia|]. simpl.
    replace (i + S k)%nat with (S i + k)%nat by lia.
    rewrite IH. reflexivity.
Qed.

Lemma title_of_incl (artist : list N) (title_parts : list (list N))
      (c : N) :
  In c (title_of artist title_parts) ->
  c = 32 \/ exists token, In token title_parts /\ In c token.
Proof.
  unfold title_of.
  set (title := strip (Re.sub separators (u " ") _)).
  assert (Ht : In c title ->
               c = 32 \/ exists token, In token title_parts /\ In c token).
  { unfold title. intros H.
    apply strip_incl, sub_incl in H. destruct H as [[<-|[]]|H]; [now left|].
    apply strip_incl, sub_incl in H. destruct H as [[]|H].
    apply join_incl in H. destruct H as [[<-|[]]|H]; [now left|now right]. }
  destruct title as [|a title]; [|exact Ht].
  destruct title_parts as [|first rest]; [exact Ht|].
  intros H. right. exists first. split; [now left|exact H].
Qed.

(** C10: an artist that the parser returns is one of the tokens, character
    for character; on three tokens and more it is the token at one index
    [k], the title is built from the tokens at the other indices, in
    their order, and every character of the title is a character of one of
    those tokens or the joining space. *)
Theorem parse_artist_is_token (filename artist title : list N) :
  parse filename = (Some artist, title) ->
  In artist (_split_filename filename)
  /\ ((3 <= length (_split_filename filename))%nat ->
      exists k,
        nth_error (_split_filename filename) k = Some artist
        /\ title = title_of artist (delete k (_split_filename filename))
        /\ forall c, In c title ->
             c = 32 \/ exists token,
                         In token (delete k (_split_filename filename))
                         /\ In c token).
Proof.
  intros Hp.
  destruct (_split_filename filename) as [|a [|b [|c l]]] eqn:E.
  - unfold _parse_filename_intelligently in Hp. rewrite E in Hp.
    discriminate.
  - unfold _parse_filename_intelligently in Hp. rewrite E in Hp.
    discriminate.
  - split; [|simpl; lia].
    rewrite (parse_two _ _ _ _ E) in Hp.
    repeat match type of Hp with
           | (if ?b then _ else _) = _ => destruct b
           end; injection Hp as <- <-; simpl; auto.
  - rewrite parse_many in Hp by (rewrite E; simpl; lia).
    rewrite E in Hp. cbv zeta in Hp.
    set (parts := a :: b :: c :: l) in *.
    assert (Hne : parts <> []) by discriminate.
    pose proof (best_index_token parts Hne) as Hk.
    pose proof (title_parts_from_delete parts 0 (best_index artist_candidates parts)) as Hd.
    rewrite Nat.add_0_l in Hd. rewrite Hd in Hp. clear Hd.
    remember (nth (best_index artist_candidates parts) parts []) as chosen eqn:Hc in *.
    clear Hc. injection Hp as -> Ht.
    split; [eapply nth_error_In; exact Hk|].
    intros _. exists (best_index artist_candidates parts).
    split; [exact Hk|]. split; [now symmetry|].
    intros ch Hc. rewrite <- Ht in Hc. now apply title_of_incl in Hc.
Qed.

End ManyTokens.

(** C10 at the stem [周杰伦 - 晴天 - Live]. *)
Lemma parse_artist_is_token_witness :
  In (u "周杰伦") (@_split_filename latin_cjk (u "周杰伦 - 晴天 - Live")).
Proof.
  apply (@parse_artist_is_token latin_cjk ∅ (u "周杰伦 - 晴天 - Live")
           (u "周杰伦") (u "晴天 Live")).
  reflexivity.
Defined.

(** C2 at the stem [01 - 周杰伦 - 晴天], with the index built from that one
    file: the tokens 周杰伦 (index 1) and 晴天 (index 2) tie at the top score
    3, and the parser keeps 晴天, the token of the higher index. *)
Theorem track_number_stem_parse :
  @_split_filename latin_cjk (u "01 - 周杰伦 - 晴天")
  = [u "01"; u "周杰伦"; u "晴天"]
  /\ @artist_scores_from latin_cjk
       (@_collect_artist_candidates latin_cjk [u "01 - 周杰伦 - 晴天"])
       0 [u "01"; u "周杰伦"; u "晴天"]
     = [(1%Z, 0%nat, u "01"); (3%Z, 1%nat, u "周杰伦");
        (3%Z, 2%nat, u "晴天")]
  /\ @_parse_filename_intelligently latin_cjk
       (@_collect_artist_candidates latin_cjk [u "01 - 周杰伦 - 晴天"])
       (u "01 - 周杰伦 - 晴天")
     = (Some (u "晴天"), u "01 周杰伦").
Proof. vm_compute. repeat split. Qed.

(** ** The Title Cleaner *)

Section TrimFacts.

Lemma drop_while_length (p : N -> bool) (s : list N) :
  (length (drop_while p s) <= length s)%nat.
Proof.
  induction s as [|c s IH]; simpl; [lia|]. destruct (p c); simpl; lia.
Qed.

Lemma drop_while_idem (p : N -> bool) (s : list N) :
  drop_while p (drop_while p s) = drop_while p s.
Proof.
  induction s as [|c s IH]; simpl; [reflexivity|].
  destruct (p c) eqn:E; [exact IH|]. simpl. now rewrite E.
Qed.

Lemma drop_while_suffix (p : N -> bool) (s : list N) :
  exists w, s = w ++ drop_while p s.
Proof.
  induction s as [|c s [w IH]]; simpl; [now exists []|].
  destruct (p c).
  - exists (c :: w). simpl. now f_equal.
  - now exists [].
Qed.

Lemma drop_while_weaken (p q : N -> bool) (s : list N) :
  (forall c, q c = true -> p c = true) ->
  drop_while p s = s -> drop_while q s = s.
Proof.
  intros Hqp H. destruct s as [|c s]; [reflexivity|]. simpl in *.
  destruct (q c) eqn:Eq; [|reflexivity].
  rewrite (Hqp _ Eq) in H.
  pose proof (drop_while_length p s) as Hl. rewrite H in Hl. simpl in Hl. lia.
Qed.

Lemma drop_while_app_keep (p : N -> bool) (a b : list N) :
  drop_while p (a ++ b) = a ++ b -> drop_while p a = a.
Proof.
  destruct a as [|c a]; [reflexivity|]. simpl.
  destruct (p c); [|reflexivity]. intros H.
  pose proof (drop_while_length p (a ++ b)) as Hl. rewrite H in Hl.
  simpl in Hl. lia.
Qed.

Lemma drop_while_all (p : N -> bool) (s : list N) :
  forallb p s = true -> drop_while p s = [].
Proof.
  induction s as [|c s IH]; simpl; [reflexivity|].
  destruct (p c); simpl; [exact IH|discriminate].
Qed.

Lemma drop_while_app_one (p : N -> bool) (s : list N) (c : N) :
  drop_while p (s ++ [c]) =
    if forallb p s then (if p c then [] else [c])
    else drop_while p s ++ [c].
Proof.
  induction s as [|a s IH]; simpl; [reflexivity|].
  destruct (p a); simpl; [exact IH|reflexivity].
Qed.

End TrimFacts.

Section PatternFacts.
Context {tables : CharTables}.

Lemma lstrip_drop_while (s : list N) : lstrip s = drop_while isspace s.
Proof. induction s as [|c s IH]; simpl; [|rewrite IH]; reflexivity. Qed.

Lemma skipn_run (a : Re.atom) (s : list N) :
  skipn (Re.run a s) s = drop_while (Re.atom_matches a) s.
Proof.
  induction s as [|c s IH]; simpl; [reflexivity|].
  destruct (Re.atom_matches a c); simpl; [exact IH|reflexivity].
Qed.

Lemma run_length (a : Re.atom) (s : list N) :
  (Re.run a s <= length s)%nat.
Proof.
  induction s as [|c s IH]; simpl; [lia|].
  destruct (Re.atom_matches a c); simpl; lia.
Qed.

Lemma run_all (a : Re.atom) (s : list N) :
  Re.run a s = length s <-> forallb (Re.atom_matches a) s = true.
Proof.
  induction s as [|c s IH]; simpl; [tauto|].
  destruct (Re.atom_matches a c); simpl.
  - rewrite <- IH. split; [now intros [= ->]|now intros ->].
  - split; discriminate.
Qed.

(** At the end of a run that stops short of the end of the text stands a
    character outside the class. *)
Lemma run_stop (a : Re.atom) (s : list N) (c : N) :
  nth_error s (Re.run a s) = Some c -> Re.atom_matches a c = false.
Proof.
  induction s as [|d s IH]; simpl; [discriminate|].
  destruct (Re.atom_matches a d) eqn:E; simpl; [exact IH|].
  now intros [= <-].
Qed.

Lemma backtrack_first (f : nat -> option nat) (lo extra n : nat) :
  f (lo + extra)%nat = Some n -> Re.backtrack f lo extra = Some n.
Proof.
  destruct extra as [|e]; simpl.
  - now rewrite Nat.add_0_r.
  - now intros ->.
Qed.

Lemma backtrack_none (f : nat -> option nat) (lo extra : nat) :
  (forall j, (lo <= j <= lo + extra)%nat -> f j = None) ->
  Re.backtrack f lo extra = None.
Proof.
  induction extra as [|e IH]; simpl; intros H.
  - apply H. lia.
  - rewrite (H (lo + S e)%nat) by lia. apply IH. intros j Hj. apply H. lia.
Qed.

(** Where no position of the rest admits a match, the scan returns the
    text in one piece. *)
Lemma pieces_no_match (r : Re.regex) (Q : option N -> list N -> Prop) :
  (forall prev rest ma, Q prev rest -> Re.match_here r ma prev rest 0 = None) ->
  (forall prev c rest, Q prev (c :: rest) -> Q (Some c) rest) ->
  forall rest prev ma cur,
    Q prev rest -> Re.pieces r prev rest 0 ma cur = [rev cur ++ rest].
Proof.
  intros Hnone Hstep. induction rest as [|c rest IH]; intros prev ma cur HQ.
  - simpl. rewrite (Hnone _ _ _ HQ). now rewrite app_nil_r.
  - simpl. rewrite (Hnone _ _ _ HQ).
    rewrite (IH (Some c) false (c :: cur) (Hstep _ _ _ HQ)).
    simpl. now rewrite <- app_assoc.
Qed.

(** Passing the characters of a match. *)
Lemma pieces_skip (r : Re.regex) (rest : list N) :
  forall k ma cur c,
    (k <= length rest)%nat ->
    Re.pieces r (Some c) rest k ma cur =
      Re.pieces r (Re.prev_after k (Some c) rest) (skipn k rest) 0
                (match k with O => ma | S _ => false end) cur.
Proof.
  induction rest as [|d rest IH]; intros k ma cur c Hk.
  - simpl in Hk. assert (k = O) as -> by lia. reflexivity.
  - destruct k as [|k]; [reflexivity|].
    simpl in Hk. simpl Re.pieces at 1.
    rewrite (IH k false cur d) by lia.
    simpl skipn. f_equal.
    + destruct k as [|k]; [reflexivity|]. simpl.
      destruct (nth_error rest k) eqn:E; [reflexivity|].
      apply nth_error_None in E. lia.
    + now destruct k.
Qed.

Lemma strip_length (s : list N) : (length (strip s) <= length s)%nat.
Proof.
  unfold strip, rstrip. rewrite length_rev, !lstrip_drop_while.
  pose proof (drop_while_length isspace (rev (drop_while isspace s))) as H1.
  pose proof (drop_while_length isspace s) as H2.
  rewrite length_rev in H1. lia.
Qed.

Lemma join_nil_concat (l : list (list N)) : join [] l = concat l.
Proof.
  induction l as [|p l IH]; [reflexivity|].
  destruct l as [|q l]; [simpl; now rewrite app_nil_r|].
  change (join [] (p :: q :: l)) with (p ++ [] ++ join [] (q :: l)).
  now rewrite IH.
Qed.

Lemma pieces_length (r : Re.regex) (rest : list N) :
  forall prev skip ma cur,
    (length (concat (Re.pieces r prev rest skip ma cur))
     <= length cur + length rest)%nat.
Proof.
  induction rest as [|a rest IH]; intros prev skip ma cur.
  - simpl. destruct skip.
    + destruct (Re.match_here r ma prev [] 0); simpl;
        rewrite ?app_nil_r, length_rev; lia.
    + simpl. rewrite app_nil_r, length_rev. lia.
  - simpl. destruct skip as [|k].
    + destruct (Re.match_here r ma prev (a :: rest) 0) as [[|len]|].
      * simpl. rewrite length_app, length_rev.
        destruct (Re.match_here r true prev (a :: rest) 0) as [[|len]|].
        -- specialize (IH (Some a) 0%nat false [a]). simpl in IH. lia.
        -- simpl. specialize (IH (Some a) len false []). simpl in IH. lia.
        -- specialize (IH (Some a) 0%nat false [a]). simpl in IH. lia.
      * simpl. rewrite length_app, length_rev.
        specialize (IH (Some a) len false []). simpl in IH. lia.
      * specialize (IH (Some a) 0%nat false (a :: cur)). simpl in IH. lia.
    + specialize (IH (Some a) k false cur). lia.
Qed.

(** Removing the matches of a pattern does not lengthen a text. *)
Lemma sub_nil_length (r : Re.regex) (s : list N) :
  (length (Re.sub r [] s) <= length s)%nat.
Proof.
  unfold Re.sub, Re.split. rewrite join_nil_concat.
  apply (pieces_length r s None 0 false []).
Qed.

End PatternFacts.

Section SeparatorFacts.
Context {tables : CharTables}.

Lemma space_is_separator (c : N) :
  isspace c = true -> is_separator c = true.
Proof.
  intros H. unfold is_separator, separator_class, Re.atom_matches.
  rewrite H. apply orb_true_r.
Qed.

Lemma forallb_rev (p : N -> bool) (s : list N) :
  forallb p (rev s) = forallb p s.
Proof.
  induction s as [|c s IH]; simpl; [reflexivity|].
  rewrite forallb_app, IH. simpl. rewrite andb_true_r. apply andb_comm.
Qed.

Lemma rtrim_cons (c : N) (s : list N) :
  rtrim (c :: s) = if forallb is_separator (c :: s) then [] else c :: rtrim s.
Proof.
  unfold rtrim. simpl rev. rewrite drop_while_app_one, forallb_rev. simpl.
  destruct (forallb is_separator s) eqn:Es.
  - rewrite andb_true_r. rewrite drop_while_all by now rewrite forallb_rev.
    now destruct (is_separator c).
  - rewrite andb_false_r, rev_app_distr. reflexivity.
Qed.

(** [^sep+] matches at the start of the text only, and takes the whole
    leading run. *)
Lemma match_leading_start (ma : bool) (rest : list N) :
  Re.match_here [Re.Bol; Re.Plus separator_class] ma None rest 0 =
    match Re.run separator_class rest with
    | O => None
    | S k => Some (S k)
    end.
Proof.
  simpl. destruct (Re.run separator_class rest) as [|k]; [reflexivity|].
  apply backtrack_first. simpl. now rewrite andb_false_r.
Qed.

Lemma match_leading_later (ma : bool) (c : N) (rest : list N) :
  Re.match_here [Re.Bol; Re.Plus separator_class] ma (Some c) rest 0 = None.
Proof. reflexivity. Qed.

Lemma sub_leading (s : list N) :
  Re.sub [Re.Bol; Re.Plus separator_class] [] s = drop_while is_separator s.
Proof.
  unfold Re.sub, Re.split.
  assert (Hlater : forall rest c ma cur,
             Re.pieces [Re.Bol; Re.Plus separator_class] (Some c) rest 0 ma cur
             = [rev cur ++ rest]).
  { intros rest c ma cur.
    apply (pieces_no_match _ (fun prev _ => prev <> None)).
    - intros [d|] rest' ma' H; [reflexivity|congruence].
    - discriminate.
    - discriminate. }
  destruct s as [|c s]; [reflexivity|].
  unfold Re.pieces; fold (Re.pieces (tables:=tables)).
  rewrite match_leading_start.
  unfold is_separator. rewrite <- skipn_run.
  destruct (Re.run separator_class (c :: s)) as [|k] eqn:Er.
  - rewrite Hlater. reflexivity.
  - pose proof (run_length separator_class (c :: s)) as Hl.
    rewrite Er in Hl. simpl in Hl.
    rewrite pieces_skip by lia.
    destruct k as [|k]; simpl.
    + destruct s; [reflexivity|]. rewrite Hlater. reflexivity.
    + destruct (nth_error s k) eqn:E;
        [|apply nth_error_None in E; lia].
      destruct (skipn (S k) s) eqn:Es; [reflexivity|].
      rewrite Hlater. reflexivity.
Qed.

End SeparatorFacts.

Section TrailingFacts.
Context {tables : CharTables}.

(** In CPython the newline is a white-space character; with it among the
    separators, [$] before a final newline adds no match to [sep+$]. *)
Hypothesis newline_is_space : isspace 10 = true.

Lemma match_trailing (ma : bool) (prev : option N) (rest : list N) :
  Re.match_here [Re.Plus separator_class; Re.Eol] ma prev rest 0 =
    match rest with
    | [] => None
    | _ :: _ =>
      if forallb is_separator rest then Some (length rest) else None
    end.
Proof.
  simpl. destruct (Re.run separator_class rest) as [|k] eqn:Er.
  - destruct rest as [|c rest]; [reflexivity|].
    cbn [Re.run] in Er. cbn [forallb]. unfold is_separator.
    destruct (Re.atom_matches separator_class c); [discriminate|reflexivity].
  - destruct rest as [|c rest]; [discriminate|].
    destruct (forallb is_separator (c :: rest)) eqn:Ea.
    + apply run_all in Ea. rewrite Er in Ea.
      apply backtrack_first. rewrite <- Ea.
      replace (1 + k)%nat with (S k) by lia.
      rewrite Ea, skipn_all. simpl. now rewrite andb_false_r.
    + assert (Hlt : (S k < length (c :: rest))%nat).
      { pose proof (run_length separator_class (c :: rest)) as Hl.
        rewrite Er in Hl.
        destruct (Nat.eq_dec (S k) (length (c :: rest))) as [He|]; [|lia].
        rewrite <- Er in He. apply run_all in He.
        unfold is_separator in Ea. congruence. }
      apply backtrack_none. intros j Hj.
      destruct (skipn j (c :: rest)) as [|d [|e l]] eqn:Es.
      * apply (f_equal (@length N)) in Es. rewrite length_skipn in Es.
        simpl in Es, Hlt. lia.
      * simpl. destruct (N.eqb_spec d 10) as [->|]; [|reflexivity].
        exfalso.
        assert (Hj' : j = S k).
        { apply (f_equal (@length N)) in Es. rewrite length_skipn in Es.
          simpl in Es, Hlt. lia. }
        subst j.
        assert (Hn : nth_error (c :: rest) (S k) = Some 10).
        { rewrite <- (firstn_skipn (S k) (c :: rest)) at 1.
          rewrite nth_error_app2 by (rewrite length_firstn; lia).
          rewrite length_firstn, Es.
          replace (S k - Init.Nat.min (S k) (length (c :: rest)))%nat
            with O by lia.
          reflexivity. }
        rewrite <- Er in Hn. apply run_stop in Hn.
        pose proof (space_is_separator 10 newline_is_space) as Hs.
        unfold is_separator in Hs. congruence.
      * reflexivity.
Qed.

(** [re.sub(r'[~\-_\s\.—–]+$', '', s)] removes the trailing run of
    separators. *)
Lemma sub_trailing (s : list N) :
  Re.sub [Re.Plus separator_class; Re.Eol] [] s = rtrim s.
Proof.
  unfold Re.sub, Re.split.
  assert (H : forall rest prev cur,
             join [] (Re.pieces [Re.Plus separator_class; Re.Eol]
                                prev rest 0 false cur)
             = rev cur ++ rtrim rest).
  { induction rest as [|c rest IH]; intros prev cur.
    - simpl. now rewrite app_nil_r.
    - unfold Re.pieces; fold (Re.pieces (tables:=tables)).
      rewrite match_trailing, rtrim_cons.
      destruct (forallb is_separator (c :: rest)).
      + simpl length. cbv beta iota.
        rewrite (pieces_skip _ rest (length rest) false [] c) by lia.
        rewrite skipn_all. simpl. now rewrite !app_nil_r.
      + rewrite IH. simpl. now rewrite <- app_assoc. }
  apply (H s None []).
Qed.

End TrailingFacts.

Section ArtistPatternFacts.
Context {tables : CharTables}.

Lemma escape_no_match (a : list N) :
  forall r ma prev rest n,
    starts_with a rest = false ->
    Re.match_here (Re.escape a ++ r) ma prev rest n = None.
Proof.
  induction a as [|x a IH]; intros r ma prev rest n H; [discriminate|].
  destruct rest as [|c rest]; [reflexivity|].
  simpl in *. destruct (N.eqb_spec c x) as [->|Hne].
  - rewrite N.eqb_refl in H. now apply IH.
  - reflexivity.
Qed.

Lemma contains_starts (a s : list N) :
  contains a s = false -> starts_with a s = false.
Proof.
  destruct s; simpl; intros H; apply orb_false_iff in H; tauto.
Qed.

Lemma contains_tail (a : list N) (c : N) (s : list N) :
  contains a (c :: s) = false -> contains a s = false.
Proof. simpl. intros H. apply orb_false_iff in H. tauto. Qed.

Lemma contains_skipn (a s : list N) (j : nat) :
  contains a s = false -> contains a (skipn j s) = false.
Proof.
  revert s. induction j as [|j IH]; intros s H; [exact H|].
  destruct s as [|c s]; [exact H|].
  simpl skipn. apply IH. now apply contains_tail in H.
Qed.

Lemma word_no_match (a : list N) (ma : bool) (prev : option N)
      (rest : list N) :
  contains a rest = false ->
  Re.match_here (word_pattern a) ma prev rest 0 = None.
Proof.
  intros H. unfold word_pattern. simpl.
  destruct (xorb _ _); [|reflexivity].
  apply escape_no_match. now apply contains_starts.
Qed.

Lemma padded_no_match (a : list N) (ma : bool) (prev : option N)
      (rest : list N) :
  contains a rest = false ->
  Re.match_here (padded_pattern a) ma prev rest 0 = None.
Proof.
  intros H. unfold padded_pattern. simpl.
  apply backtrack_none. intros j _.
  apply escape_no_match. now apply contains_starts, contains_skipn.
Qed.

(** A text that does not contain the artist is left as it is by both
    removals. *)
Lemma sub_word_absent (a s : list N) :
  contains a s = false -> Re.sub (word_pattern a) [] s = s.
Proof.
  intros H. unfold Re.sub, Re.split.
  rewrite (pieces_no_match _ (fun _ rest => contains a rest = false)).
  - reflexivity.
  - intros. now apply word_no_match.
  - intros ? ? ?. apply contains_tail.
  - exact H.
Qed.

Lemma sub_padded_absent (a s : list N) :
  contains a s = false -> Re.sub (padded_pattern a) [] s = s.
Proof.
  intros H. unfold Re.sub, Re.split.
  rewrite (pieces_no_match _ (fun _ rest => contains a rest = false)).
  - reflexivity.
  - intros. now apply padded_no_match.
  - intros ? ? ?. apply contains_tail.
  - exact H.
Qed.

End ArtistPatternFacts.

Section TrimAlgebra.



Lemma drop_while_app_stop (p : N -> bool) (x : list N) (c : N)
      (y : list N) :
  p c = false -> drop_while p (x ++ c :: y) = drop_while p x ++ c :: y.
Proof.
  intros H. induction x as [|d x IH]; simpl; [now rewrite H|].
  destruct (p d); [exact IH|reflexivity].
Qed.






End TrimAlgebra.

Section SeparatorTrim.
Context {tables : CharTables}.

Lemma strip_drops (s : list N) :
  strip s = rdrop isspace (drop_while isspace s).
Proof. unfold strip, rstrip, rdrop. now rewrite !lstrip_drop_while. Qed.






Hypothesis newline_is_space : isspace 10 = true.


End SeparatorTrim.


Section ContainsFacts.



Lemma starts_with_split (a s : list N) :
  starts_with a s = true -> s = a ++ skipn (length a) s.
Proof.
  revert s. induction a as [|c a IH]; intros s H; [reflexivity|].
  destruct s as [|d s]; [discriminate|]. simpl in *.
  apply andb_true_iff in H. destruct H as [Hc H].
  apply N.eqb_eq in Hc. subst d. f_equal. now apply IH.
Qed.

Lemma starts_with_length (a s : list N) :
  starts_with a s = true -> (length a <= length s)%nat.
Proof.
  intros H. apply starts_with_split in H.
  apply (f_equal (@length N)) in H. rewrite length_app in H. lia.
Qed.

Lemma contains_length (a s : list N) :
  contains a s = true -> (length a <= length s)%nat.
Proof.
  induction s as [|c s IH]; simpl.
  - rewrite orb_false_r. intros H. now apply starts_with_length in H.
  - intros H. apply orb_true_iff in H. destruct H as [H|H].
    + now apply starts_with_length in H.
    + apply IH in H. lia.
Qed.

Lemma contains_short (a s : list N) :
  (length s < length a)%nat -> contains a s = false.
Proof.
  intros H. destruct (contains a s) eqn:E; [|reflexivity].
  apply contains_length in E. lia.
Qed.






End ContainsFacts.

Section SublistFacts.
Context {tables : CharTables}.









End SublistFacts.


Section MatchFacts.
Context {tables : CharTables}.
















End MatchFacts.


Section OneOccurrence.
Context {tables : CharTables}.










End OneOccurrence.


Section CleanedText.
Context {tables : CharTables}.



(** A text that neither begins nor ends with white space keeps its two
    ends when it stands at an end of a longer text. *)
Lemma drop_while_app_first (p : N -> bool) (a tail : list N) :
  a <> [] -> drop_while p a = a -> drop_while p (a ++ tail) = a ++ tail.
Proof.
  intros Hne H. destruct a as [|x a]; [congruence|]. simpl in *.
  destruct (p x); [|reflexivity].
  pose proof (drop_while_length p a) as Hl. rewrite H in Hl.
  simpl in Hl. lia.
Qed.

Lemma rdrop_app_last (p : N -> bool) (h a : list N) :
  a <> [] -> drop_while p (rev a) = rev a -> rdrop p (h ++ a) = h ++ a.
Proof.
  intros Hne H. unfold rdrop. rewrite rev_app_distr.
  rewrite drop_while_app_first;
    [now rewrite <- rev_app_distr, rev_involutive| |exact H].
  intros E. apply (f_equal (@rev N)) in E. rewrite rev_involutive in E.
  now subst a.
Qed.

Lemma rdrop_app_first (p : N -> bool) (a tail : list N) :
  a <> [] -> drop_while p (rev a) = rev a ->
  rdrop p (a ++ tail) = a ++ rdrop p tail.
Proof.
  intros Hne H. unfold rdrop. rewrite rev_app_distr.
  destruct (rev a) as [|l w] eqn:E.
  - apply (f_equal (@rev N)) in E. rewrite rev_involutive in E.
    now subst a.
  - assert (Hl : p l = false).
    { simpl in H. destruct (p l); [|reflexivity].
      pose proof (drop_while_length p w) as Hw. rewrite H in Hw.
      simpl in Hw. lia. }
    rewrite drop_while_app_stop by exact Hl.
    rewrite rev_app_distr. f_equal.
    rewrite <- E. apply rev_involutive.
Qed.

Lemma strip_app_first (a tail : list N) :
  a <> [] -> trimmed isspace a ->
  strip (a ++ tail) = a ++ rdrop isspace tail.
Proof.
  intros Hne [Hl Hr]. rewrite strip_drops.
  rewrite drop_while_app_first by assumption.
  now apply rdrop_app_first.
Qed.

Lemma strip_app_last (h a : list N) :
  a <> [] -> trimmed isspace a ->
  strip (h ++ a) = drop_while isspace h ++ a.
Proof.
  intros Hne [Hl Hr]. rewrite strip_drops.
  destruct a as [|x a'] eqn:Ea; [congruence|].
  assert (Hx : isspace x = false).
  { simpl in Hl. destruct (isspace x); [|reflexivity].
    pose proof (drop_while_length isspace a') as Hw. rewrite Hl in Hw.
    simpl in Hw. lia. }
  rewrite drop_while_app_stop by exact Hx.
  now apply rdrop_app_last.
Qed.

Hypothesis newline_is_space : isspace 10 = true.




End CleanedText.
Section BoundaryFacts.
Context {tables : CharTables}.










Hypothesis newline_is_space : isspace 10 = true.



End BoundaryFacts.

Section CleanerFacts.
Context {tables : CharTables}.

Lemma clean_title_steps (title artist : list N) :
  artist <> [] -> artist <> u "Various Artists" ->
  _clean_title title (Some artist) =
    if truthy (cleaned artist title) then cleaned artist title else title.
Proof.
  intros Hne Hva. unfold _clean_title, pystr_eqb.
  destruct artist as [|c artist]; [congruence|].
  rewrite bool_decide_eq_false_2 by exact Hva. reflexivity.
Qed.

Lemma clean_title_unchanged (title artist : list N) :
  artist = [] \/ artist = u "Various Artists" ->
  _clean_title title (Some artist) = title.
Proof.
  intros [->| ->]; [reflexivity|].
  unfold _clean_title, pystr_eqb.
  rewrite bool_decide_eq_true_2 by reflexivity.
  now rewrite orb_true_r.
Qed.

Lemma strip_trimmed (s : list N) : trimmed is_separator s -> strip s = s.
Proof.
  intros [Hl Hr]. unfold strip, rstrip. rewrite !lstrip_drop_while.
  rewrite (drop_while_weaken is_separator isspace s space_is_separator Hl).
  rewrite (drop_while_weaken is_separator isspace _ space_is_separator Hr).
  apply rev_involutive.
Qed.

Hypothesis newline_is_space : isspace 10 = true.

(** After the two strips no separator is left at either end. *)
Lemma strip_separators_trimmed (s : list N) :
  trimmed is_separator
          (strip_leading_separators (strip_trailing_separators s)).
Proof.
  unfold strip_leading_separators, strip_trailing_separators.
  rewrite sub_leading, (sub_trailing newline_is_space).
  set (y := rtrim s).
  assert (Hy : drop_while is_separator (rev y) = rev y).
  { unfold y, rtrim. rewrite rev_involutive. apply drop_while_idem. }
  assert (Hz : strip y = lstrip y
               /\ drop_while is_separator (rev (lstrip y)) = rev (lstrip y)).
  { assert (H : drop_while is_separator (rev (lstrip y)) = rev (lstrip y)).
    { rewrite lstrip_drop_while.
      destruct (drop_while_suffix isspace y) as [w Hw].
      rewrite Hw in Hy at 1 2. rewrite rev_app_distr in Hy.
      now apply drop_while_app_keep in Hy. }
    split; [|exact H].
    unfold strip, rstrip. rewrite (lstrip_drop_while (rev _)).
    rewrite (drop_while_weaken is_separator isspace _ space_is_separator H).
    apply rev_involutive. }
  destruct Hz as [-> Hz].
  set (z := lstrip y) in *.
  assert (Hx : trimmed is_separator (drop_while is_separator z)).
  { split; [apply drop_while_idem|].
    destruct (drop_while_suffix is_separator z) as [w Hw].
    rewrite Hw in Hz at 1 2. rewrite rev_app_distr in Hz.
    now apply drop_while_app_keep in Hz. }
  now rewrite (strip_trimmed _ Hx).
Qed.

Lemma cleaned_fixed (artist s : list N) :
  trimmed is_separator s -> contains artist s = false ->
  cleaned artist s = s.
Proof.
  intros Ht Hc.
  unfold cleaned, remove_whole_word, remove_padded,
    strip_trailing_separators, strip_leading_separators.
  rewrite (sub_word_absent _ _ Hc), (strip_trimmed _ Ht).
  rewrite (sub_padded_absent _ _ Hc), (strip_trimmed _ Ht).
  rewrite (sub_trailing newline_is_space). unfold rtrim.
  rewrite (proj2 Ht), rev_involutive, (strip_trimmed _ Ht).
  rewrite sub_leading, (proj1 Ht). apply (strip_trimmed _ Ht).
Qed.

(** C4, amended: cleaning a second time changes nothing when there is no
    artist, when the artist is the empty string or [Various Artists]
    (whatever the title holds), and, for any other artist, whenever the
    cleaned title does not contain the artist any more. *)
Theorem clean_title_idempotent_without_artist
        (title : list N) (artist : option (list N)) :
  (artist = None \/ artist = Some []
   \/ artist = Some (u "Various Artists") ->
   _clean_title (_clean_title title artist) artist
   = _clean_title title artist)
  /\ (forall a, artist = Some a ->
        contains a (_clean_title title artist) = false ->
        _clean_title (_clean_title title artist) artist
        = _clean_title title artist).
Proof.
  split.
  - intros [->|[->| ->]]; [reflexivity..|].
    now rewrite !clean_title_unchanged by now right.
  - intros a -> H.
    destruct (decide (a = [])) as [->|Hne]; [reflexivity|].
    destruct (decide (a = u "Various Artists")) as [->|Hva].
    + now rewrite !clean_title_unchanged by now right.
    + rewrite (clean_title_steps title a Hne Hva) in *.
      destruct (truthy (cleaned a title)) eqn:E.
      * rewrite (clean_title_steps _ a Hne Hva).
        rewrite cleaned_fixed; [now rewrite E| |exact H].
        apply strip_separators_trimmed.
      * rewrite (clean_title_steps _ a Hne Hva). now rewrite E.
Qed.



End CleanerFacts.


(** C4, as the specification states it, fails: the artist [ab] is taken
    out of [aabbc] once, which leaves [abc], and out of [abc] again, which
    leaves [c]. *)
Lemma clean_title_idempotent_counterexample :
  @_clean_title latin_cjk (u "aabbc") (Some (u "ab")) = u "abc"
  /\ @_clean_title latin_cjk
       (@_clean_title latin_cjk (u "aabbc") (Some (u "ab"))) (Some (u "ab"))
     <> @_clean_title latin_cjk (u "aabbc") (Some (u "ab")).
Proof. vm_compute. split; [reflexivity|discriminate]. Qed.

(** C4, amended, at the title [周杰伦 - 晴天] with the artist 周杰伦, at the
    title [Various Artists - 晴天] with the artist [Various Artists], and
    at the title [aabbc] with the empty artist. *)
Lemma clean_title_idempotent_without_artist_witness :
  @_clean_title latin_cjk
    (@_clean_title latin_cjk (u "周杰伦 - 晴天") (Some (u "周杰伦")))
    (Some (u "周杰伦"))
  = @_clean_title latin_cjk (u "周杰伦 - 晴天") (Some (u "周杰伦"))
  /\ @_clean_title latin_cjk
       (@_clean_title latin_cjk (u "Various Artists - 晴天")
                      (Some (u "Various Artists")))
       (Some (u "Various Artists"))
     = @_clean_title latin_cjk (u "Various Artists - 晴天")
                     (Some (u "Various Artists"))
  /\ @_clean_title latin_cjk
       (@_clean_title latin_cjk (u "aabbc") (Some [])) (Some [])
     = @_clean_title latin_cjk (u "aabbc") (Some []).
Proof.
  split; [|split].
  - apply (proj2 (@clean_title_idempotent_without_artist latin_cjk eq_refl
                    (u "周杰伦 - 晴天") (Some (u "周杰伦")))
                 (u "周杰伦") eq_refl).
    vm_compute. reflexivity.
  - apply (proj1 (@clean_title_idempotent_without_artist latin_cjk eq_refl
                    (u "Various Artists - 晴天")
                    (Some (u "Various Artists")))).
    right. right. reflexivity.
  - apply (proj1 (@clean_title_idempotent_without_artist latin_cjk eq_refl
                    (u "aabbc") (Some []))).
    right. left. reflexivity.
Defined.

(** ** The Metadata Resolver *)

Section ResolverFacts.
Context {tables : CharTables}.
Variable artist_candidates : gmap (list N) Z.

(** [before_first sep s] is the segment of [s] before its first [sep]. *)
Lemma before_first_split (sep : N) (s : list N) :
  existsb (N.eqb sep) s = true ->
  exists rest, s = before_first sep s ++ sep :: rest
               /\ ~ In sep (before_first sep s).
Proof.
  induction s as [|c s IH]; simpl; [discriminate|].
  rewrite (N.eqb_sym sep c).
  destruct (N.eqb_spec c sep) as [->|Hne]; simpl.
  - intros _. exists s. split; [reflexivity|tauto].
  - intros H. destruct (IH H) as (rest & Hs & Hn).
    exists rest. split; [now f_equal|].
    intros [?|?]; [congruence|tauto].
Qed.

Lemma read_mp3_tags_artist (tags : gmap string (list N))
      (info : gmap string pyval) (a : list N) :
  (tags !! "TPE1"%string = Some a ->
   read_mp3_tags tags info !! "artist"%string = Some (PyStr (lead_artist a)))
  /\ (tags !! "TPE1"%string = None -> tags !! "TPE2"%string = Some a ->
      read_mp3_tags tags info !! "artist"%string = Some (PyStr (strip a))).
Proof.
  unfold read_mp3_tags, lead_artist. split.
  - intros ->. destruct (tags !! "TALB"%string);
      rewrite ?(lookup_insert_ne _ "album"%string) by discriminate;
      rewrite (lookup_insert_ne _ "artist_source"%string) by discriminate;
      now rewrite lookup_insert_eq.
  - intros -> ->. destruct (tags !! "TALB"%string);
      rewrite ?(lookup_insert_ne _ "album"%string) by discriminate;
      rewrite (lookup_insert_ne _ "artist_source"%string) by discriminate;
      now rewrite lookup_insert_eq.
Qed.

Lemma insert_keeps_key (k k' : string) (v : pyval) (d : gmap string pyval) :
  is_Some (d !! k) -> is_Some (<[k' := v]> d !! k).
Proof.
  intros H. destruct (decide (k' = k)) as [->|Hne].
  - rewrite lookup_insert_eq. eauto.
  - now rewrite lookup_insert_ne.
Qed.

Lemma read_mp3_tags_keeps_key (tags : gmap string (list N))
      (info : gmap string pyval) (k : string) :
  is_Some (info !! k) -> is_Some (read_mp3_tags tags info !! k).
Proof.
  intros H. unfold read_mp3_tags.
  repeat match goal with
         | |- context [match ?o with _ => _ end] => destruct o
         end;
    repeat apply insert_keeps_key; exact H.
Qed.

Lemma read_audio_has_title (file_path : MusicFile) (audio : option Audio) :
  is_Some (read_audio file_path audio !! "title"%string).
Proof.
  unfold read_audio.
  set (base := <["title"%string := PyNone]> _).
  assert (Hb : is_Some (base !! "title"%string))
    by (unfold base; rewrite lookup_insert_eq; eauto).
  clearbody base.
  repeat match goal with
         | |- context [match ?o with _ => _ end] => destruct o
         | |- context [if ?b then _ else _] => destruct b
         end;
    repeat first [apply read_mp3_tags_keeps_key | apply insert_keeps_key];
    exact Hb.
Qed.

Lemma getitem_some (d : gmap string pyval) (k : string) (v : pyval) :
  d !! k = Some v -> getitem d k = Ok v.
Proof. unfold getitem. now intros ->. Qed.

Ltac name_if base name :=
  match goal with
  | |- context [if ?c then ?x else base] =>
    set (name := if c then x else base)
  end.

(** An artist read from the tags that is neither empty nor the sentinel
    goes through the rest of the resolution untouched. *)
Lemma merge_keeps_artist (file_path : MusicFile) (info : gmap string pyval)
      (t : list N) :
  info !! "artist"%string = Some (PyStr t) ->
  truthy t = true -> t <> u "未知艺术家" ->
  is_Some (info !! "title"%string) ->
  exists info',
    merge_filename artist_candidates file_path info = Ok info'
    /\ info' !! "artist"%string = Some (PyStr t).
Proof.
  intros Ha Ht Hs [title Htitle]. unfold merge_filename.
  assert (Hcond : negb (py_truthy (PyStr t))
                  || bool_decide (PyStr t = PyStr (u "未知艺术家")) = false).
  { simpl. rewrite Ht. simpl. apply bool_decide_eq_false_2. congruence. }
  destruct (_parse_filename_intelligently _ _)
    as [filename_artist filename_title].
  rewrite (getitem_some _ _ _ Htitle). cbn [mbind result_bind bind].
  name_if info info1.
  assert (H1 : info1 !! "artist"%string = Some (PyStr t)
               /\ is_Some (info1 !! "title"%string)).
  { unfold info1. destruct (_ && _); [|eauto]. split.
    - now rewrite !lookup_insert_ne by discriminate.
    - rewrite lookup_insert_ne by discriminate.
      rewrite lookup_insert_eq. eauto. }
  clearbody info1. destruct H1 as [Ha1 [title1 Ht1]].
  rewrite (getitem_some _ _ _ Ha1). cbn [mbind result_bind bind].
  rewrite Hcond. clear Hcond.
  assert (Hstep : match filename_artist with
                  | Some (_ :: _) => Ok info1
                  | _ => Ok info1
                  end = Ok info1)
    by (destruct filename_artist as [[|? ?]|]; reflexivity).
  rewrite Hstep. cbn [mbind result_bind bind].
  rewrite (getitem_some _ _ _ Ht1). cbn [mbind result_bind bind].
  name_if info1 info2.
  assert (H2 : info2 !! "artist"%string = Some (PyStr t)
               /\ is_Some (info2 !! "title"%string)).
  { unfold info2. destruct (negb (py_truthy title1)); [|eauto]. split.
    - now rewrite lookup_insert_ne by discriminate.
    - rewrite lookup_insert_eq. eauto. }
  clearbody info2. destruct H2 as [Ha2 [title2 Ht2]].
  rewrite (getitem_some _ _ _ Ha2). cbn [mbind result_bind bind].
  rewrite (getitem_some _ _ _ Ht2). cbn [mbind result_bind bind].
  name_if info2 info3.
  assert (Ha3 : info3 !! "artist"%string = Some (PyStr t)).
  { unfold info3. destruct (_ && _); [|exact Ha2].
    now rewrite lookup_insert_ne by discriminate. }
  clearbody info3.
  rewrite (getitem_some _ _ _ Ha3). cbn [mbind result_bind bind].
  simpl py_truthy. rewrite Ht. simpl. eauto.
Qed.

Lemma read_audio_artist (file_path : MusicFile) (audio : Audio)
      (frames : gmap string (list N)) :
  suffix_lower file_path = u ".mp3" -> tags audio = Some frames ->
  exists info,
    read_audio file_path (Some audio) !! "artist"%string
    = read_mp3_tags frames info !! "artist"%string.
Proof.
  intros Hs Hf. unfold read_audio, pystr_eqb. rewrite Hf, Hs.
  rewrite bool_decide_eq_true_2 by reflexivity.
  eexists. destruct (info_length audio); [|reflexivity].
  now rewrite lookup_insert_ne by discriminate.
Qed.

(** C8, amended: in an MP3 file a lead-artist frame (TPE1) is stored cut
    at its first [/], or else at its first [;], and stripped; a
    band/ensemble frame (TPE2), read when there is no lead-artist frame,
    is stored whole, stripped only.  The value so stored is the resolved
    artist whenever it is neither empty nor the unknown-artist sentinel. *)
Theorem tag_artist_resolution (file_path : MusicFile) (audio : Audio)
        (frames : gmap string (list N)) (a : list N) :
  tag_read file_path = FileReturns (Some audio) ->
  suffix_lower file_path = u ".mp3" ->
  tags audio = Some frames ->
  (frames !! "TPE1"%string = Some a ->
   truthy (lead_artist a) = true -> lead_artist a <> u "未知艺术家" ->
   extract_metadata artist_candidates file_path !! "artist"%string
   = Some (PyStr (lead_artist a)))
  /\ (frames !! "TPE1"%string = None -> frames !! "TPE2"%string = Some a ->
      truthy (strip a) = true -> strip a <> u "未知艺术家" ->
      extract_metadata artist_candidates file_path !! "artist"%string
      = Some (PyStr (strip a))).
Proof.
  intros Hr Hs Hf.
  destruct (read_audio_artist file_path audio frames Hs Hf) as [info Hi].
  unfold extract_metadata, extract_metadata_try. rewrite Hr.
  cbn [mbind result_bind bind].
  split.
  - intros H1 Ht Hu.
    rewrite (proj1 (read_mp3_tags_artist frames info a) H1) in Hi.
    destruct (merge_keeps_artist file_path _ _ Hi Ht Hu
                (read_audio_has_title _ _)) as (info' & -> & Ha).
    exact Ha.
  - intros H1 H2 Ht Hu.
    rewrite (proj2 (read_mp3_tags_artist frames info a) H1 H2) in Hi.
    destruct (merge_keeps_artist file_path _ _ Hi Ht Hu
                (read_audio_has_title _ _)) as (info' & -> & Ha).
    exact Ha.
Qed.

End ResolverFacts.

(** C8, as the specification states it, fails twice.  For the
    band/ensemble frame the artist [周杰伦/方文山] is stored with its
    delimiter, not cut to its first segment 周杰伦.  For the lead-artist
    frame the value [周杰伦;方文山/林俊杰] is cut at its [/] only, since [;]
    is looked for in the [elif]: the stored artist 周杰伦;方文山 still holds
    a delimiter and is not the segment 周杰伦 before the first one. *)
Lemma tag_artist_counterexample :
  (@extract_metadata latin_cjk ∅ band_tag_file !! "artist"%string
   = Some (PyStr (u "周杰伦/方文山"))
   /\ @extract_metadata latin_cjk ∅ band_tag_file !! "artist"%string
      <> Some (PyStr (@strip latin_cjk
                        (before_first 47 (u "周杰伦/方文山")))))
  /\ (@extract_metadata latin_cjk ∅ two_delimiter_file !! "artist"%string
      = Some (PyStr (u "周杰伦;方文山"))
      /\ @strip latin_cjk (before_first 59 (u "周杰伦;方文山/林俊杰"))
         = u "周杰伦"
      /\ @extract_metadata latin_cjk ∅ two_delimiter_file !! "artist"%string
         <> Some (PyStr (@strip latin_cjk
                           (before_first 59 (u "周杰伦;方文山/林俊杰"))))).
Proof.
  vm_compute. repeat split; try reflexivity; discriminate.
Qed.

(** C8, amended, at the three files. *)
Lemma tag_artist_resolution_witness :
  @extract_metadata latin_cjk ∅ lead_tag_file !! "artist"%string
  = Some (PyStr (u "周杰伦"))
  /\ @extract_metadata latin_cjk ∅ band_tag_file !! "artist"%string
     = Some (PyStr (u "周杰伦/方文山"))
  /\ @extract_metadata latin_cjk ∅ two_delimiter_file !! "artist"%string
     = Some (PyStr (u "周杰伦;方文山")).
Proof.
  split; [|split].
  - apply (@tag_artist_resolution latin_cjk ∅ lead_tag_file
             {| tags := Some (<["TIT2"%string := u "晴天"]>
                               {["TPE1"%string := u "周杰伦/方文山"]});
                info_length := Some 269%Z |}
             (<["TIT2"%string := u "晴天"]>
                {["TPE1"%string := u "周杰伦/方文山"]})
             (u "周杰伦/方文山"));
      (reflexivity || discriminate).
  - apply (@tag_artist_resolution latin_cjk ∅ band_tag_file
             {| tags := Some (<["TIT2"%string := u "晴天"]>
                               {["TPE2"%string := u "周杰伦/方文山"]});
                info_length := Some 269%Z |}
             (<["TIT2"%string := u "晴天"]>
                {["TPE2"%string := u "周杰伦/方文山"]})
             (u "周杰伦/方文山"));
      (reflexivity || discriminate).
  - apply (@tag_artist_resolution latin_cjk ∅ two_delimiter_file
             {| tags := Some (<["TIT2"%string := u "晴天"]>
                               {["TPE1"%string :=
                                   u "周杰伦;方文山/林俊杰"]});
                info_length := Some 269%Z |}
             (<["TIT2"%string := u "晴天"]>
                {["TPE1"%string := u "周杰伦;方文山/林俊杰"]})
             (u "周杰伦;方文山/林俊杰"));
      (reflexivity || discriminate).
Defined.

(** ** Cover search *)

(** A link is not the empty string. *)
Lemma cover_link_cons (album_id : list N) :
  exists c link, cover_link album_id = c :: link.
Proof.
  unfold cover_link, cover_prefix.
  destruct (u "https://y.qq.com/music/photo_new/T002R300x300M000") eqn:E;
    [vm_compute in E; discriminate|].
  simpl. eauto.
Qed.

Lemma scan_songs_passed (title artist : list N) (pre rest : list Song) :
  (forall song, In song pre -> passed_over title artist song) ->
  scan_songs title artist (pre ++ rest) = scan_songs title artist rest.
Proof.
  induction pre as [|song pre IH]; intros H; [reflexivity|].
  simpl. destruct (H song (or_introl eq_refl)) as (sa & -> & Hp).
  cbn [mbind result_bind bind].
  assert (IH' : scan_songs title artist (pre ++ rest)
                = scan_songs title artist rest)
    by (apply IH; intros s Hs; apply H; now right).
  destruct Hp as [-> |[-> | ->]]; [exact IH'| |];
    destruct (substring_match _ _ _ _); exact IH'.
Qed.

Lemma cover_of_link (response : Response) (title artist : list N)
      (album_id : list N) :
  search_cover response title artist = Some (cover_link album_id) ->
  cover_url response title artist = cover_link album_id.
Proof.
  unfold cover_url. intros ->.
  destruct (cover_link_cons album_id) as (d & link & ->). reflexivity.
Qed.

Lemma matches_passed_over (title artist : list N) (songs : list Song) :
  no_song_matches title artist songs ->
  forall s, In s songs -> passed_over title artist s.
Proof.
  intros H s Hs. destruct (H s Hs) as (sa & Hn & Hm).
  exists sa. split; [exact Hn|now left].
Qed.

Lemma cover_all_passed (title artist : list N) (songs : list Song) :
  (forall s, In s songs -> passed_over title artist s) ->
  cover_url (Reply 200 (Some (SongList songs))) title artist
  = first_result_cover songs.
Proof.
  intros H. unfold cover_url, search_cover, search_cover_try.
  cbn [Z.eqb Pos.eqb mbind result_bind bind].
  rewrite <- (app_nil_r songs) at 1.
  rewrite (scan_songs_passed _ _ _ _ H). cbn [scan_songs mbind result_bind bind].
  unfold first_result_cover.
  destruct songs as [|song songs]; [reflexivity|].
  destruct (albummid song) as [[|c album_id]|];
    [reflexivity| |reflexivity].
  destruct (cover_link_cons (c :: album_id)) as (d & link & ->).
  reflexivity.
Qed.

(** Every list of songs is scanned to its end, or has a first song at
    which the scan stops: one without singers, or one that matches the
    query and has an album identifier. *)
Lemma scan_songs_cases (title artist : list N) (songs : list Song) :
  (forall s, In s songs -> passed_over title artist s)
  \/ exists pre song post,
       songs = pre ++ song :: post
       /\ (forall s, In s pre -> passed_over title artist s)
       /\ (singer song = Some []
           \/ exists song_artist c album_id,
                first_singer_name song = Ok song_artist
                /\ substring_match title artist
                                   (default [] (songname song)) song_artist
                   = true
                /\ albummid song = Some (c :: album_id)).
Proof.
  induction songs as [|song songs IH]; [left; intros s []|].
  destruct (singer song) as [[|sg sgs]|] eqn:Es.
  - right. exists [], song, songs.
    split; [reflexivity|]. split; [intros s []|now left].
  - destruct (substring_match title artist (default [] (songname song))
                              (default [] (singer_name sg))) eqn:Em.
    + destruct (albummid song) as [[|c album_id]|] eqn:Ea.
      * assert (Hp : passed_over title artist song).
        { exists (default [] (singer_name sg)). unfold first_singer_name.
          rewrite Es. split; [reflexivity|]. right. now right. }
        destruct IH as [IH|(pre & sg' & post & -> & Hpre & Hs)].
        -- left. intros s [<-|Hs]; [exact Hp|now apply IH].
        -- right. exists (song :: pre), sg', post.
           split; [reflexivity|]. split; [|exact Hs].
           intros s [<-|Hin]; [exact Hp|now apply Hpre].
      * right. exists [], song, songs.
        split; [reflexivity|]. split; [intros s []|]. right.
        exists (default [] (singer_name sg)), c, album_id.
        unfold first_singer_name. rewrite Es. auto.
      * assert (Hp : passed_over title artist song).
        { exists (default [] (singer_name sg)). unfold first_singer_name.
          rewrite Es. split; [reflexivity|]. right. now left. }
        destruct IH as [IH|(pre & sg' & post & -> & Hpre & Hs)].
        -- left. intros s [<-|Hs]; [exact Hp|now apply IH].
        -- right. exists (song :: pre), sg', post.
           split; [reflexivity|]. split; [|exact Hs].
           intros s [<-|Hin]; [exact Hp|now apply Hpre].
    + assert (Hp : passed_over title artist song).
      { exists (default [] (singer_name sg)). unfold first_singer_name.
        rewrite Es. split; [reflexivity|]. now left. }
      destruct IH as [IH|(pre & sg' & post & -> & Hpre & Hs)].
      * left. intros s [<-|Hs]; [exact Hp|now apply IH].
      * right. exists (song :: pre), sg', post.
        split; [reflexivity|]. split; [|exact Hs].
        intros s [<-|Hin]; [exact Hp|now apply Hpre].
  - destruct (substring_match title artist (default [] (songname song)) [])
      eqn:Em.
    + destruct (albummid song) as [[|c album_id]|] eqn:Ea.
      * assert (Hp : passed_over title artist song).
        { exists []. unfold first_singer_name.
          rewrite Es. split; [reflexivity|]. right. now right. }
        destruct IH as [IH|(pre & sg' & post & -> & Hpre & Hs)].
        -- left. intros s [<-|Hs]; [exact Hp|now apply IH].
        -- right. exists (song :: pre), sg', post.
           split; [reflexivity|]. split; [|exact Hs].
           intros s [<-|Hin]; [exact Hp|now apply Hpre].
      * right. exists [], song, songs.
        split; [reflexivity|]. split; [intros s []|]. right.
        exists [], c, album_id.
        unfold first_singer_name. rewrite Es. auto.
      * assert (Hp : passed_over title artist song).
        { exists []. unfold first_singer_name.
          rewrite Es. split; [reflexivity|]. right. now left. }
        destruct IH as [IH|(pre & sg' & post & -> & Hpre & Hs)].
        -- left. intros s [<-|Hs]; [exact Hp|now apply IH].
        -- right. exists (song :: pre), sg', post.
           split; [reflexivity|]. split; [|exact Hs].
           intros s [<-|Hin]; [exact Hp|now apply Hpre].
    + assert (Hp : passed_over title artist song).
      { exists []. unfold first_singer_name.
        rewrite Es. split; [reflexivity|]. now left. }
      destruct IH as [IH|(pre & sg' & post & -> & Hpre & Hs)].
      * left. intros s [<-|Hs]; [exact Hp|now apply IH].
      * right. exists (song :: pre), sg', post.
        split; [reflexivity|]. split; [|exact Hs].
        intros s [<-|Hin]; [exact Hp|now apply Hpre].
Qed.

(** C9, amended.  A reply that is no song list of status 200 gives the
    default cover path.  The songs of a list are scanned in order, and a
    song is passed over when its first singer can be read and it does not
    match the query or has no album identifier.  When every song is passed
    over, in particular when no listed song matches the query, the cover
    is the image link of the first listed song if that song has an album
    identifier, and the default cover path otherwise.  The first song that
    is not passed over decides: if it matches and has an album identifier,
    the cover is its image link; if its list of singers is empty, the
    cover is the default cover path.  Every list is of one of these
    shapes. *)
Theorem cover_search_cases (title artist : list N) :
  (forall response,
     (forall songs, response <> Reply 200 (Some (SongList songs))) ->
     cover_url response title artist = default_cover)
  /\ (forall songs,
        no_song_matches title artist songs ->
        cover_url (Reply 200 (Some (SongList songs))) title artist
        = first_result_cover songs)
  /\ (forall pre,
        (forall s, In s pre -> passed_over title artist s) ->
        cover_url (Reply 200 (Some (SongList pre))) title artist
        = first_result_cover pre
        /\ (forall song post song_artist c album_id,
              first_singer_name song = Ok song_artist ->
              substring_match title artist
                              (default [] (songname song)) song_artist
              = true ->
              albummid song = Some (c :: album_id) ->
              cover_url (Reply 200 (Some (SongList (pre ++ song :: post))))
                        title artist
              = cover_link (c :: album_id))
        /\ (forall song post,
              singer song = Some [] ->
              cover_url (Reply 200 (Some (SongList (pre ++ song :: post))))
                        title artist
              = default_cover))
  /\ (forall songs,
        (forall s, In s songs -> passed_over title artist s)
        \/ exists pre song post,
             songs = pre ++ song :: post
             /\ (forall s, In s pre -> passed_over title artist s)
             /\ (singer song = Some []
                 \/ exists song_artist c album_id,
                      first_singer_name song = Ok song_artist
                      /\ substring_match title artist
                                         (default [] (songname song))
                                         song_artist
                         = true
                      /\ albummid song = Some (c :: album_id))).
Proof.
  split; [|split; [|split]].
  - intros response Hr. unfold cover_url, search_cover, search_cover_try.
    destruct response as [|status_code json]; [reflexivity|].
    destruct (Z.eqb_spec status_code 200) as [->|Hne]; [|reflexivity].
    destruct json as [[| | |songs]|]; try reflexivity.
    now destruct (Hr songs).
  - intros songs H. apply cover_all_passed.
    now apply matches_passed_over.
  - intros pre Hpre. split; [now apply cover_all_passed|]. split.
    + intros song post song_artist c album_id Hs Hm Ha.
      apply cover_of_link. unfold search_cover, search_cover_try.
      cbn [Z.eqb Pos.eqb mbind result_bind bind].
      rewrite (scan_songs_passed _ _ _ _ Hpre). simpl scan_songs.
      rewrite Hs. cbn [mbind result_bind bind]. now rewrite Hm, Ha.
    + intros song post Hs. unfold cover_url, search_cover, search_cover_try.
      cbn [Z.eqb Pos.eqb mbind result_bind bind].
      rewrite (scan_songs_passed _ _ _ _ Hpre). simpl scan_songs.
      unfold first_singer_name. now rewrite Hs.
  - apply scan_songs_cases.
Qed.

(** C9, as the specification states it, fails: no listed song matches the
    query, and the cover is the image link of the first listed song, not
    the default cover path. *)
Lemma cover_without_match_counterexample :
  no_song_matches (u "晴天") (u "林俊杰") other_songs
  /\ cover_url other_song_reply (u "晴天") (u "林俊杰")
     = u "https://y.qq.com/music/photo_new/T002R300x300M000002Neh8l0uciQZ.jpg"
  /\ cover_url other_song_reply (u "晴天") (u "林俊杰") <> default_cover.
Proof.
  split; [|vm_compute; split; [reflexivity|discriminate]].
  intros song [<-|[]]. exists (u "周杰伦"). split; vm_compute; reflexivity.
Qed.

(** C9, amended, at the reply that lists 稻香 of 周杰伦 for the query
    [晴天 林俊杰], and at a reply that lists a song without singers before
    it for the query [稻香 周杰伦]. *)
Lemma cover_search_cases_witness :
  cover_url (Reply 200 (Some (SongList other_songs))) (u "晴天") (u "林俊杰")
  = first_result_cover other_songs
  /\ cover_url
       (Reply 200
              (Some (SongList
                       ([] ++ {| songname := Some (u "稻香");
                                 singer := Some [];
                                 albummid := Some (u "002Neh8l0uciQZ") |}
                           :: other_songs))))
       (u "稻香") (u "周杰伦")
     = default_cover.
Proof.
  split.
  - apply (proj1 (proj2 (cover_search_cases (u "晴天") (u "林俊杰")))).
    intros song [<-|[]]. exists (u "周杰伦").
    split; vm_compute; reflexivity.
  - apply (proj2 (proj2 (proj1 (proj2 (proj2
             (cover_search_cases (u "稻香") (u "周杰伦"))))
             [] (fun s (H : In s []) => match H with end)))).
    reflexivity.
Defined.

(** ** A file whose tags cannot be read *)

Section FailureFacts.
Context {tables : CharTables}.
Variable artist_candidates : gmap (list N) Z.

(** The dictionary of the [except] branch has the keys [title], [artist]
    and [artist_source] and no key [duration]. *)
Lemma error_fallback_metadata (file_path : MusicFile) :
  tag_read file_path = FileRaises ->
  extract_metadata artist_candidates file_path !! "artist_source"%string
  = Some (PyStr (u "error_fallback"))
  /\ is_Some (extract_metadata artist_candidates file_path
                !! "title"%string)
  /\ is_Some (extract_metadata artist_candidates file_path
                !! "artist"%string)
  /\ extract_metadata artist_candidates file_path !! "duration"%string
     = None.
Proof.
  intros H. unfold extract_metadata, extract_metadata_try. rewrite H.
  cbn [mbind result_bind bind].
  destruct (_parse_filename_intelligently _ _) as [fa ft].
  split; [|split; [|split]].
  - do 2 (rewrite lookup_insert_ne by discriminate).
    now rewrite lookup_insert_eq.
  - rewrite lookup_insert_eq. eauto.
  - rewrite lookup_insert_ne by discriminate. rewrite lookup_insert_eq.
    eauto.
  - do 3 (rewrite lookup_insert_ne by discriminate). apply lookup_empty.
Qed.

(** After a failed extraction the loop body copies the audio file, then
    raises [KeyError] on [metadata["duration"]]: the file gets no entry
    in the list. *)
Theorem failed_extraction_drops_entry (w : World) (file_path : MusicFile) :
  tag_read file_path = FileRaises ->
  snd (process_file_try artist_candidates file_path w)
  = Raise (KeyError "duration")
  /\ music_list (process_file artist_candidates w file_path) = music_list w
  /\ exists dest,
       audio_dir (process_file artist_candidates w file_path)
       = <[dest := content file_path]> (audio_dir w).
Proof.
  intros H.
  destruct (error_fallback_metadata file_path H)
    as (_ & [title Ht] & [artist Ha] & Hd).
  unfold process_file, process_file_try.
  set (metadata := extract_metadata artist_candidates file_path) in *.
  clearbody metadata.
  unfold mbind, M_bind, lift, audio_names, write_audio, mret, M_ret.
  rewrite (getitem_some _ _ _ Ht), (getitem_some _ _ _ Ha).
  assert (Hg : getitem metadata "duration" = Raise (KeyError "duration"))
    by (unfold getitem; now rewrite Hd).
  rewrite Hg.
  match goal with
  | |- context [free_filename ?taken ?base ?ext] =>
    generalize (free_filename taken base ext)
  end.
  intros dest.
  destruct (match lrc_sidecar file_path with
            | Some text => Some text
            | None => lyrics_found file_path
            end) as [[|c text]|];
    unfold write_lyrics; cbn [fst snd music_list audio_dir lyrics_dir];
    eauto.
Qed.

End FailureFacts.

(** C3 at the file [周杰伦 - 晴天.mp3], an empty output directory and the
    index built from that file: the resolver answers with the provenance
    [error_fallback] and the artist and title of the file name, the audio
    file is copied, and the playlist stays empty since the fall-back
    dictionary has no duration. *)
Theorem unreadable_file_run :
  let index := @_collect_artist_candidates latin_cjk [stem unreadable_file] in
  let metadata := @extract_metadata latin_cjk index unreadable_file in
  metadata !! "artist_source"%string = Some (PyStr (u "error_fallback"))
  /\ metadata !! "artist"%string = Some (PyStr (u "周杰伦"))
  /\ metadata !! "title"%string = Some (PyStr (u "晴天"))
  /\ metadata !! "duration"%string = None
  /\ snd (@process_file_try latin_cjk index unreadable_file empty_output)
     = Raise (KeyError "duration")
  /\ audio_dir (@process_file latin_cjk index empty_output unreadable_file)
       !! u "周杰伦 - 晴天.mp3" = Some (content unreadable_file)
  /\ @process_directory latin_cjk index ∅ ∅ [unreadable_file] = [].
Proof. vm_compute. repeat split. Qed.

(** ** The Tokenizer *)

Section TokenizerFacts.
Context {tables : CharTables}.

Lemma match_separators (ma : bool) (prev : option N) (rest : list N) :
  Re.match_here separators ma prev rest 0 =
    match Re.run separator_class rest with
    | O => None
    | S k => Some (S k)
    end.
Proof.
  unfold separators. simpl.
  destruct (Re.run separator_class rest) as [|k]; [reflexivity|].
  apply backtrack_first. simpl. now rewrite andb_false_r.
Qed.

(** [re.split] on the separators cuts the text at its runs of separators. *)
Lemma pieces_chunks (rest : list N) :
  (forall prev cur,
      Re.pieces separators prev rest 0 false cur
      = chunks is_separator rest cur false)
  /\ (forall prev,
         Re.pieces separators prev rest (Re.run separator_class rest) false []
         = chunks is_separator rest [] true).
Proof.
  induction rest as [|c rest [IHa IHb]].
  - split; reflexivity.
  - assert (Ha : forall prev cur,
               Re.pieces separators prev (c :: rest) 0 false cur
               = chunks is_separator (c :: rest) cur false).
    { intros prev cur.
      unfold Re.pieces; fold (Re.pieces (tables:=tables)).
      rewrite match_separators. cbn [Re.run chunks]. unfold is_separator.
      destruct (Re.atom_matches separator_class c).
      - now rewrite IHb.
      - apply IHa. }
    split; [exact Ha|].
    intros prev. cbn [Re.run chunks]. unfold is_separator.
    destruct (Re.atom_matches separator_class c) eqn:E.
    + unfold Re.pieces; fold (Re.pieces (tables:=tables)). apply IHb.
    + rewrite Ha. cbn [chunks]. unfold is_separator. now rewrite E.
Qed.

Lemma chunks_free (sep : N -> bool) (s : list N) :
  forall cur b p,
    free_of sep cur -> In p (chunks sep s cur b) -> free_of sep p.
Proof.
  induction s as [|c s IH]; intros cur b p Hc Hp.
  - destruct Hp as [<-|[]]. intros d Hd. apply Hc. now apply in_rev.
  - simpl in Hp. destruct (sep c) eqn:E.
    + destruct b.
      * apply (IH [] true p); [intros ? []|exact Hp].
      * destruct Hp as [<-|Hp].
        -- intros d Hd. apply Hc. now apply in_rev.
        -- apply (IH [] true p); [intros ? []|exact Hp].
    + apply (IH (c :: cur) false p); [|exact Hp].
      intros d [<-|Hd]; [exact E|now apply Hc].
Qed.

Lemma free_drop_while (sep : N -> bool) (s : list N) :
  free_of sep s -> drop_while sep s = s.
Proof.
  destruct s as [|c s]; [reflexivity|]. intros H. simpl.
  now rewrite (H c (or_introl eq_refl)).
Qed.

(** A text without separators has no white space to strip. *)
Lemma strip_free (s : list N) : free_of is_separator s -> strip s = s.
Proof.
  intros H. apply strip_trimmed. split; apply free_drop_while; [exact H|].
  intros c Hc. apply H. now apply in_rev.
Qed.

Lemma filter_map_strip (l : list (list N)) :
  (forall p, In p l -> free_of is_separator p) ->
  List.map strip (List.filter (fun p => truthy (strip p)) l)
  = List.filter truthy l.
Proof.
  induction l as [|p l IH]; intros H; [reflexivity|].
  simpl. rewrite (strip_free p) by (apply H; now left).
  destruct (truthy p); simpl.
  - rewrite (strip_free p) by (apply H; now left).
    f_equal. apply IH. intros q Hq. apply H. now right.
  - apply IH. intros q Hq. apply H. now right.
Qed.

(** The Tokenizer returns the pieces between the separator runs that are
    not empty. *)
Lemma split_filename_chunks (filename : list N) :
  _split_filename filename
  = List.filter truthy (chunks is_separator filename [] false).
Proof.
  unfold _split_filename, Re.split.
  rewrite (proj1 (pieces_chunks filename)).
  apply filter_map_strip. intros p Hp.
  apply (chunks_free _ _ _ _ _ (fun c (H : In c []) => match H with end) Hp).
Qed.

Lemma token_free (filename token : list N) :
  In token (_split_filename filename) ->
  token <> [] /\ free_of is_separator token.
Proof.
  rewrite split_filename_chunks. intros H.
  apply filter_In in H. destruct H as [Hp Ht].
  split; [now destruct token|].
  apply (chunks_free _ _ _ _ _ (fun c (H : In c []) => match H with end) Hp).
Qed.

(** No token is empty and no token holds a separator character: white
    space, hyphen, underscore, tilde, period, em dash or en dash; so a
    token has no white space to strip either. *)
Theorem tokens_are_clean (filename token : list N) :
  In token (_split_filename filename) ->
  token <> []
  /\ (forall c, In c token -> is_separator c = false)
  /\ strip token = token.
Proof.
  intros H. destruct (token_free filename token H) as [Hne Hf].
  split; [exact Hne|]. split; [exact Hf|now apply strip_free].
Qed.

Lemma chunks_concat (sep : N -> bool) (s : list N) :
  forall cur b,
    (b = true -> cur = []) ->
    concat (List.filter truthy (chunks sep s cur b))
    = rev cur ++ List.filter (fun c => negb (sep c)) s.
Proof.
  induction s as [|c s IH]; intros cur b Hb.
  - simpl. destruct (rev cur) eqn:E; simpl; now rewrite ?app_nil_r.
  - simpl. destruct (sep c) eqn:E; simpl.
    + destruct b.
      * rewrite (Hb eq_refl). now apply IH.
      * simpl. destruct (rev cur) eqn:Er; simpl.
        -- now apply IH.
        -- f_equal. f_equal. now rewrite IH.
    + rewrite IH by discriminate. simpl. now rewrite <- app_assoc.
Qed.

(** The tokens, put end to end, are the text without its separators: the
    Tokenizer keeps every other character, in order. *)
Theorem tokens_concat (filename : list N) :
  concat (_split_filename filename)
  = List.filter (fun c => negb (is_separator c)) filename.
Proof.
  rewrite split_filename_chunks.
  now rewrite chunks_concat by discriminate.
Qed.

Lemma concat_nil_tokens (l : list (list N)) :
  (forall t, In t l -> t <> []) -> concat l = [] -> l = [].
Proof.
  destruct l as [|t l]; [reflexivity|]. intros H Hc. simpl in Hc.
  apply app_eq_nil in Hc. destruct Hc as [Ht _].
  exfalso. now apply (H t (or_introl eq_refl)).
Qed.

(** There is no token exactly when the text is made of separators only. *)
Theorem no_token_iff_separators (filename : list N) :
  _split_filename filename = [] <-> forallb is_separator filename = true.
Proof.
  split.
  - intros H.
    assert (Hc : concat (_split_filename filename)
                 = List.filter (fun c => negb (is_separator c)) filename)
      by (rewrite split_filename_chunks; now rewrite chunks_concat).
    rewrite H in Hc.
    simpl in Hc. symmetry in Hc.
    apply forallb_forall. intros c Hin.
    destruct (is_separator c) eqn:E; [reflexivity|].
    assert (Hf : In c (List.filter (fun c => negb (is_separator c)) filename))
      by (apply filter_In; split; [exact Hin|now rewrite E]).
    rewrite Hc in Hf. destruct Hf.
  - intros H. apply concat_nil_tokens.
    + intros t Ht. now apply (token_free filename t).
    + rewrite split_filename_chunks, chunks_concat by discriminate.
      cbn [rev app].
      induction filename as [|c s IH]; [reflexivity|].
      simpl in *. apply andb_true_iff in H. destruct H as [-> Hs].
      simpl. now apply IH.
Qed.

Lemma chunks_app_free (sep : N -> bool) (t s cur : list N) :
  free_of sep t ->
  chunks sep (t ++ s) cur false = chunks sep s (rev t ++ cur) false.
Proof.
  revert cur. induction t as [|c t IH]; intros cur H; [reflexivity|].
  simpl. rewrite (H c (or_introl eq_refl)).
  rewrite IH by (intros d Hd; apply H; now right).
  now rewrite <- app_assoc.
Qed.

Lemma chunks_after_separator (sep : N -> bool) (c : N) (s : list N) :
  sep c = false ->
  chunks sep (c :: s) [] true = chunks sep (c :: s) [] false.
Proof. intros H. simpl. now rewrite H. Qed.

Lemma chunks_join (sep : N -> bool) (c : N) (tokens : list (list N)) :
  sep c = true ->
  (forall t, In t tokens -> t <> [] /\ free_of sep t) ->
  tokens <> [] ->
  chunks sep (join [c] tokens) [] false = tokens.
Proof.
  intros Hc. induction tokens as [|t ts IH]; intros H Hne; [congruence|].
  destruct (H t (or_introl eq_refl)) as [Ht Hf].
  destruct ts as [|t2 ts].
  - simpl. rewrite <- (app_nil_r t) at 1.
    rewrite chunks_app_free by exact Hf. simpl.
    now rewrite app_nil_r, rev_involutive.
  - change (join [c] (t :: t2 :: ts)) with (t ++ [c] ++ join [c] (t2 :: ts)).
    rewrite chunks_app_free by exact Hf.
    cbn [app chunks]. rewrite Hc, app_nil_r, rev_involutive. f_equal.
    assert (IH' : chunks sep (join [c] (t2 :: ts)) [] false = t2 :: ts)
      by (apply IH; [intros q Hq; apply H; now right|discriminate]).
    destruct (H t2 (or_intror (or_introl eq_refl))) as [Ht2 Hf2].
    destruct t2 as [|d t2]; [congruence|].
    assert (Hd : sep d = false) by (apply Hf2; now left).
    destruct ts as [|t3 ts].
    + simpl in *. rewrite Hd in *. exact IH'.
    + change (join [c] ((d :: t2) :: t3 :: ts))
        with (d :: (t2 ++ [c] ++ join [c] (t3 :: ts))) in *.
      rewrite chunks_after_separator by exact Hd. exact IH'.
Qed.

(** The tokens of a text, joined by one separator character, split into
    the same tokens again. *)
Theorem split_join_tokens (filename : list N) (c : N) :
  is_separator c = true ->
  _split_filename (join [c] (_split_filename filename))
  = _split_filename filename.
Proof.
  intros Hc. rewrite (split_filename_chunks (join _ _)).
  destruct (_split_filename filename) as [|t ts] eqn:E; [reflexivity|].
  rewrite chunks_join.
  - apply forallb_filter_id. apply forallb_forall. intros q Hq.
    rewrite <- E in Hq. apply token_free in Hq.
    now destruct q.
  - exact Hc.
  - intros q Hq. rewrite <- E in Hq. now apply token_free in Hq.
  - discriminate.
Qed.

End TokenizerFacts.

(** The tokens of [周杰伦 - 晴天] hold no separator and split again into
    themselves when joined by a space. *)
Lemma tokens_are_clean_witness :
  u "周杰伦" <> []
  /\ (forall c, In c (u "周杰伦") -> @is_separator latin_cjk c = false)
  /\ @strip latin_cjk (u "周杰伦") = u "周杰伦".
Proof.
  apply (@tokens_are_clean latin_cjk (u "周杰伦 - 晴天") (u "周杰伦")).
  vm_compute. auto.
Defined.

Lemma split_join_tokens_witness :
  @_split_filename latin_cjk
    (join [32] (@_split_filename latin_cjk (u "周杰伦 - 晴天")))
  = @_split_filename latin_cjk (u "周杰伦 - 晴天").
Proof.
  apply (@split_join_tokens latin_cjk (u "周杰伦 - 晴天") 32). reflexivity.
Defined.

(** ** The Candidate Frequency Index *)

Section IndexFacts.
Context {tables : CharTables}.

Lemma counter_get_insert (m : gmap (list N) Z) (k t : list N) (v : Z) :
  counter_get (<[k := v]> m) t = if decide (k = t) then v else counter_get m t.
Proof.
  unfold counter_get. rewrite lookup_insert. now destruct (decide (k = t)).
Qed.

Lemma occurrences_cons (t p : list N) (parts : list (list N)) :
  occurrences t (p :: parts)
  = ((if decide (p = t) then 1 else 0) + occurrences t parts)%Z.
Proof.
  unfold occurrences. simpl. destruct (decide (p = t)) as [->|Hne].
  - rewrite bool_decide_eq_true_2 by reflexivity. simpl length. lia.
  - rewrite bool_decide_eq_false_2 by exact Hne. lia.
Qed.

Lemma occurrences_app (t : list N) (l1 l2 : list (list N)) :
  occurrences t (l1 ++ l2) = (occurrences t l1 + occurrences t l2)%Z.
Proof.
  unfold occurrences. rewrite List.filter_app, length_app. lia.
Qed.

Lemma occurrences_nonneg (t : list N) (parts : list (list N)) :
  (0 <= occurrences t parts)%Z.
Proof. unfold occurrences. lia. Qed.

Lemma occurrences_pos (t : list N) (parts : list (list N)) :
  (0 < occurrences t parts)%Z <-> In t parts.
Proof.
  induction parts as [|p parts IH].
  - unfold occurrences. simpl. split; [lia|tauto].
  - rewrite occurrences_cons. pose proof (occurrences_nonneg t parts).
    destruct (decide (p = t)) as [->|Hne]; simpl.
    + split; [auto|lia].
    + rewrite Z.add_0_l, IH. split; [auto|]. intros [?|?]; congruence.
Qed.

Lemma count_parts_get (parts : list (list N)) :
  forall (acc : gmap (list N) Z) (t : list N),
    counter_get (count_parts acc parts) t
    = (counter_get acc t
       + if (1 <? length t)%nat then occurrences t parts else 0)%Z.
Proof.
  induction parts as [|p parts IH]; intros acc t.
  - unfold occurrences. simpl. destruct (1 <? length t)%nat; lia.
  - unfold count_parts in *. simpl fold_left. rewrite IH.
    rewrite occurrences_cons.
    destruct (1 <? length p)%nat eqn:Ep.
    + rewrite counter_get_insert.
      destruct (decide (p = t)) as [->|Hne].
      * rewrite Ep. lia.
      * destruct (1 <? length t)%nat; lia.
    + destruct (decide (p = t)) as [->|Hne].
      * rewrite Ep. lia.
      * destruct (1 <? length t)%nat; lia.
Qed.

Lemma collect_from_get (stems : list (list N)) :
  forall (acc : gmap (list N) Z) (t : list N),
    counter_get
      (fold_left (fun acc filename =>
                    count_parts acc (_split_filename filename)) stems acc) t
    = (counter_get acc t
       + if (1 <? length t)%nat
         then occurrences t (concat (List.map _split_filename stems))
         else 0)%Z.
Proof.
  induction stems as [|stem stems IH]; intros acc t.
  - unfold occurrences. simpl. destruct (1 <? length t)%nat; lia.
  - simpl fold_left. rewrite IH, count_parts_get. simpl concat.
    rewrite occurrences_app. destruct (1 <? length t)%nat; lia.
Qed.

Lemma collect_get (stems : list (list N)) (t : list N) :
  counter_get (_collect_artist_candidates stems) t
  = if (1 <? length t)%nat
    then occurrences t (concat (List.map _split_filename stems))
    else 0%Z.
Proof.
  unfold _collect_artist_candidates. rewrite collect_from_get.
  unfold counter_get at 1. rewrite lookup_empty. simpl.
  destruct (1 <? length t)%nat; lia.
Qed.

(** The frequency of a token of more than one character is the number of
    times it stands among the tokens of the scanned stems; a token of one
    character has frequency 0. *)
Theorem frequency_counts_tokens (stems : list (list N)) (t : list N) :
  counter_get (_collect_artist_candidates stems) t
  = if (1 <? length t)%nat
    then occurrences t (concat (List.map _split_filename stems))
    else 0%Z.
Proof. exact (collect_get stems t). Qed.

Lemma count_parts_positive (parts : list (list N)) :
  forall acc : gmap (list N) Z,
    (forall t n, acc !! t = Some n -> (1 <= n)%Z) ->
    forall t n, count_parts acc parts !! t = Some n -> (1 <= n)%Z.
Proof.
  induction parts as [|p parts IH]; intros acc Hacc t n H; [eauto|].
  unfold count_parts in *. simpl fold_left in H.
  apply (IH _) in H; [exact H|]. clear H t n.
  intros t n H. destruct (1 <? length p)%nat; [|eauto].
  rewrite lookup_insert in H. destruct (decide (p = t)) as [->|Hne]; [|eauto].
  injection H as <-. unfold counter_get.
  destruct (acc !! t) as [m|] eqn:E; simpl; [|lia].
  specialize (Hacc _ _ E). lia.
Qed.

Lemma collect_positive (stems : list (list N)) (t : list N) (n : Z) :
  _collect_artist_candidates stems !! t = Some n -> (1 <= n)%Z.
Proof.
  unfold _collect_artist_candidates.
  assert (H : forall acc : gmap (list N) Z,
             (forall t n, acc !! t = Some n -> (1 <= n)%Z) ->
             forall t n,
               fold_left (fun acc filename =>
                            count_parts acc (_split_filename filename))
                         stems acc !! t = Some n -> (1 <= n)%Z).
  { induction stems as [|stem stems IH]; intros acc Hacc; [exact Hacc|].
    simpl. apply IH. now apply count_parts_positive. }
  apply H. intros t' n' H'. rewrite lookup_empty in H'. discriminate.
Qed.

(** The index has an entry for [t] exactly when [t] has more than one
    character and is a token of a scanned stem. *)
Theorem index_entries (stems : list (list N)) (t : list N) :
  is_Some (_collect_artist_candidates stems !! t)
  <-> (1 < length t)%nat
      /\ exists stem, In stem stems /\ In t (_split_filename stem).
Proof.
  pose proof (collect_get stems t) as Hf.
  assert (Hin : In t (concat (List.map _split_filename stems))
                <-> exists stem, In stem stems /\ In t (_split_filename stem)).
  { rewrite in_concat. split.
    - intros (l & Hl & Ht). apply in_map_iff in Hl.
      destruct Hl as (stem & <- & Hs). eauto.
    - intros (stem & Hs & Ht). exists (_split_filename stem).
      split; [now apply in_map|exact Ht]. }
  rewrite <- Hin, <- occurrences_pos. split.
  - intros [n Hn]. pose proof (collect_positive _ _ _ Hn) as Hp.
    unfold counter_get in Hf. rewrite Hn in Hf. simpl in Hf.
    destruct (Nat.ltb_spec 1 (length t)); [split; [assumption|lia]|lia].
  - intros [Hl Ho]. apply Nat.ltb_lt in Hl. rewrite Hl in Hf.
    unfold counter_get in Hf.
    destruct (_collect_artist_candidates stems !! t); [eauto|].
    simpl in Hf. lia.
Qed.

(** With higher frequencies a text that is likely an artist stays so. *)
Lemma likely_artist_monotone (index1 index2 : gmap (list N) Z)
      (text : list N) :
  (counter_get index1 text <= counter_get index2 text)%Z ->
  _is_likely_artist index1 text = true ->
  _is_likely_artist index2 text = true.
Proof.
  unfold _is_likely_artist. intros Hle.
  destruct (bool_decide _); [reflexivity|].
  destruct (existsb _ artist_keywords); [reflexivity|].
  destruct (Z.ltb_spec 2 (counter_get index1 text)).
  - intros _. destruct (Z.ltb_spec 2 (counter_get index2 text));
      [reflexivity|lia].
  - destruct (2 <? counter_get index2 text)%Z; [reflexivity|].
    now destruct (_ && _).
Qed.

(** Scanning more files never makes a text less likely an artist. *)
Theorem likely_artist_with_more_files (stems more : list (list N))
        (text : list N) :
  _is_likely_artist (_collect_artist_candidates stems) text = true ->
  _is_likely_artist (_collect_artist_candidates (stems ++ more)) text = true.
Proof.
  apply likely_artist_monotone. rewrite !collect_get.
  destruct (1 <? length text)%nat; [|lia].
  rewrite List.map_app, concat_app, occurrences_app.
  pose proof (occurrences_nonneg
                text (concat (List.map _split_filename more))). lia.
Qed.

End IndexFacts.

(** The index of the stems [周杰伦 - 晴天] and [周杰伦 - 稻香] has an entry for
    周杰伦. *)
Lemma index_entries_witness :
  is_Some (@_collect_artist_candidates latin_cjk
             [u "周杰伦 - 晴天"; u "周杰伦 - 稻香"] !! u "周杰伦").
Proof.
  apply (@index_entries latin_cjk [u "周杰伦 - 晴天"; u "周杰伦 - 稻香"]
           (u "周杰伦")).
  split; [vm_compute; lia|].
  exists (u "周杰伦 - 晴天"). split; vm_compute; auto.
Defined.

(** The text [Jay] is seen three times in three files, so it is likely an
    artist, and stays so with a fourth file. *)
Lemma likely_artist_with_more_files_witness :
  @_is_likely_artist latin_cjk
    (@_collect_artist_candidates latin_cjk
       ([u "Jay-1"; u "Jay-2"; u "Jay-3"] ++ [u "Other-4"]))
    (u "Jay") = true.
Proof.
  apply (@likely_artist_with_more_files latin_cjk
           [u "Jay-1"; u "Jay-2"; u "Jay-3"] [u "Other-4"] (u "Jay")).
  vm_compute. reflexivity.
Defined.

(** ** What the parser returns *)

Section ParserShape.
Context {tables : CharTables}.
Variable artist_candidates : gmap (list N) Z.

Lemma title_parts_from_In (parts : list (list N)) :
  forall i k p, In p (title_parts_from i k parts) -> In p parts.
Proof.
  induction parts as [|q parts IH]; intros i k p H; [destruct H|].
  simpl in H. destruct (negb (i =? k)%nat).
  - destruct H as [<-|H]; [now left|right; eauto].
  - right. eauto.
Qed.

Lemma title_parts_from_length (parts : list (list N)) :
  forall i k, (length parts <= S (length (title_parts_from i k parts)))%nat.
Proof.
  induction parts as [|q parts IH]; intros i k; [simpl; lia|].
  simpl. destruct (Nat.eqb_spec i k) as [->|Hne]; simpl.
  - rewrite title_parts_from_past by lia. lia.
  - specialize (IH (S i) k). lia.
Qed.

Lemma title_of_nonempty (artist : list N) (title_parts : list (list N)) :
  title_parts <> [] -> (forall p, In p title_parts -> p <> []) ->
  title_of artist title_parts <> [].
Proof.
  intros Hne Hp. unfold title_of.
  destruct (strip (Re.sub separators (u " ") _)) as [|c t]; [|discriminate].
  destruct title_parts as [|first rest]; [congruence|].
  apply Hp. now left.
Qed.

(** A stem with a token gets a title that is not empty; a stem with two
    tokens or more also gets an artist, which is not empty. *)
Theorem parse_nonempty (filename : list N) :
  _split_filename filename <> [] ->
  snd (_parse_filename_intelligently artist_candidates filename) <> []
  /\ ((2 <= length (_split_filename filename))%nat ->
      exists artist,
        fst (_parse_filename_intelligently artist_candidates filename)
        = Some artist /\ artist <> []).
Proof.
  intros Hne.
  assert (Htok : forall t, In t (_split_filename filename) -> t <> [])
    by (intros t Ht; now apply (token_free filename t)).
  destruct (_split_filename filename) as [|a [|b [|c l]]] eqn:E.
  - congruence.
  - unfold _parse_filename_intelligently. rewrite E. simpl.
    split; [apply Htok; now left|lia].
  - rewrite (parse_two _ _ _ _ E).
    assert (Ha : a <> []) by (apply Htok; now left).
    assert (Hb : b <> []) by (apply Htok; right; now left).
    repeat match goal with
           | |- context [if ?c then _ else _] => destruct c
           end; simpl; eauto.
  - rewrite parse_many by (rewrite E; simpl; lia).
    rewrite E. cbv zeta. set (parts := a :: b :: c :: l) in *.
    assert (Hp : parts <> []) by discriminate.
    cbn [fst snd]. split.
    + apply title_of_nonempty.
      * pose proof (title_parts_from_length
                      parts 0 (best_index artist_candidates parts)) as Hl.
        intros Hn. rewrite Hn in Hl. simpl in Hl. lia.
      * intros p Hin. apply Htok. now apply title_parts_from_In in Hin.
    + intros _. eexists. split; [reflexivity|].
      apply Htok. eapply nth_error_In.
      exact (best_index_token artist_candidates parts Hp).
Qed.

(** On three tokens and more every character of the title is a character
    that is no separator, or the space that joins the tokens. *)
Theorem parse_many_title_characters (filename : list N) (c : N) :
  (3 <= length (_split_filename filename))%nat ->
  In c (snd (_parse_filename_intelligently artist_candidates filename)) ->
  c = 32 \/ is_separator c = false.
Proof.
  intros Hlen. rewrite parse_many by exact Hlen. cbv zeta. cbn [snd].
  intros H. apply title_of_incl in H.
  destruct H as [->|(token & Ht & Hc)]; [now left|right].
  apply title_parts_from_In in Ht.
  now apply (token_free filename token).
Qed.

(** On three tokens and more the artist is a token of maximal score
    [3*is_likely_artist + 2*[frequency > 1] + [index = 0]], and among the
    tokens of that score the one of greatest index. *)
Theorem parse_many_artist (filename : list N) :
  (3 <= length (_split_filename filename))%nat ->
  exists k artist,
    fst (_parse_filename_intelligently artist_candidates filename)
    = Some artist
    /\ nth_error (_split_filename filename) k = Some artist
    /\ forall j token,
         nth_error (_split_filename filename) j = Some token ->
         (artist_score artist_candidates j token
          <= artist_score artist_candidates k artist)%Z
         /\ (artist_score artist_candidates j token
             = artist_score artist_candidates k artist -> (j <= k)%nat).
Proof.
  intros Hlen. rewrite parse_many by exact Hlen. cbv zeta. cbn [fst].
  set (parts := _split_filename filename) in *.
  assert (Hne : parts <> []) by (destruct parts; [simpl in Hlen; lia|easy]).
  destruct (best_index_is_last_maximum artist_candidates parts Hne)
    as (p & Hp & Hmax).
  exists (best_index artist_candidates parts), p.
  split; [|split; [exact Hp|exact Hmax]].
  f_equal. now apply nth_error_nth.
Qed.

End ParserShape.

(** [parse_nonempty] at the stem [周杰伦 - 晴天 - Live]. *)
Lemma parse_nonempty_witness :
  snd (@_parse_filename_intelligently latin_cjk ∅ (u "周杰伦 - 晴天 - Live"))
  <> [].
Proof.
  apply (@parse_nonempty latin_cjk ∅ (u "周杰伦 - 晴天 - Live")).
  vm_compute. discriminate.
Defined.

(** [parse_many_title_characters] at the same stem and the letter [L]. *)
Lemma parse_many_title_characters_witness :
  76 = 32 \/ @is_separator latin_cjk 76 = false.
Proof.
  apply (@parse_many_title_characters latin_cjk ∅
           (u "周杰伦 - 晴天 - Live") 76).
  - vm_compute. lia.
  - vm_compute. auto 10.
Defined.

(** [parse_many_artist] at the stem [01 - 周杰伦 - 晴天]. *)
Lemma parse_many_artist_witness :
  exists k artist,
    fst (@_parse_filename_intelligently latin_cjk ∅ (u "01 - 周杰伦 - 晴天"))
    = Some artist
    /\ nth_error (@_split_filename latin_cjk (u "01 - 周杰伦 - 晴天")) k
       = Some artist.
Proof.
  destruct (@parse_many_artist latin_cjk ∅ (u "01 - 周杰伦 - 晴天"))
    as (k & artist & H1 & H2 & _); [vm_compute; lia|].
  exists k, artist. split; assumption.
Defined.

(** ** What the cleaner and the sanitizer return *)

Section LengthFacts.
Context {tables : CharTables}.

(** The white space at both ends is gone after [strip]. *)
Lemma strip_trimmed_space (s : list N) : trimmed isspace (strip s).
Proof.
  unfold strip, rstrip. rewrite !lstrip_drop_while.
  set (z := drop_while isspace s).
  assert (Hz : drop_while isspace z = z) by apply drop_while_idem.
  split.
  - destruct (drop_while_suffix isspace (rev z)) as [w Hw].
    assert (Hr : z = rev (drop_while isspace (rev z)) ++ rev w).
    { rewrite <- rev_app_distr, <- Hw. now rewrite rev_involutive. }
    rewrite Hr in Hz at 1 2. now apply drop_while_app_keep in Hz.
  - rewrite rev_involutive. apply drop_while_idem.
Qed.

Lemma strip_fixed (s : list N) : trimmed isspace s -> strip s = s.
Proof.
  intros [Hl Hr]. unfold strip, rstrip. rewrite !lstrip_drop_while.
  rewrite Hl, Hr. apply rev_involutive.
Qed.

Lemma strip_idempotent (s : list N) : strip (strip s) = strip s.
Proof. apply strip_fixed, strip_trimmed_space. Qed.

(** The Title Cleaner only removes: the cleaned title is no longer than
    the title and has no character that the title has not. *)
Theorem clean_title_only_removes (title : list N) (artist : option (list N)) :
  (length (_clean_title title artist) <= length title)%nat
  /\ forall c, In c (_clean_title title artist) -> In c title.
Proof.
  destruct artist as [a|]; [|simpl; split; [lia|auto]].
  unfold _clean_title.
  destruct (negb (truthy a) || pystr_eqb a (u "Various Artists"));
    [split; [lia|auto]|].
  cbn [fold_left].
  match goal with
  | |- context [if truthy ?x then _ else _] => set (cleaned_title := x)
  end.
  assert (H : (length cleaned_title <= length title)%nat
              /\ forall c, In c cleaned_title -> In c title).
  { unfold cleaned_title. split.
    - repeat (etransitivity; [apply strip_length|];
              etransitivity; [apply sub_nil_length|]). lia.
    - intros c Hc.
      repeat (apply strip_incl, sub_incl in Hc;
              destruct Hc as [[]|Hc]).
      exact Hc. }
  destruct (truthy cleaned_title); [exact H|split; [lia|auto]].
Qed.

End LengthFacts.

Section CleanedEnds.
Context {tables : CharTables}.
Hypothesis newline_is_space : isspace 10 = true.

(** With an artist to remove, the cleaner answers the title as it is or
    a text with no separator at either end. *)
Theorem clean_title_ends (title artist : list N) :
  _clean_title title (Some artist) = title
  \/ trimmed is_separator (_clean_title title (Some artist)).
Proof.
  destruct (decide (artist = [])) as [->|Hne]; [now left|].
  destruct (decide (artist = u "Various Artists")) as [->|Hva].
  - left. apply clean_title_unchanged. now right.
  - rewrite (clean_title_steps title artist Hne Hva).
    destruct (truthy (cleaned artist title)); [right|now left].
    apply (strip_separators_trimmed newline_is_space).
Qed.

End CleanedEnds.

(** [clean_title_ends] at the title [周杰伦 - 晴天] and the artist 周杰伦. *)
Lemma clean_title_ends_witness :
  @_clean_title latin_cjk (u "周杰伦 - 晴天") (Some (u "周杰伦"))
  = u "周杰伦 - 晴天"
  \/ trimmed (@is_separator latin_cjk)
             (@_clean_title latin_cjk (u "周杰伦 - 晴天") (Some (u "周杰伦"))).
Proof.
  exact (@clean_title_ends latin_cjk eq_refl (u "周杰伦 - 晴天") (u "周杰伦")).
Defined.

Section SanitizerFacts.
Context {tables : CharTables}.

Lemma illegal_matches (c : N) :
  Re.atom_matches
    (Re.Cls ([60; 62; 58; 34; 47; 92; 124; 63; 42]
               ++ List.map N.of_nat (seq 0 32))%N false) c
  = is_illegal c.
Proof. unfold Re.atom_matches, is_illegal. apply orb_false_r. Qed.

(** Removing the matches of a one-character class filters the text. *)
Lemma sub_class_filter (a : Re.atom) (s : list N) :
  Re.sub [Re.One a] [] s
  = List.filter (fun c => negb (Re.atom_matches a c)) s.
Proof.
  unfold Re.sub, Re.split. rewrite join_nil_concat.
  assert (H : forall rest prev cur,
             concat (Re.pieces [Re.One a] prev rest 0 false cur)
             = rev cur
                   ++ List.filter (fun c => negb (Re.atom_matches a c)) rest).
  { induction rest as [|c rest IH]; intros prev cur.
    - simpl. now rewrite app_nil_r.
    - simpl. destruct (Re.atom_matches a c); simpl.
      + now rewrite IH.
      + rewrite IH. simpl. now rewrite <- app_assoc. }
  apply (H s None []).
Qed.

Lemma firstn_incl (n : nat) (l : list N) (c : N) :
  In c (firstn n l) -> In c l.
Proof.
  intros H. rewrite <- (firstn_skipn n l). apply in_or_app. now left.
Qed.

Lemma sanitize_filename_filter (name : list N) :
  sanitize_filename name
  = strip (firstn 100 (List.filter (fun c => negb (is_illegal c)) name)).
Proof.
  unfold sanitize_filename, illegal_chars. rewrite sub_class_filter.
  f_equal. f_equal. apply List.filter_ext. intros c.
  now rewrite illegal_matches.
Qed.

Lemma sanitize_filename_shape (name : list N) :
  (forall c, In c (sanitize_filename name) ->
             is_illegal c = false /\ In c name)
  /\ (length (sanitize_filename name) <= 100)%nat
  /\ trimmed isspace (sanitize_filename name).
Proof.
  rewrite sanitize_filename_filter. split; [|split].
  - intros c Hc. apply strip_incl in Hc.
    apply firstn_incl in Hc.
    apply filter_In in Hc. destruct Hc as [Hin Hok].
    split; [now destruct (is_illegal c)|exact Hin].
  - etransitivity; [apply strip_length|]. rewrite length_firstn. lia.
  - apply strip_trimmed_space.
Qed.

(** A sanitized name has no illegal character, at most 100 characters,
    no white space at its ends, and every character of it is a character
    of the name. *)
Theorem sanitize_filename_safe (name : list N) :
  (forall c, In c (sanitize_filename name) ->
             is_illegal c = false /\ In c name)
  /\ (length (sanitize_filename name) <= 100)%nat
  /\ trimmed isspace (sanitize_filename name).
Proof. exact (sanitize_filename_shape name). Qed.

(** Sanitizing twice is sanitizing once. *)
Theorem sanitize_filename_idempotent (name : list N) :
  sanitize_filename (sanitize_filename name) = sanitize_filename name.
Proof.
  destruct (sanitize_filename_shape name) as (Hc & Hl & Ht).
  rewrite (sanitize_filename_filter (sanitize_filename name)).
  rewrite forallb_filter_id.
  - rewrite firstn_all2 by exact Hl. now apply strip_fixed.
  - apply forallb_forall. intros c Hin.
    now rewrite (proj1 (Hc c Hin)).
Qed.

End SanitizerFacts.

(** ** What the cover search returns *)

Lemma scan_songs_origin (title artist : list N) (songs : list Song)
      (link : list N) :
  scan_songs title artist songs = Ok (Some link) ->
  exists song album_id,
    In song songs /\ albummid song = Some album_id /\ album_id <> []
    /\ link = cover_link album_id.
Proof.
  induction songs as [|song songs IH]; [discriminate|].
  simpl. destruct (first_singer_name song) as [sa|e]; [|discriminate].
  cbn [mbind result_bind bind].
  assert (Hrest : scan_songs title artist songs = Ok (Some link) ->
                  exists song0 album_id,
                    In song0 (song :: songs) /\ albummid song0 = Some album_id
                    /\ album_id <> [] /\ link = cover_link album_id).
  { intros H. destruct (IH H) as (s & id & Hin & Ha & Hne & Hl).
    exists s, id. repeat split; auto. now right. }
  destruct (substring_match _ _ _ _); [|exact Hrest].
  destruct (albummid song) as [[|c id]|] eqn:E; try exact Hrest.
  intros [= <-]. exists song, (c :: id).
  repeat split; auto; try (now left); try discriminate.
Qed.

(** A link that [search_cover] returns is built from the album identifier
    of a song listed in a reply of status 200. *)
Theorem search_cover_origin (response : Response) (title artist link : list N) :
  search_cover response title artist = Some link ->
  exists songs song album_id,
    response = Reply 200 (Some (SongList songs))
    /\ In song songs /\ albummid song = Some album_id /\ album_id <> []
    /\ link = cover_link album_id.
Proof.
  unfold search_cover, search_cover_try.
  destruct response as [|status_code json]; [discriminate|].
  destruct (Z.eqb_spec status_code 200) as [->|Hne]; [|discriminate].
  destruct json as [[| | |songs]|]; try discriminate.
  cbn [mbind result_bind bind].
  destruct (scan_songs title artist songs) as [[found|]|e] eqn:E;
    cbn [mbind result_bind bind]; [| |discriminate].
  - intros [= <-]. destruct (scan_songs_origin _ _ _ _ E)
      as (song & id & Hin & Ha & Hne & Hl).
    exists songs, song, id. auto.
  - destruct songs as [|song songs]; [discriminate|].
    destruct (albummid song) as [[|c id]|] eqn:Ea; try discriminate.
    intros [= <-]. exists (song :: songs), song, (c :: id).
    repeat split; auto; try (now left); try discriminate.
Qed.

(** The first listed song that matches the query and has an album
    identifier gives the cover. *)
Theorem search_cover_first_hit (title artist : list N)
        (pre post : list Song) (song : Song) (song_artist : list N)
        (c : N) (album_id : list N) :
  (forall s, In s pre -> passed_over title artist s) ->
  first_singer_name song = Ok song_artist ->
  substring_match title artist (default [] (songname song)) song_artist
  = true ->
  albummid song = Some (c :: album_id) ->
  search_cover (Reply 200 (Some (SongList (pre ++ song :: post))))
               title artist
  = Some (cover_link (c :: album_id)).
Proof.
  intros Hpre Hs Hm Ha. unfold search_cover, search_cover_try.
  cbn [Z.eqb Pos.eqb mbind result_bind bind].
  rewrite (scan_songs_passed _ _ _ _ Hpre). simpl scan_songs.
  rewrite Hs. cbn [mbind result_bind bind]. now rewrite Hm, Ha.
Qed.

(** A listed song with an empty list of singers, met before any hit, ends
    the search: the [IndexError] is swallowed and no cover is found,
    whatever the songs after it. *)
Theorem search_cover_empty_singers (title artist : list N)
        (pre post : list Song) (song : Song) :
  (forall s, In s pre -> passed_over title artist s) ->
  singer song = Some [] ->
  search_cover (Reply 200 (Some (SongList (pre ++ song :: post))))
               title artist
  = None
  /\ cover_url (Reply 200 (Some (SongList (pre ++ song :: post))))
               title artist
     = default_cover.
Proof.
  intros Hpre Hs.
  assert (H : search_cover (Reply 200 (Some (SongList (pre ++ song :: post))))
                           title artist = None).
  { unfold search_cover, search_cover_try.
    cbn [Z.eqb Pos.eqb mbind result_bind bind].
    rewrite (scan_songs_passed _ _ _ _ Hpre). simpl scan_songs.
    unfold first_singer_name. now rewrite Hs. }
  split; [exact H|]. unfold cover_url. now rewrite H.
Qed.

(** [search_cover_origin] and [search_cover_first_hit] at the reply that
    lists 稻香 of 周杰伦, for the query [稻香 周杰伦]. *)
Lemma search_cover_first_hit_witness :
  search_cover (Reply 200 (Some (SongList ([] ++ other_songs))))
               (u "稻香") (u "周杰伦")
  = Some (cover_link (48 :: u "02Neh8l0uciQZ")).
Proof.
  apply (search_cover_first_hit
           (u "稻香") (u "周杰伦") [] []
           {| songname := Some (u "稻香");
              singer := Some [ {| singer_name := Some (u "周杰伦") |} ];
              albummid := Some (u "002Neh8l0uciQZ") |}
           (u "周杰伦") 48 (u "02Neh8l0uciQZ"));
    [intros s []|vm_compute; reflexivity..].
Defined.

Lemma search_cover_origin_witness :
  exists songs song album_id,
    Reply 200 (Some (SongList ([] ++ other_songs)))
    = Reply 200 (Some (SongList songs))
    /\ In song songs /\ albummid song = Some album_id /\ album_id <> []
    /\ cover_link (48 :: u "02Neh8l0uciQZ") = cover_link album_id.
Proof.
  apply (search_cover_origin
           (Reply 200 (Some (SongList ([] ++ other_songs))))
           (u "稻香") (u "周杰伦")).
  vm_compute. reflexivity.
Defined.

Lemma search_cover_empty_singers_witness :
  search_cover
    (Reply 200
           (Some (SongList
                    ([] ++ {| songname := Some (u "稻香"); singer := Some [];
                              albummid := Some (u "002Neh8l0uciQZ") |}
                        :: other_songs))))
    (u "稻香") (u "周杰伦")
  = None.
Proof.
  apply (search_cover_empty_singers (u "稻香") (u "周杰伦") [] other_songs
           {| songname := Some (u "稻香"); singer := Some [];
              albummid := Some (u "002Neh8l0uciQZ") |});
    [intros s []|reflexivity].
Defined.

(** ** The collision loop *)

Lemma decode_ascii_cons (a : ascii) (s : string) :
  (N_of_ascii a <? 128) = true ->
  Utf8.decode (String a s) = N_of_ascii a :: Utf8.decode s.
Proof.
  intros H. unfold Utf8.decode. cbn [list_ascii_of_string List.map length].
  cbn [Utf8.decode_bytes]. now rewrite H.
Qed.

Lemma u_digits (d : Decimal.uint) :
  u (NilEmpty.string_of_uint d) = digits_of d.
Proof.
  unfold u. induction d; cbn [NilEmpty.string_of_uint digits_of];
    [reflexivity|..];
    rewrite decode_ascii_cons by reflexivity; now rewrite IHd.
Qed.

Lemma digits_of_inj (d1 d2 : Decimal.uint) :
  digits_of d1 = digits_of d2 -> d1 = d2.
Proof.
  revert d2. induction d1; intros d2 H; destruct d2; simpl in H;
    try discriminate; try reflexivity;
    injection H as H; f_equal; now apply IHd1.
Qed.

(** Different numbers are written differently. *)
Lemma decimal_inj (i j : nat) : decimal i = decimal j -> i = j.
Proof.
  unfold decimal. rewrite !u_digits. intros H.
  apply digits_of_inj in H.
  rewrite <- (DecimalNat.Unsigned.of_to i), <- (DecimalNat.Unsigned.of_to j).
  now rewrite H.
Qed.

Lemma candidate_inj (base ext : list N) (i j : nat) :
  candidate base ext i = candidate base ext j -> i = j.
Proof.
  unfold candidate. intros H.
  apply app_inv_head, app_inv_head, app_inv_tail in H.
  now apply decimal_inj.
Qed.

Lemma next_free_O (taken : gmap (list N) (list N)) (base ext : list N)
      (counter : nat) :
  next_free taken base ext counter 0 = candidate base ext counter.
Proof. reflexivity. Qed.

Lemma next_free_S (taken : gmap (list N) (list N)) (base ext : list N)
      (counter fuel : nat) :
  next_free taken base ext counter (S fuel)
  = if bool_decide (is_Some (taken !! candidate base ext counter))
    then next_free taken base ext (S counter) fuel
    else candidate base ext counter.
Proof. reflexivity. Qed.

Lemma next_free_candidate (taken : gmap (list N) (list N))
      (base ext : list N) :
  forall fuel counter,
    taken !! next_free taken base ext counter fuel = None
    \/ forall i, (counter <= i <= counter + fuel)%nat ->
                 is_Some (taken !! candidate base ext i).
Proof.
  induction fuel as [|fuel IH]; intros counter.
  - rewrite next_free_O.
    destruct (taken !! candidate base ext counter) eqn:E; [|now left].
    right. intros i Hi. assert (i = counter) as -> by lia.
    rewrite E. eauto.
  - rewrite next_free_S.
    destruct (bool_decide_reflect
                (is_Some (taken !! candidate base ext counter))) as [Hs|Hn].
    + destruct (IH (S counter)) as [H|Hall]; [left; exact H|].
      right. intros i Hi.
      destruct (decide (i = counter)) as [->|]; [exact Hs|].
      apply Hall. lia.
    + left. destruct (taken !! candidate base ext counter) eqn:E;
        [|reflexivity].
      exfalso. apply Hn. eauto.
Qed.

Lemma free_filename_free (taken : gmap (list N) (list N))
      (base ext : list N) :
  taken !! free_filename taken base ext = None.
Proof.
  unfold free_filename.
  destruct (bool_decide_reflect (is_Some (taken !! (base ++ ext))))
    as [Hs|Hn].
  - destruct (next_free_candidate taken base ext (size taken) 1)
      as [H|Hall]; [exact H|].
    exfalso.
    set (l := candidate base ext <$> seq 1 (S (size taken))).
    assert (Hnd : NoDup l).
    { apply NoDup_fmap_2; [|apply NoDup_seq].
      intros i j. apply candidate_inj. }
    assert (Hsub : (list_to_set l : gset (list N)) ⊆ dom taken).
    { intros x Hx. apply elem_of_list_to_set in Hx.
      apply list_elem_of_fmap in Hx. destruct Hx as (i & -> & Hi).
      apply elem_of_seq in Hi. apply elem_of_dom. apply Hall. lia. }
    apply subseteq_size in Hsub.
    rewrite size_list_to_set in Hsub by exact Hnd.
    rewrite size_dom in Hsub. unfold l in Hsub.
    rewrite length_fmap, length_seq in Hsub. lia.
  - destruct (taken !! (base ++ ext)) eqn:E; [|reflexivity].
    exfalso. apply Hn. eauto.
Qed.

(** The name that the collision loop settles on is the name of no file
    of the directory: the loop never runs out of turns, and the copy never
    overwrites a file. *)
Theorem free_filename_fresh (taken : gmap (list N) (list N))
        (base ext : list N) :
  taken !! free_filename taken base ext = None.
Proof. exact (free_filename_free taken base ext). Qed.

(** Where the plain name is free it is taken; where only the plain name
    exists, the name with [_1] before the extension is taken. *)
Theorem free_filename_first (taken : gmap (list N) (list N))
        (base ext : list N) :
  (taken !! (base ++ ext) = None ->
   free_filename taken base ext = base ++ ext)
  /\ (is_Some (taken !! (base ++ ext)) ->
      taken !! (base ++ u "_1" ++ ext) = None ->
      free_filename taken base ext = base ++ u "_1" ++ ext).
Proof.
  unfold free_filename. split.
  - intros H. rewrite bool_decide_eq_false_2; [reflexivity|].
    rewrite H. intros [? ?]. discriminate.
  - intros Hs Hf. rewrite bool_decide_eq_true_2 by exact Hs.
    destruct (size taken) as [|n] eqn:En.
    + apply map_size_empty_iff in En. subst taken.
      rewrite lookup_empty in Hs. destruct Hs. discriminate.
    + rewrite next_free_S.
      assert (Hc : candidate base ext 1 = base ++ u "_1" ++ ext)
        by reflexivity.
      rewrite Hc. rewrite bool_decide_eq_false_2; [reflexivity|].
      rewrite Hf. intros [? ?]. discriminate.
Qed.

(** [free_filename_first] at a directory that holds [Name.mp3]. *)
Lemma free_filename_first_witness :
  free_filename {[ u "Name.mp3" := [] ]} (u "Name") (u ".mp3")
  = u "Name" ++ u "_1" ++ u ".mp3".
Proof.
  apply (free_filename_first {[ u "Name.mp3" := [] ]} (u "Name") (u ".mp3")).
  - vm_compute. eauto.
  - vm_compute. reflexivity.
Defined.

(** ** The fields of the resolved metadata *)

Section FieldFacts.
Context {tables : CharTables}.
Variable artist_candidates : gmap (list N) Z.

Lemma has_fields_title (info : gmap string pyval) (t a s d v : pyval) :
  has_fields info t a s d ->
  has_fields (<["title"%string := v]> info) v a s d.
Proof.
  intros (Ht & Ha & Hs & Hd). unfold has_fields.
  rewrite lookup_insert_eq, !lookup_insert_ne by discriminate. auto.
Qed.

Lemma has_fields_artist (info : gmap string pyval) (t a s d v : pyval) :
  has_fields info t a s d ->
  has_fields (<["artist"%string := v]> info) t v s d.
Proof.
  intros (Ht & Ha & Hs & Hd). unfold has_fields.
  rewrite lookup_insert_eq, !lookup_insert_ne by discriminate. auto.
Qed.

Lemma has_fields_source (info : gmap string pyval) (t a s d v : pyval) :
  has_fields info t a s d ->
  has_fields (<["artist_source"%string := v]> info) t a v d.
Proof.
  intros (Ht & Ha & Hs & Hd). unfold has_fields.
  rewrite lookup_insert_eq, !lookup_insert_ne by discriminate. auto.
Qed.

Lemma has_fields_duration (info : gmap string pyval) (t a s d v : pyval) :
  has_fields info t a s d ->
  has_fields (<["duration"%string := v]> info) t a s v.
Proof.
  intros (Ht & Ha & Hs & Hd). unfold has_fields.
  rewrite lookup_insert_eq, !lookup_insert_ne by discriminate. auto.
Qed.

Lemma has_fields_album (info : gmap string pyval) (t a s d v : pyval) :
  has_fields info t a s d ->
  has_fields (<["album"%string := v]> info) t a s d.
Proof.
  intros (Ht & Ha & Hs & Hd). unfold has_fields.
  rewrite !lookup_insert_ne by discriminate. auto.
Qed.

Ltac name_if base name :=
  match goal with
  | |- context [if ?c then ?x else base] =>
    set (name := if c then x else base)
  end.

(** The resolution never raises on a dictionary that has the fields; it
    ends with the title, artist and provenance of [resolve_fields] and
    leaves the duration as it is. *)
Theorem merge_filename_fields (file_path : MusicFile)
        (info : gmap string pyval) (t a s d : pyval) :
  has_fields info t a s d ->
  exists info',
    merge_filename artist_candidates file_path info = Ok info'
    /\ has_fields info'
         (resolve_fields
            (stem file_path)
            (_parse_filename_intelligently artist_candidates (stem file_path))
            t a s).1.1
         (resolve_fields
            (stem file_path)
            (_parse_filename_intelligently artist_candidates (stem file_path))
            t a s).1.2
         (resolve_fields
            (stem file_path)
            (_parse_filename_intelligently artist_candidates (stem file_path))
            t a s).2
         d.
Proof.
  intros H0. unfold merge_filename, resolve_fields.
  destruct (_parse_filename_intelligently _ _) as [fa ft].
  cbn [fst snd].
  rewrite (getitem_some _ _ _ (proj1 H0)). cbn [mbind result_bind bind].
  set (use_ft := negb (py_truthy t) && truthy ft).
  name_if info info1.
  assert (H1 : has_fields info1
                 (if use_ft then PyStr ft else t) a
                 (if use_ft then PyStr (u "filename_parse_title") else s) d).
  { unfold info1. destruct use_ft; [|exact H0].
    eapply has_fields_source, has_fields_title; exact H0. }
  clearbody info1. clear H0 info.
  set (t1 := if use_ft then PyStr ft else t) in *.
  set (s1 := if use_ft then PyStr (u "filename_parse_title") else s) in *.
  clearbody t1 s1. clear use_ft.
  rewrite (getitem_some _ _ _ (proj1 (proj2 H1))).
  cbn [mbind result_bind bind].
  set (use_fa := match fa with
                 | Some (_ :: _) =>
                   negb (py_truthy a)
                   || bool_decide (a = PyStr (u "未知艺术家"))
                 | _ => false
                 end).
  assert (H2 : exists info2,
             match fa with
             | Some (c :: fa0) =>
               if negb (py_truthy a)
                  || bool_decide (a = PyStr (u "未知艺术家"))
               then
                 getitem (<["artist"%string := PyStr (c :: fa0)]> info1)
                         "artist_source"
                 ≫= (fun source =>
                        Ok (if negb (py_truthy source)
                            then <["artist_source"%string :=
                                     PyStr (u "filename_parse_artist")]>
                                   (<["artist"%string := PyStr (c :: fa0)]>
                                      info1)
                            else <["artist"%string := PyStr (c :: fa0)]>
                                   info1))
               else Ok info1
             | _ => Ok info1
             end = Ok info2
             /\ has_fields info2 t1
                  (if use_fa then PyStr (default [] fa) else a)
                  (if use_fa && negb (py_truthy s1)
                   then PyStr (u "filename_parse_artist") else s1) d).
  { unfold use_fa. destruct fa as [[|c fa0]|]; [eauto|..|eauto].
    destruct (negb (py_truthy a)
              || bool_decide (a = PyStr (u "未知艺术家"))); [|eauto].
    pose proof (has_fields_artist _ _ _ _ _ (PyStr (c :: fa0)) H1) as Hi.
    rewrite (getitem_some _ _ _ (proj1 (proj2 (proj2 Hi)))).
    cbn [mbind result_bind bind andb default].
    eexists. split; [reflexivity|].
    destruct (negb (py_truthy s1)); [|exact Hi].
    eapply has_fields_source; exact Hi. }
  destruct H2 as (info2 & -> & H2). cbn [mbind result_bind bind].
  clear H1 info1.
  set (a2 := if use_fa then PyStr (default [] fa) else a) in *.
  set (s2 := if use_fa && negb (py_truthy s1)
             then PyStr (u "filename_parse_artist") else s1) in *.
  clearbody a2 s2. clear use_fa.
  rewrite (getitem_some _ _ _ (proj1 H2)). cbn [mbind result_bind bind].
  name_if info2 info3.
  assert (H3 : has_fields info3
                 (if negb (py_truthy t1) then PyStr (stem file_path) else t1)
                 a2 s2 d).
  { unfold info3. destruct (negb (py_truthy t1)); [|exact H2].
    eapply has_fields_title; exact H2. }
  clearbody info3. clear H2 info2.
  set (t3 := if negb (py_truthy t1) then PyStr (stem file_path) else t1) in *.
  clearbody t3.
  rewrite (getitem_some _ _ _ (proj1 (proj2 H3))).
  cbn [mbind result_bind bind].
  rewrite (getitem_some _ _ _ (proj1 H3)). cbn [mbind result_bind bind].
  name_if info3 info4.
  assert (H4 : has_fields info4
                 (if py_truthy a2 && py_truthy t3
                  then PyStr (_clean_title (as_str t3) (as_artist a2))
                  else t3) a2 s2 d).
  { unfold info4. destruct (py_truthy a2 && py_truthy t3); [|exact H3].
    eapply has_fields_title; exact H3. }
  clearbody info4. clear H3 info3.
  rewrite (getitem_some _ _ _ (proj1 (proj2 H4))).
  cbn [mbind result_bind bind].
  destruct (negb (py_truthy a2)); cbn [andb]; [|eauto].
  pose proof (has_fields_artist _ _ _ _ _ (PyStr (u "Various Artists")) H4)
    as H5.
  rewrite (getitem_some _ _ _ (proj1 (proj2 (proj2 H5)))).
  cbn [mbind result_bind bind]. eexists. split; [reflexivity|].
  destruct (negb (py_truthy s2)); [|exact H5].
  eapply has_fields_source; exact H5.
Qed.

End FieldFacts.

Section MetadataFacts.
Context {tables : CharTables}.
Variable artist_candidates : gmap (list N) Z.

Ltac fields_step :=
  first [ eapply has_fields_title | eapply has_fields_artist
        | eapply has_fields_source | eapply has_fields_album
        | eapply has_fields_duration ].

Lemma title_frames_fields (o1 o2 o3 : option (list N))
      (info : gmap string pyval) (a s d : pyval) :
  has_fields info PyNone a s d ->
  exists t,
    has_fields
      (match o1, o2, o3 with
       | Some t, _, _ => <["title"%string := PyStr (strip t)]> info
       | None, Some t, _ => <["title"%string := PyStr (strip t)]> info
       | None, None, Some t => <["title"%string := PyStr (strip t)]> info
       | None, None, None => info
       end) t a s d
    /\ str_or_none t.
Proof.
  intros H. unfold str_or_none.
  destruct o1 as [x|]; [|destruct o2 as [x|]; [|destruct o3 as [x|]]];
    try (exists (PyStr (strip x));
         split; [eapply has_fields_title; exact H|eauto]).
  exists PyNone. auto.
Qed.

Lemma artist_frames_fields (o1 o2 : option (list N))
      (info : gmap string pyval) (t d : pyval) :
  has_fields info t PyNone PyNone d -> str_or_none t ->
  exists a s,
    has_fields
      (match o1, o2 with
       | Some a, _ =>
         let artist := strip a in
         let artist :=
           if existsb (N.eqb 47) artist
           then strip (before_first 47 artist)
           else if existsb (N.eqb 59) artist
           then strip (before_first 59 artist)
           else artist in
         <["artist_source"%string := PyStr (u "TPE1_tag")]>
           (<["artist"%string := PyStr artist]> info)
       | None, Some a =>
         <["artist_source"%string := PyStr (u "TPE2_tag")]>
           (<["artist"%string := PyStr (strip a)]> info)
       | None, None => info
       end) t a s d
    /\ tag_fields t a s.
Proof.
  intros H Ht. unfold tag_fields, str_or_none.
  destruct o1 as [x|]; [|destruct o2 as [x|]].
  - eexists _, _. split.
    + eapply has_fields_source, has_fields_artist; exact H.
    + repeat split; [exact Ht|right; eauto|auto|discriminate].
  - eexists _, _. split.
    + eapply has_fields_source, has_fields_artist; exact H.
    + repeat split; [exact Ht|right; eauto|auto|discriminate].
  - exists PyNone, PyNone. split; [exact H|].
    repeat split; [exact Ht|auto|auto|discriminate].
Qed.

Lemma read_mp3_tags_fields (frames : gmap string (list N))
      (info : gmap string pyval) (d : pyval) :
  has_fields info PyNone PyNone PyNone d ->
  exists t a s,
    has_fields (read_mp3_tags frames info) t a s d /\ tag_fields t a s.
Proof.
  intros H. unfold read_mp3_tags. cbv zeta.
  destruct (title_frames_fields
              (frames !! "TIT2"%string) (frames !! "TIT1"%string)
              (frames !! "TIT3"%string) info _ _ _ H) as (t & H1 & Ht).
  destruct (artist_frames_fields
              (frames !! "TPE1"%string) (frames !! "TPE2"%string)
              _ _ _ H1 Ht) as (a & s & H2 & Hts).
  exists t, a, s. split; [|exact Hts].
  destruct (frames !! "TALB"%string); [|exact H2].
  eapply has_fields_album. exact H2.
Qed.

(** After the tags are read [info] has its fields: a title and an artist
    that are [None] or strings, a provenance that is [None] or names the
    frame of the artist, and the duration. *)
Lemma read_audio_fields (file_path : MusicFile) (audio : option Audio) :
  exists t a s,
    has_fields (read_audio file_path audio) t a s (PyInt (duration_of audio))
    /\ tag_fields t a s.
Proof.
  unfold read_audio.
  set (base := <["title"%string := PyNone]> _).
  assert (Hb : has_fields base PyNone PyNone PyNone (PyInt 0))
    by (unfold base, has_fields; repeat split; reflexivity).
  assert (Ht0 : tag_fields PyNone PyNone PyNone).
  { unfold tag_fields, str_or_none. repeat split; auto; discriminate. }
  clearbody base.
  destruct audio as [audio|]; [|exists PyNone, PyNone, PyNone; auto].
  assert (Hi : exists t a s,
             has_fields
               (match tags audio with
                | Some tags0 =>
                  if pystr_eqb (suffix_lower file_path) (u ".mp3")
                  then read_mp3_tags tags0 base else base
                | None => base
                end) t a s (PyInt 0) /\ tag_fields t a s).
  { destruct (tags audio) as [frames|]; [|eauto 10].
    destruct (pystr_eqb _ _); [|eauto 10].
    now apply read_mp3_tags_fields. }
  destruct Hi as (t & a & s & Hi & Ht). exists t, a, s.
  split; [|exact Ht]. unfold duration_of.
  destruct (info_length audio) as [len|]; [|exact Hi].
  eapply has_fields_duration; exact Hi.
Qed.

Lemma truthy_str (v : pyval) :
  str_or_none v -> py_truthy v = true -> nonempty_str v.
Proof.
  intros [->|[[|c s] ->]]; try discriminate. intros _. now exists c, s.
Qed.

(** The resolved artist is a string that is not empty. *)
Lemma resolve_fields_artist (stem : list N)
      (parsed : option (list N) * list N) (t a s : pyval) :
  str_or_none a -> nonempty_str (resolve_fields stem parsed t a s).1.2.
Proof.
  intros Ha. unfold resolve_fields. destruct parsed as [fa ft].
  cbn [fst snd].
  match goal with
  | |- context [negb (py_truthy ?x)] => set (a2 := x)
  end.
  assert (H2 : str_or_none a2).
  { unfold a2. destruct fa as [[|c fa]|]; try exact Ha.
    destruct (_ || _); [right; eauto|exact Ha]. }
  clearbody a2. destruct (py_truthy a2) eqn:E; simpl.
  - now apply truthy_str.
  - now eexists _, _.
Qed.

Lemma clean_title_nonempty (title : list N) (artist : option (list N)) :
  title <> [] -> _clean_title title artist <> [].
Proof.
  intros Ht. destruct artist as [a|]; [|exact Ht].
  destruct (decide (a = [])) as [->|Hne]; [exact Ht|].
  destruct (decide (a = u "Various Artists")) as [->|Hva].
  - rewrite clean_title_unchanged by now right. exact Ht.
  - rewrite clean_title_steps by assumption.
    destruct (cleaned a title) eqn:E; [exact Ht|discriminate].
Qed.

(** The resolved title is a string, not empty when the stem is not. *)
Lemma resolve_fields_title (stem : list N)
      (parsed : option (list N) * list N) (t a s : pyval) :
  str_or_none t ->
  exists x, (resolve_fields stem parsed t a s).1.1 = PyStr x
            /\ (stem <> [] -> x <> []).
Proof.
  intros Ht. unfold resolve_fields. destruct parsed as [fa ft].
  cbn [fst snd].
  match goal with
  | |- context [py_truthy ?a2 && py_truthy ?t3] =>
    set (art := a2); set (t3' := t3)
  end.
  assert (H3 : exists x, t3' = PyStr x /\ (stem <> [] -> x <> [])).
  { unfold t3'.
    destruct (negb (py_truthy t) && truthy ft) eqn:E.
    - apply andb_true_iff in E. destruct E as [_ E].
      destruct ft as [|c ft]; [discriminate|]. simpl.
      exists (c :: ft). split; [reflexivity|discriminate].
    - destruct (py_truthy t) eqn:Et; simpl.
      + destruct (truthy_str t Ht Et) as (c & x & ->).
        exists (c :: x). split; [reflexivity|discriminate].
      + eauto. }
  clearbody art t3'. destruct H3 as (x & -> & Hx).
  destruct (py_truthy art && py_truthy (PyStr x)); [|eauto].
  eexists. split; [reflexivity|]. intros Hs. simpl.
  apply clean_title_nonempty. now apply Hx.
Qed.

Lemma good_tags :
  good_tag (u "TPE1_tag") /\ good_tag (u "TPE2_tag")
  /\ good_tag (u "filename_parse_title")
  /\ good_tag (u "filename_parse_artist") /\ good_tag (u "default").
Proof.
  unfold good_tag, provenance_tags.
  repeat split; try reflexivity; try (intros E; vm_compute in E; discriminate).
  - left. reflexivity.
  - right. left. reflexivity.
  - do 2 right. left. reflexivity.
  - do 3 right. left. reflexivity.
  - do 4 right. left. reflexivity.
Qed.

Lemma truthy_tag (v : pyval) :
  none_or_tag v -> py_truthy v = true ->
  exists tag, v = PyStr tag /\ good_tag tag.
Proof. intros [->|H]; [discriminate|auto]. Qed.

Lemma falsy_tag (v : pyval) :
  none_or_tag v -> py_truthy v = false -> v = PyNone.
Proof.
  intros [->|(tag & -> & Ht & _)]; [reflexivity|].
  simpl. rewrite Ht. discriminate.
Qed.

(** The resolved provenance is one of five tags. *)
Lemma resolve_fields_source (stem : list N)
      (parsed : option (list N) * list N) (t a s : pyval) :
  tag_fields t a s ->
  exists tag, (resolve_fields stem parsed t a s).2 = PyStr tag
              /\ good_tag tag.
Proof.
  intros (_ & Ha & Hs & Has). unfold resolve_fields.
  destruct parsed as [fa ft]. cbn [fst snd].
  destruct good_tags as (G1 & G2 & G3 & G4 & G5).
  assert (Hs0 : none_or_tag s).
  { destruct Hs as [->|[-> | ->]]; [now left|right; eauto..]. }
  assert (Has0 : py_truthy a = true -> py_truthy s = true).
  { intros E. specialize (Has E).
    destruct Hs0 as [->|(tag & -> & Ht & _)]; [congruence|exact Ht]. }
  clear Hs Has.
  set (g3 := u "filename_parse_title") in *.
  set (g4 := u "filename_parse_artist") in *.
  set (g5 := u "default") in *.
  clearbody g3 g4 g5. clear G1 G2.
  set (s1 := if negb (py_truthy t) && truthy ft then PyStr g3 else s).
  assert (H1 : none_or_tag s1 /\ (py_truthy a = true -> py_truthy s1 = true)).
  { unfold s1. destruct (negb (py_truthy t) && truthy ft); [|auto].
    split; [right; eauto|]. intros _. exact (proj1 G3). }
  clearbody s1. clear Hs0 Has0 s. destruct H1 as [Hs1 Has1].
  set (use_fa := match fa with
                 | Some (_ :: _) =>
                   negb (py_truthy a)
                   || bool_decide (a = PyStr (u "未知艺术家"))
                 | _ => false
                 end).
  set (a2 := if use_fa then PyStr (default [] fa) else a).
  set (s2 := if use_fa && negb (py_truthy s1) then PyStr g4 else s1).
  assert (H2 : none_or_tag s2 /\ (py_truthy a2 = true -> py_truthy s2 = true)).
  { unfold s2, a2. destruct use_fa; cbn [andb]; [|auto].
    destruct (py_truthy s1) eqn:E; cbn [negb].
    - auto.
    - split; [right; eauto|]. intros _. exact (proj1 G4). }
  clearbody s2 a2. clear Hs1 Has1 s1 use_fa. destruct H2 as [Hs2 Has2].
  destruct (py_truthy a2) eqn:Ea; cbn [negb andb].
  - now apply truthy_tag; [|apply Has2].
  - destruct (py_truthy s2) eqn:Es; cbn [negb].
    + now apply truthy_tag.
    + eauto.
Qed.

End MetadataFacts.

(** ** The metadata of a file *)

Section ExtractFacts.
Context {tables : CharTables}.
Variable artist_candidates : gmap (list N) Z.

Lemma extract_metadata_read (file_path : MusicFile) (audio : option Audio) :
  tag_read file_path = FileReturns audio ->
  exists t a s,
    has_fields (extract_metadata artist_candidates file_path)
               (PyStr t) (PyStr a) (PyStr s) (PyInt (duration_of audio))
    /\ (stem file_path <> [] -> t <> []) /\ a <> [] /\ good_tag s.
Proof.
  intros Hr. unfold extract_metadata, extract_metadata_try. rewrite Hr.
  cbn [mbind result_bind bind].
  destruct (read_audio_fields file_path audio) as (t & a & s & Hf & Ht).
  destruct (merge_filename_fields artist_candidates file_path _ _ _ _ _ Hf)
    as (info' & -> & Hf').
  destruct (resolve_fields_title
              (stem file_path)
              (_parse_filename_intelligently artist_candidates (stem file_path))
              t a s (proj1 Ht)) as (x & Hx & Hne).
  destruct (resolve_fields_artist
              (stem file_path)
              (_parse_filename_intelligently artist_candidates (stem file_path))
              t a s (proj1 (proj2 Ht))) as (c & y & Hy).
  destruct (resolve_fields_source
              (stem file_path)
              (_parse_filename_intelligently artist_candidates (stem file_path))
              t a s Ht) as (tag & Hs & Hg).
  rewrite Hx, Hy, Hs in Hf'.
  exists x, (c :: y), tag.
  split; [exact Hf'|]. split; [exact Hne|]. split; [discriminate|exact Hg].
Qed.

Lemma extract_metadata_raised (file_path : MusicFile) :
  tag_read file_path = FileRaises ->
  exists t a,
    extract_metadata artist_candidates file_path !! "title"%string
    = Some (PyStr t)
    /\ extract_metadata artist_candidates file_path !! "artist"%string
       = Some (PyStr a)
    /\ extract_metadata artist_candidates file_path !! "artist_source"%string
       = Some (PyStr (u "error_fallback"))
    /\ extract_metadata artist_candidates file_path !! "duration"%string
       = None
    /\ (stem file_path <> [] -> t <> []) /\ a <> [].
Proof.
  intros H. unfold extract_metadata, extract_metadata_try. rewrite H.
  cbn [mbind result_bind bind].
  destruct (_parse_filename_intelligently _ _) as [fa ft].
  eexists _, _. split; [|split; [|split; [|split]]].
  - rewrite lookup_insert_eq. reflexivity.
  - rewrite lookup_insert_ne by discriminate. rewrite lookup_insert_eq.
    reflexivity.
  - do 2 (rewrite lookup_insert_ne by discriminate).
    now rewrite lookup_insert_eq.
  - do 3 (rewrite lookup_insert_ne by discriminate). apply lookup_empty.
  - split.
    + intros Hs. now destruct ft.
    + destruct fa as [[|c fa]|]; try discriminate;
        intros E; vm_compute in E; discriminate.
Qed.

(** Whatever the file, the resolved title and artist are strings, the
    artist is not empty, and the title is not empty when the stem is not. *)
Theorem metadata_title_artist (file_path : MusicFile) :
  exists t a,
    extract_metadata artist_candidates file_path !! "title"%string
    = Some (PyStr t)
    /\ extract_metadata artist_candidates file_path !! "artist"%string
       = Some (PyStr a)
    /\ (stem file_path <> [] -> t <> []) /\ a <> [].
Proof.
  destruct (tag_read file_path) as [|audio] eqn:E.
  - destruct (extract_metadata_raised file_path E)
      as (t & a & Ht & Ha & _ & _ & H1 & H2).
    exists t, a. auto.
  - destruct (extract_metadata_read file_path audio E)
      as (t & a & s & (Ht & Ha & _ & _) & H1 & H2 & _).
    exists t, a. auto.
Qed.

(** The provenance is one of the six tags, and it is [error_fallback]
    exactly when the tag library raised. *)
Theorem metadata_provenance (file_path : MusicFile) :
  exists s,
    extract_metadata artist_candidates file_path !! "artist_source"%string
    = Some (PyStr s)
    /\ In s provenance_tags
    /\ (s = u "error_fallback" <-> tag_read file_path = FileRaises).
Proof.
  destruct (tag_read file_path) as [|audio] eqn:E.
  - destruct (extract_metadata_raised file_path E)
      as (t & a & _ & _ & Hs & _).
    exists (u "error_fallback"). split; [exact Hs|]. split; [|tauto].
    unfold provenance_tags. do 5 right. left. reflexivity.
  - destruct (extract_metadata_read file_path audio E)
      as (t & a & s & (_ & _ & Hs & _) & _ & _ & (_ & Hin & Hne)).
    exists s. split; [exact Hs|]. split; [exact Hin|].
    split; [congruence|discriminate].
Qed.

(** The metadata has a duration exactly when the tag library returned:
    the length it reports, or 0 for a false value or an object without
    length. *)
Theorem metadata_duration (file_path : MusicFile) :
  extract_metadata artist_candidates file_path !! "duration"%string
  = match tag_read file_path with
    | FileRaises => None
    | FileReturns audio => Some (PyInt (duration_of audio))
    end.
Proof.
  destruct (tag_read file_path) as [|audio] eqn:E.
  - destruct (extract_metadata_raised file_path E)
      as (t & a & _ & _ & _ & Hd & _). exact Hd.
  - destruct (extract_metadata_read file_path audio E)
      as (t & a & s & (_ & _ & _ & Hd) & _). exact Hd.
Qed.

(** When the tag library returns a false value and the stem has at most
    one token, the artist is [Various Artists]. *)
Theorem metadata_default_artist (file_path : MusicFile) :
  tag_read file_path = FileReturns None ->
  (length (_split_filename (stem file_path)) <= 1)%nat ->
  extract_metadata artist_candidates file_path !! "artist"%string
  = Some (PyStr (u "Various Artists")).
Proof.
  intros Hr Hl. unfold extract_metadata, extract_metadata_try. rewrite Hr.
  cbn [mbind result_bind bind].
  destruct (read_audio_fields file_path None) as (t & a & s & Hf & _).
  assert (Ha : a = PyNone).
  { destruct Hf as (_ & Ha & _). unfold read_audio in Ha.
    rewrite lookup_insert_ne in Ha by discriminate.
    rewrite lookup_insert_eq in Ha. congruence. }
  subst a.
  destruct (merge_filename_fields artist_candidates file_path _ _ _ _ _ Hf)
    as (info' & -> & (_ & Hf' & _)).
  rewrite Hf'. f_equal. unfold resolve_fields.
  assert (Hp : fst (_parse_filename_intelligently artist_candidates
                      (stem file_path)) = None).
  { unfold _parse_filename_intelligently.
    destruct (_split_filename (stem file_path)) as [|p [|q l]];
      [reflexivity..|simpl in Hl; lia]. }
  destruct (_parse_filename_intelligently _ _) as [fa ft].
  simpl in Hp. subst fa. reflexivity.
Qed.

End ExtractFacts.

(** [metadata_default_artist] at a file [晴天.wav] for which the tag
    library returns [None]. *)
Lemma metadata_default_artist_witness :
  @extract_metadata latin_cjk ∅
    {| stem := u "晴天"; suffix_lower := u ".wav"; name := u "晴天.wav";
       content := []; tag_read := FileReturns None; lrc_sidecar := None;
       lyrics_found := None; cover_response := RequestFails |}
    !! "artist"%string
  = Some (PyStr (u "Various Artists")).
Proof.
  apply (@metadata_default_artist latin_cjk ∅
           {| stem := u "晴天"; suffix_lower := u ".wav"; name := u "晴天.wav";
              content := []; tag_read := FileReturns None;
              lrc_sidecar := None; lyrics_found := None;
              cover_response := RequestFails |}).
  - reflexivity.
  - vm_compute. lia.
Defined.

(** ** One turn of the loop of [process_directory] *)

Section LoopFacts.
Context {tables : CharTables}.
Variable artist_candidates : gmap (list N) Z.

(** The turn copies the file under a name that no file of the directory
    has, and appends an entry when the metadata has a duration. *)
Lemma process_file_try_outcome (w : World) (file_path : MusicFile)
      (tv av : pyval) :
  extract_metadata artist_candidates file_path !! "title"%string = Some tv ->
  extract_metadata artist_candidates file_path !! "artist"%string = Some av ->
  exists base lyrics lrc,
    process_file_try artist_candidates file_path w =
      match extract_metadata artist_candidates file_path
              !! "duration"%string with
      | Some d =>
        ({| audio_dir :=
              <[free_filename (audio_dir w) base (suffix_lower file_path)
                := content file_path]> (audio_dir w);
            lyrics_dir := lyrics;
            music_list :=
              music_list w
              ++ [playlist_entry
                    (or_str tv (stem file_path))
                    (or_str av (u "Various Artists"))
                    (u "audio/"
                       ++ free_filename (audio_dir w) base
                            (suffix_lower file_path))
                    (cover_url (cover_response file_path)
                               (or_str tv (stem file_path))
                               (or_str av (u "Various Artists")))
                    lrc d
                    (dict_get (extract_metadata artist_candidates file_path)
                              "artist_source" (PyStr (u "unknown")))
                    (name file_path)] |}, Ok tt)
      | None =>
        ({| audio_dir :=
              <[free_filename (audio_dir w) base (suffix_lower file_path)
                := content file_path]> (audio_dir w);
            lyrics_dir := lyrics;
            music_list := music_list w |}, Raise (KeyError "duration"))
      end.
Proof.
  intros Ht Ha. unfold process_file_try, playlist_entry.
  set (metadata := extract_metadata artist_candidates file_path) in *.
  clearbody metadata.
  unfold mbind, M_bind, lift, audio_names, write_audio, mret, M_ret.
  rewrite (getitem_some _ _ _ Ht), (getitem_some _ _ _ Ha).
  eexists.
  destruct (match lrc_sidecar file_path with
            | Some text => Some text
            | None => lyrics_found file_path
            end) as [[|c text]|];
    unfold write_lyrics, append_entry, getitem;
    cbn [fst snd music_list audio_dir lyrics_dir];
    eexists _, _; destruct (metadata !! "duration"%string); reflexivity.
Qed.

Lemma process_file_read (w : World) (file_path : MusicFile)
      (audio : option Audio) :
  tag_read file_path = FileReturns audio ->
  exists dest entry,
    audio_dir w !! dest = None
    /\ audio_dir (process_file artist_candidates w file_path)
       = <[dest := content file_path]> (audio_dir w)
    /\ music_list (process_file artist_candidates w file_path)
       = music_list w ++ [entry]
    /\ dom entry = list_to_set entry_keys
    /\ entry !! "url"%string = Some (PyStr (u "audio/" ++ dest))
    /\ entry !! "duration"%string = Some (PyInt (duration_of audio))
    /\ entry !! "original_filename"%string = Some (PyStr (name file_path)).
Proof.
  intros Hr.
  destruct (extract_metadata_read artist_candidates file_path audio Hr)
    as (t & a & s & (Ht & Ha & Hs & Hd) & _).
  destruct (process_file_try_outcome w file_path _ _ Ht Ha)
    as (base & lyrics & lrc & Hp).
  rewrite Hd in Hp. unfold process_file. rewrite Hp. cbn [fst].
  eexists _, _. split; [apply free_filename_free|].
  split; [reflexivity|]. split; [reflexivity|].
  unfold playlist_entry. split; [|split; [|split]].
  - rewrite !dom_insert_L, dom_empty_L. reflexivity.
  - do 2 (rewrite lookup_insert_ne by discriminate).
    now rewrite lookup_insert_eq.
  - do 5 (rewrite lookup_insert_ne by discriminate).
    now rewrite lookup_insert_eq.
  - do 7 (rewrite lookup_insert_ne by discriminate).
    now rewrite lookup_insert_eq.
Qed.

(** The calls of the file system taken to succeed, a file whose tags are
    read gets exactly one entry, with the eight keys of an entry, its
    duration, and the address of the copy, which has a name that no file
    of the directory had. *)
Theorem process_file_appends (w : World) (file_path : MusicFile)
        (audio : option Audio) :
  tag_read file_path = FileReturns audio ->
  exists dest entry,
    audio_dir w !! dest = None
    /\ audio_dir (process_file artist_candidates w file_path)
       = <[dest := content file_path]> (audio_dir w)
    /\ music_list (process_file artist_candidates w file_path)
       = music_list w ++ [entry]
    /\ dom entry = list_to_set entry_keys
    /\ entry !! "url"%string = Some (PyStr (u "audio/" ++ dest))
    /\ entry !! "duration"%string = Some (PyInt (duration_of audio))
    /\ entry !! "original_filename"%string = Some (PyStr (name file_path)).
Proof. exact (process_file_read w file_path audio). Qed.

Lemma process_file_read_lyrics (w : World) (file_path : MusicFile)
      (audio : option Audio) :
  tag_read file_path = FileReturns audio ->
  exists dest entry,
    audio_dir (process_file artist_candidates w file_path)
    = <[dest := content file_path]> (audio_dir w)
    /\ music_list (process_file artist_candidates w file_path)
       = music_list w ++ [entry]
    /\ match lrc_content file_path with
       | Some (c :: text) =>
         lyrics_dir (process_file artist_candidates w file_path)
         = <[path_stem dest ++ u ".lrc" := c :: text]> (lyrics_dir w)
         /\ entry !! "lrc"%string
            = Some (PyStr (u "lyrics/" ++ path_stem dest ++ u ".lrc"))
       | _ =>
         lyrics_dir (process_file artist_candidates w file_path)
         = lyrics_dir w
         /\ entry !! "lrc"%string = Some PyNone
       end.
Proof.
  intros Hr.
  destruct (extract_metadata_read artist_candidates file_path audio Hr)
    as (t & a & s & (Ht & Ha & Hs & Hd) & _).
  unfold process_file, process_file_try, lrc_content.
  set (metadata := extract_metadata artist_candidates file_path) in *.
  clearbody metadata.
  unfold mbind, M_bind, lift, audio_names, write_audio, mret, M_ret.
  rewrite (getitem_some _ _ _ Ht), (getitem_some _ _ _ Ha).
  destruct (match lrc_sidecar file_path with
            | Some text => Some text
            | None => lyrics_found file_path
            end) as [[|c text]|];
    unfold write_lyrics, append_entry;
    rewrite (getitem_some _ _ _ Hd);
    cbn [fst snd music_list audio_dir lyrics_dir];
    eexists _, _; (split; [reflexivity|]); (split; [reflexivity|]);
    (split; [reflexivity|]);
    do 4 (rewrite lookup_insert_ne by discriminate); apply lookup_insert_eq.
Qed.

(** The calls of the file system taken to succeed, the lyrics of a file
    whose tags are read are the text of the lyrics file beside it where
    there is one, and what the search finds otherwise.  A text that is not
    empty is written under the name of the copy with the extension
    [.lrc], over what was there, and the entry points to it; otherwise
    nothing is written and the entry has no lyrics. *)
Theorem process_file_lyrics (w : World) (file_path : MusicFile)
        (audio : option Audio) :
  tag_read file_path = FileReturns audio ->
  exists dest entry,
    audio_dir (process_file artist_candidates w file_path)
    = <[dest := content file_path]> (audio_dir w)
    /\ music_list (process_file artist_candidates w file_path)
       = music_list w ++ [entry]
    /\ match lrc_content file_path with
       | Some (c :: text) =>
         lyrics_dir (process_file artist_candidates w file_path)
         = <[path_stem dest ++ u ".lrc" := c :: text]> (lyrics_dir w)
         /\ entry !! "lrc"%string
            = Some (PyStr (u "lyrics/" ++ path_stem dest ++ u ".lrc"))
       | _ =>
         lyrics_dir (process_file artist_candidates w file_path)
         = lyrics_dir w
         /\ entry !! "lrc"%string = Some PyNone
       end.
Proof. exact (process_file_read_lyrics w file_path audio). Qed.

Lemma process_file_keeps_audio (w : World) (file_path : MusicFile)
        (k v : list N) :
  audio_dir w !! k = Some v ->
  audio_dir (process_file artist_candidates w file_path) !! k = Some v.
Proof.
  intros Hk.
  assert (Hm : exists t a,
             extract_metadata artist_candidates file_path !! "title"%string
             = Some t
             /\ extract_metadata artist_candidates file_path
                  !! "artist"%string = Some a).
  { destruct (tag_read file_path) as [|audio] eqn:E.
    - destruct (extract_metadata_raised artist_candidates file_path E)
        as (t & a & Ht & Ha & _). eauto.
    - destruct (extract_metadata_read artist_candidates file_path audio E)
        as (t & a & s & (Ht & Ha & _) & _). eauto. }
  destruct Hm as (t & a & Ht & Ha).
  destruct (process_file_try_outcome w file_path _ _ Ht Ha)
    as (base & lyrics & lrc & Hp).
  unfold process_file. rewrite Hp.
  assert (Hne : free_filename (audio_dir w) base (suffix_lower file_path)
                <> k).
  { intros E. pose proof (free_filename_free
                            (audio_dir w) base (suffix_lower file_path)) as Hf.
    rewrite E in Hf. congruence. }
  destruct (extract_metadata artist_candidates file_path !! "duration"%string);
    cbn [fst audio_dir]; now rewrite lookup_insert_ne.
Qed.

Lemma process_file_raised (w : World) (file_path : MusicFile) :
  tag_read file_path = FileRaises ->
  music_list (process_file artist_candidates w file_path) = music_list w.
Proof.
  intros Hr.
  destruct (extract_metadata_raised artist_candidates file_path Hr)
    as (t & a & Ht & Ha & _ & Hd & _).
  destruct (process_file_try_outcome w file_path _ _ Ht Ha)
    as (base & lyrics & lrc & Hp).
  rewrite Hd in Hp. unfold process_file. now rewrite Hp.
Qed.

Lemma fold_process_keeps_audio (music_files : list MusicFile) :
  forall (w : World) (k v : list N),
    audio_dir w !! k = Some v ->
    audio_dir (fold_left (process_file artist_candidates) music_files w) !! k
    = Some v.
Proof.
  induction music_files as [|f fs IH]; intros w k v H; [exact H|].
  simpl. apply IH. now apply process_file_keeps_audio.
Qed.

Lemma fold_process_length (music_files : list MusicFile) :
  forall w : World,
    length (music_list
              (fold_left (process_file artist_candidates) music_files w))
    = (length (music_list w)
       + length (List.filter tags_read music_files))%nat.
Proof.
  induction music_files as [|f fs IH]; intros w; [simpl; lia|].
  simpl fold_left. rewrite IH. simpl List.filter. unfold tags_read at 2.
  destruct (tag_read f) as [|audio] eqn:E.
  - rewrite (process_file_raised w f E). lia.
  - destruct (process_file_read w f audio E)
      as (dest & entry & _ & _ & -> & _).
    rewrite length_app. simpl. lia.
Qed.

Lemma with_lyrics_app (l1 l2 : list (gmap string pyval)) :
  with_lyrics (l1 ++ l2) = (with_lyrics l1 + with_lyrics l2)%nat.
Proof. unfold with_lyrics. now rewrite List.filter_app, length_app. Qed.

Lemma lyrics_url_truthy (s : list N) :
  py_truthy (PyStr (u "lyrics/" ++ s)) = true.
Proof. reflexivity. Qed.

Lemma fold_process_with_lyrics (music_files : list MusicFile) :
  forall w : World,
    with_lyrics (music_list
                   (fold_left (process_file artist_candidates) music_files w))
    = (with_lyrics (music_list w)
       + length (List.filter has_lyrics music_files))%nat.
Proof.
  induction music_files as [|f fs IH]; intros w; [simpl; lia|].
  simpl fold_left. rewrite IH. simpl List.filter.
  unfold has_lyrics at 2, tags_read.
  destruct (tag_read f) as [|audio] eqn:E.
  - rewrite (process_file_raised w f E). simpl. lia.
  - destruct (process_file_read_lyrics w f audio E)
      as (dest & entry & _ & -> & Hl).
    rewrite with_lyrics_app.
    assert (He : with_lyrics [entry]
                 = if match lrc_content f with
                      | Some (_ :: _) => true
                      | _ => false
                      end then 1%nat else 0%nat).
    { unfold with_lyrics, dict_get. cbn [List.filter].
      destruct (lrc_content f) as [[|c text]|]; destruct Hl as [_ ->];
        rewrite ?lyrics_url_truthy; reflexivity. }
    rewrite He. cbn [andb].
    destruct (match lrc_content f with
              | Some (_ :: _) => true
              | _ => false
              end); simpl; lia.
Qed.

End LoopFacts.

(** ** The run of [process_directory] and the playlist file *)

Section RunFacts.
Context {tables : CharTables}.
Variable artist_candidates : gmap (list N) Z.

(** The calls of the file system taken to succeed, the list that
    [process_directory] returns has one entry for each file whose tags
    were read, and none for the others. *)
Theorem process_directory_length (audio lyrics : gmap (list N) (list N))
        (music_files : list MusicFile) :
  length (process_directory artist_candidates audio lyrics music_files)
  = length (List.filter tags_read music_files).
Proof.
  unfold process_directory. cbv zeta.
  now rewrite fold_process_length.
Qed.

(** The calls of the file system taken to succeed, the lyrics statistic
    of a run counts the files whose tags were read and whose lyrics text,
    the lyrics file beside the audio file first and the search second, is
    not empty. *)
Theorem with_lyrics_of_run (audio lyrics : gmap (list N) (list N))
        (music_files : list MusicFile) :
  with_lyrics (process_directory artist_candidates audio lyrics music_files)
  = length (List.filter has_lyrics music_files).
Proof.
  unfold process_directory. cbv zeta.
  now rewrite fold_process_with_lyrics.
Qed.

(** The files that the output directory held before the run are there
    after it, with their content. *)
Theorem process_directory_keeps_audio (w : World)
        (music_files : list MusicFile) (k v : list N) :
  audio_dir w !! k = Some v ->
  audio_dir (fold_left (process_file artist_candidates) music_files w) !! k
  = Some v.
Proof. apply fold_process_keeps_audio. Qed.

Lemma fold_process_entries (music_files : list MusicFile) :
  forall w : World,
    Forall (fun e : gmap string pyval => dom e = list_to_set entry_keys)
           (music_list w) ->
    Forall (fun e : gmap string pyval => dom e = list_to_set entry_keys)
           (music_list
              (fold_left (process_file artist_candidates) music_files w)).
Proof.
  induction music_files as [|f fs IH]; intros w H; [exact H|].
  simpl. apply IH.
  destruct (tag_read f) as [|audio] eqn:E.
  - now rewrite (process_file_raised artist_candidates w f E).
  - destruct (process_file_read artist_candidates w f audio E)
      as (dest & entry & _ & _ & -> & Hd & _).
    apply Forall_app. split; [exact H|]. now constructor.
Qed.

End RunFacts.

Lemma entry_has_clean_keys (e : gmap string pyval) (k : string) :
  dom e = list_to_set entry_keys -> In k clean_keys -> is_Some (e !! k).
Proof.
  intros Hd Hk. apply elem_of_dom. rewrite Hd.
  apply elem_of_list_to_set, list_elem_of_In.
  unfold clean_keys in Hk. unfold entry_keys. simpl in *. tauto.
Qed.

(** [clean_song] succeeds exactly on a song that has the six keys; then
    it returns a dictionary with these six keys and the values of the
    song. *)
Lemma clean_song_cases (song : gmap string pyval) :
  ((exists clean, clean_song song = Ok clean)
   <-> forall k, In k clean_keys -> is_Some (song !! k))
  /\ forall clean,
       clean_song song = Ok clean ->
       dom clean = list_to_set clean_keys
       /\ forall k, In k clean_keys -> clean !! k = song !! k.
Proof.
  unfold clean_song, getitem, clean_keys.
  destruct (song !! "name"%string) as [v1|] eqn:E1;
    [|split; [split; [intros [? ?]; discriminate|
                      intros H; destruct (H "name"%string) as [? ?];
                      [simpl; tauto|congruence]]|discriminate]].
  destruct (song !! "artist"%string) as [v2|] eqn:E2;
    [|split; [split; [intros [? ?]; discriminate|
                      intros H; destruct (H "artist"%string) as [? ?];
                      [simpl; tauto|congruence]]|discriminate]].
  destruct (song !! "url"%string) as [v3|] eqn:E3;
    [|split; [split; [intros [? ?]; discriminate|
                      intros H; destruct (H "url"%string) as [? ?];
                      [simpl; tauto|congruence]]|discriminate]].
  destruct (song !! "cover"%string) as [v4|] eqn:E4;
    [|split; [split; [intros [? ?]; discriminate|
                      intros H; destruct (H "cover"%string) as [? ?];
                      [simpl; tauto|congruence]]|discriminate]].
  destruct (song !! "lrc"%string) as [v5|] eqn:E5;
    [|split; [split; [intros [? ?]; discriminate|
                      intros H; destruct (H "lrc"%string) as [? ?];
                      [simpl; tauto|congruence]]|discriminate]].
  destruct (song !! "duration"%string) as [v6|] eqn:E6;
    [|split; [split; [intros [? ?]; discriminate|
                      intros H; destruct (H "duration"%string) as [? ?];
                      [simpl; tauto|congruence]]|discriminate]].
  cbn [mbind result_bind bind]. split.
  - split; [|eauto]. intros _ k Hk. simpl in Hk.
    destruct Hk as [<-|[<-|[<-|[<-|[<-|[<-|[]]]]]]]; eauto.
  - intros clean [= <-]. split.
    + rewrite !dom_insert_L, dom_empty_L. reflexivity.
    + intros k Hk. simpl in Hk.
      destruct Hk as [<-|[<-|[<-|[<-|[<-|[<-|[]]]]]]];
        repeat (rewrite lookup_insert_ne by discriminate);
        rewrite lookup_insert_eq; congruence.
Qed.

Lemma clean_list_entries (music_list : list (gmap string pyval)) :
  Forall (fun e : gmap string pyval => dom e = list_to_set entry_keys)
         music_list ->
  exists clean,
    clean_list music_list = Ok clean
    /\ length clean = length music_list
    /\ Forall (fun c : gmap string pyval => dom c = list_to_set clean_keys)
              clean.
Proof.
  induction 1 as [|e l He Hl (rest & Hr & Hlen & Hall)].
  - exists []. repeat split. constructor.
  - destruct (proj2 (proj1 (clean_song_cases e))
                    (fun k Hk => entry_has_clean_keys e k He Hk))
      as [c Hc].
    exists (c :: rest). simpl. rewrite Hc, Hr.
    cbn [mbind result_bind bind]. split; [reflexivity|].
    split; [simpl; lia|]. constructor; [|exact Hall].
    exact (proj1 (proj2 (clean_song_cases e) c Hc)).
Qed.

(** The list written to the playlist file after a run is built without
    [KeyError], and each of its songs has exactly the keys name, artist,
    url, cover, lrc and duration; the calls of the file system taken to
    succeed, it has one song for each file whose tags were read. *)
Theorem playlist_of_run {tables : CharTables}
        (artist_candidates : gmap (list N) Z)
        (audio lyrics : gmap (list N) (list N))
        (music_files : list MusicFile) :
  exists clean,
    clean_list (process_directory artist_candidates audio lyrics music_files)
    = Ok clean
    /\ length clean = length (List.filter tags_read music_files)
    /\ Forall (fun c : gmap string pyval => dom c = list_to_set clean_keys)
              clean.
Proof.
  destruct (clean_list_entries
              (process_directory artist_candidates audio lyrics music_files))
    as (clean & Hc & Hl & Ha).
  - unfold process_directory. cbv zeta.
    apply fold_process_entries. constructor.
  - exists clean. rewrite Hl. unfold process_directory. cbv zeta.
    rewrite fold_process_length. auto.
Qed.

Lemma total_insert (counts : gmap pyval Z) (k : pyval) :
  total (<[k := (default 0 (counts !! k) + 1)%Z]> counts)
  = (total counts + 1)%Z.
Proof.
  unfold total.
  assert (Hcomm : forall (m : gmap pyval Z) (j1 j2 : pyval) (z1 z2 y : Z),
             j1 <> j2 -> m !! j1 = Some z1 -> m !! j2 = Some z2 ->
             (z1 + (z2 + y) = z2 + (z1 + y))%Z) by (intros; lia).
  destruct (counts !! k) as [v|] eqn:E; simpl.
  - rewrite <- (insert_delete_eq counts k).
    rewrite map_fold_insert_L;
      [|apply Hcomm|apply lookup_delete_eq].
    rewrite <- (insert_delete_id counts k v E) at 2.
    rewrite map_fold_insert_L;
      [|apply Hcomm|apply lookup_delete_eq].
    lia.
  - rewrite map_fold_insert_L; [|apply Hcomm|exact E]. lia.
Qed.

(** The counts of the provenance statistic add up to the number of
    songs. *)
Theorem artist_sources_total (music_list : list (gmap string pyval)) :
  total (artist_sources music_list) = Z.of_nat (length music_list).
Proof.
  unfold artist_sources.
  assert (H : forall acc : gmap pyval Z,
             total (fold_left
                      (fun acc song =>
                         let source :=
                           dict_get song "artist_source"
                                    (PyStr (u "unknown")) in
                         <[source := (default 0%Z (acc !! source) + 1)%Z]> acc)
                      music_list acc)
             = (total acc + Z.of_nat (length music_list))%Z).
  { induction music_list as [|song l IH]; intros acc; [simpl; lia|].
    cbn [fold_left length]. rewrite IH. cbv zeta. rewrite total_insert. lia. }
  rewrite H. unfold total. rewrite map_fold_empty. lia.
Qed.

(** [process_file_appends] at the tagged file [晴天.mp3] and an empty
    output directory. *)
Lemma process_file_appends_witness :
  exists dest entry,
    audio_dir empty_output !! dest = None
    /\ audio_dir (@process_file latin_cjk ∅ empty_output band_tag_file)
       = <[dest := content band_tag_file]> (audio_dir empty_output)
    /\ music_list (@process_file latin_cjk ∅ empty_output band_tag_file)
       = music_list empty_output ++ [entry]
    /\ dom entry = list_to_set entry_keys
    /\ entry !! "url"%string = Some (PyStr (u "audio/" ++ dest))
    /\ entry !! "duration"%string
       = Some (PyInt (duration_of
                        (Some {| tags :=
                                   Some (<["TIT2"%string := u "晴天"]>
                                           {["TPE2"%string :=
                                               u "周杰伦/方文山"]});
                                 info_length := Some 269%Z |})))
    /\ entry !! "original_filename"%string
       = Some (PyStr (name band_tag_file)).
Proof.
  exact (@process_file_appends latin_cjk ∅ empty_output band_tag_file
           _ eq_refl).
Defined.

(** [process_directory_keeps_audio] at a directory that holds [old.mp3]
    and a run on the file whose tags cannot be read. *)
Lemma process_directory_keeps_audio_witness :
  audio_dir
    (fold_left (@process_file latin_cjk ∅) [unreadable_file]
               {| audio_dir := {[ u "old.mp3" := [1] ]};
                  lyrics_dir := ∅; music_list := [] |})
    !! u "old.mp3"
  = Some [1].
Proof.
  apply (@process_directory_keeps_audio latin_cjk ∅
           {| audio_dir := {[ u "old.mp3" := [1] ]};
              lyrics_dir := ∅; music_list := [] |}
           [unreadable_file] (u "old.mp3") [1]).
  vm_compute. reflexivity.
Defined.

(** [process_file_lyrics] at a tagged file with a lyrics file beside it and
    an empty output directory: the text of that file is written, not what
    the search would find. *)
Lemma process_file_lyrics_witness :
  exists dest entry,
    audio_dir (@process_file latin_cjk ∅ empty_output sidecar_file)
    = <[dest := content sidecar_file]> (audio_dir empty_output)
    /\ music_list (@process_file latin_cjk ∅ empty_output sidecar_file)
       = music_list empty_output ++ [entry]
    /\ match lrc_content sidecar_file with
       | Some (c :: text) =>
         lyrics_dir (@process_file latin_cjk ∅ empty_output sidecar_file)
         = <[path_stem dest ++ u ".lrc" := c :: text]>
             (lyrics_dir empty_output)
         /\ entry !! "lrc"%string
            = Some (PyStr (u "lyrics/" ++ path_stem dest ++ u ".lrc"))
       | _ =>
         lyrics_dir (@process_file latin_cjk ∅ empty_output sidecar_file)
         = lyrics_dir empty_output
         /\ entry !! "lrc"%string = Some PyNone
       end.
Proof.
  exact (@process_file_lyrics latin_cjk ∅ empty_output sidecar_file
           _ eq_refl).
Defined.
